(** * Beam deconvolution of position-velocity diagrams (pvanalysis/pvfits.py)

    A shallow embedding of [Impvfits.beam_deconvolution], of
    [get_1dresolution] and of the part of [Impvfits.read_pvfits] that sets
    the beam, the position angle and the resolution, with the properties
    of the specification that were checked against it and further
    properties of the code.

    Numbers.  NumPy's float64 values are idealised: a finite value is a real
    number (no rounding, no overflow, one zero), and the three special values
    of IEEE 754 that the code tests for or produces ([nan], [inf], [-inf])
    are kept, with the IEEE conventions for arithmetic on them.

    Effects.  Arrays owned by the image live in a heap of arrays; the method
    runs in a state-and-exception monad over that heap, the text printed so
    far and the attribute [data_deconv] it assigns. *)

From Stdlib Require Import Reals Lra Lia String ZArith Bool Arith Sorted List.
Import ListNotations.

(* ================================================================== *)
(** * Part I: definitions *)
(* ================================================================== *)

(** ** Idealised float64 *)

Inductive float64 : Type :=
| Fin (r : R)
| PInf
| NInf
| NaN.

Declare Scope f64_scope.
Delimit Scope f64_scope with f64.
Bind Scope f64_scope with float64.

Module F64.

Open Scope R_scope.

Definition Rltb (a b : R) : bool := if Rlt_dec a b then true else false.
Definition Rleb (a b : R) : bool := if Rle_dec a b then true else false.
Definition Reqb (a b : R) : bool := if Req_dec_T a b then true else false.

Definition isnan (x : float64) : bool :=
  match x with NaN => true | _ => false end.

Definition neg (x : float64) : float64 :=
  match x with
  | Fin r => Fin (- r)
  | PInf => NInf
  | NInf => PInf
  | NaN => NaN
  end.

Definition add (x y : float64) : float64 :=
  match x, y with
  | NaN, _ | _, NaN => NaN
  | Fin a, Fin b => Fin (a + b)
  | PInf, NInf | NInf, PInf => NaN
  | PInf, _ | _, PInf => PInf
  | NInf, _ | _, NInf => NInf
  end.

Definition sub (x y : float64) : float64 := add x (neg y).

(** The sign of a finite value decides the product with an infinity;
    [inf * 0] is [nan]. *)
Definition inf_times (positive : bool) (r : R) : float64 :=
  if Reqb r 0 then NaN
  else if Bool.eqb positive (Rltb 0 r) then PInf else NInf.

Definition mul (x y : float64) : float64 :=
  match x, y with
  | NaN, _ | _, NaN => NaN
  | Fin a, Fin b => Fin (a * b)
  | PInf, Fin b | Fin b, PInf => inf_times true b
  | NInf, Fin b | Fin b, NInf => inf_times false b
  | PInf, PInf | NInf, NInf => PInf
  | PInf, NInf | NInf, PInf => NInf
  end.

(** Division never raises in NumPy: [x/0] is a signed infinity, [0/0] is
    [nan] (the one zero of the model counts as positive). *)
Definition div (x y : float64) : float64 :=
  match x, y with
  | NaN, _ | _, NaN => NaN
  | Fin a, Fin b =>
      if Reqb b 0 then
        if Reqb a 0 then NaN else if Rltb 0 a then PInf else NInf
      else Fin (a / b)
  | Fin _, PInf | Fin _, NInf => Fin 0
  | PInf, Fin b => if Rltb b 0 then NInf else PInf
  | NInf, Fin b => if Rltb b 0 then PInf else NInf
  | PInf, PInf | PInf, NInf | NInf, PInf | NInf, NInf => NaN
  end.

Definition sqrt (x : float64) : float64 :=
  match x with
  | Fin r => if Rltb r 0 then NaN else Fin (R_sqrt.sqrt r)
  | PInf => PInf
  | NInf | NaN => NaN
  end.

Definition abs (x : float64) : float64 :=
  match x with
  | Fin r => Fin (Rabs r)
  | PInf | NInf => PInf
  | NaN => NaN
  end.

Definition exp (x : float64) : float64 :=
  match x with
  | Fin r => Fin (Rtrigo_def.exp r)
  | PInf => PInf
  | NInf => Fin 0
  | NaN => NaN
  end.

Definition sin (x : float64) : float64 :=
  match x with Fin r => Fin (Rtrigo_def.sin r) | _ => NaN end.

Definition cos (x : float64) : float64 :=
  match x with Fin r => Fin (Rtrigo_def.cos r) | _ => NaN end.

(** [np.hypot]: an infinite argument wins over [nan]. *)
Definition hypot (x y : float64) : float64 :=
  match x, y with
  | PInf, _ | NInf, _ | _, PInf | _, NInf => PInf
  | NaN, _ | _, NaN => NaN
  | Fin a, Fin b => Fin (R_sqrt.sqrt (a * a + b * b))
  end.

(** [np.arctan2 y x], by quadrant. *)
Definition arctan2 (y x : float64) : float64 :=
  match y, x with
  | NaN, _ | _, NaN => NaN
  | Fin a, Fin b =>
      if Rltb 0 b then Fin (atan (a / b))
      else if Rltb b 0 then
        (if Rltb a 0 then Fin (atan (a / b) - PI) else Fin (atan (a / b) + PI))
      else if Rltb 0 a then Fin (PI / 2)
      else if Rltb a 0 then Fin (- (PI / 2))
      else Fin 0
  | Fin a, PInf => Fin 0
  | Fin a, NInf => if Rltb a 0 then Fin (- PI) else Fin PI
  | PInf, Fin _ => Fin (PI / 2)
  | NInf, Fin _ => Fin (- (PI / 2))
  | PInf, PInf => Fin (PI / 4)
  | PInf, NInf => Fin (3 * PI / 4)
  | NInf, PInf => Fin (- (PI / 4))
  | NInf, NInf => Fin (- (3 * PI / 4))
  end.

(** Comparisons: every comparison with [nan] is false, except [!=]. *)
Definition ltb (x y : float64) : bool :=
  match x, y with
  | NaN, _ | _, NaN => false
  | Fin a, Fin b => Rltb a b
  | NInf, NInf | PInf, _ | _, NInf => false
  | NInf, _ | _, PInf => true
  end.

Definition eqb (x y : float64) : bool :=
  match x, y with
  | Fin a, Fin b => Reqb a b
  | PInf, PInf | NInf, NInf => true
  | _, _ => false
  end.

Definition leb (x y : float64) : bool := ltb x y || eqb x y.
Definition gtb (x y : float64) : bool := ltb y x.
Definition geb (x y : float64) : bool := leb y x.
Definition neb (x y : float64) : bool := negb (eqb x y).

End F64.

Notation "x + y" := (F64.add x y) : f64_scope.
Notation "x - y" := (F64.sub x y) : f64_scope.
Notation "x * y" := (F64.mul x y) : f64_scope.
Notation "x / y" := (F64.div x y) : f64_scope.
Notation "- x" := (F64.neg x) : f64_scope.
Notation "x <? y" := (F64.ltb x y) : f64_scope.
Notation "x >? y" := (F64.gtb x y) (at level 70) : f64_scope.
Notation "x >=? y" := (F64.geb x y) (at level 70) : f64_scope.
Notation "x ==? y" := (F64.eqb x y) (at level 70) : f64_scope.
Notation "x !=? y" := (F64.neb x y) (at level 70) : f64_scope.

(** Float literals of the source. *)
Definition f0 : float64 := Fin 0%R.
Definition f1 : float64 := Fin 1%R.
Definition f2 : float64 := Fin 2%R.
Definition np_pi : float64 := Fin PI.
Definition np_log2 : float64 := Fin (ln 2).

(** ** get_1dresolution (pvfits.py, module level) *)

Definition np_radians (x : float64) : float64 := (x * Fin (PI / 180))%f64.

Definition get_1dresolution (pa bmaj bmin bpa : float64) : float64 :=
  let del_pa := np_radians (pa - bpa)%f64 in
  let term2 := F64.hypot (F64.sin del_pa / bmin)%f64 (F64.cos del_pa / bmaj)%f64 in
  (f1 / term2)%f64.

(** ** Python values, exceptions and arrays *)

Inductive exn : Type :=
| TypeError
| ValueError
| IndexError
| FitError (msg : string).

Inductive res (A : Type) : Type :=
| Ok (a : A)
| Raise (e : exn).

Arguments Ok {A} a.
Arguments Raise {A} e.

Definition rbind {A B : Type} (m : res A) (k : A -> res B) : res B :=
  match m with
  | Ok a => k a
  | Raise e => Raise e
  end.

Notation "x <- m ;; k" := (rbind m (fun x => k))
  (at level 61, m at next level, right associativity).

(** A list comprehension: elements are computed in order, the first
    exception ends it. *)
Fixpoint mapM {A B : Type} (f : A -> res B) (l : list A) : res (list B) :=
  match l with
  | [] => Ok []
  | a :: l' => b <- f a ;; bs <- mapM f l' ;; Ok (b :: bs)
  end.

Definition vec : Type := list float64.
Definition matrix : Type := list vec.

(** A value that NumPy broadcasts: a scalar or a one-dimensional array. *)
Inductive bval : Type :=
| Scalar (x : float64)
| Vector (xs : vec).

Definition bmap (f : float64 -> float64) (b : bval) : bval :=
  match b with
  | Scalar x => Scalar (f x)
  | Vector xs => Vector (map f xs)
  end.

Definition map2 {A B C : Type} (f : A -> B -> C) (xs : list A) (ys : list B)
  : list C :=
  map (fun p => f (fst p) (snd p)) (combine xs ys).

(** Broadcasting of two one-dimensional arrays: equal lengths, or one of
    them of length 1. *)
Definition bc2 {A B C : Type} (f : A -> B -> C) (xs : list A) (ys : list B)
  : res (list C) :=
  if (length xs =? length ys)%nat then Ok (map2 f xs ys)
  else match xs, ys with
       | _, [y] => Ok (map (fun x => f x y) xs)
       | [x], _ => Ok (map (fun y => f x y) ys)
       | _, _ => Raise ValueError
       end.

(** The same for an in-place operator ([a /= b], [a *= b]): the left
    operand keeps its shape. *)
Definition ibc2 {A B : Type} (f : A -> B -> A) (xs : list A) (ys : list B)
  : res (list A) :=
  if (length ys =? length xs)%nat then Ok (map2 f xs ys)
  else match ys with
       | [y] => Ok (map (fun x => f x y) xs)
       | _ => Raise ValueError
       end.

Definition bcv {C : Type} (f : float64 -> float64 -> C) (xs : vec) (b : bval)
  : res (list C) :=
  match b with
  | Scalar s => Ok (map (fun x => f x s) xs)
  | Vector ys => bc2 f xs ys
  end.

(** Two-dimensional broadcasting, rows first. *)
Definition bc2d {A B C : Type} (f : A -> B -> C)
  (m1 : list (list A)) (m2 : list (list B)) : res (list (list C)) :=
  if (length m1 =? length m2)%nat
  then mapM (fun p => bc2 f (fst p) (snd p)) (combine m1 m2)
  else match m1, m2 with
       | _, [r2] => mapM (fun r1 => bc2 f r1 r2) m1
       | [r1], _ => mapM (fun r2 => bc2 f r1 r2) m2
       | _, _ => Raise ValueError
       end.

Definition ibc2d {A B : Type} (f : A -> B -> A)
  (m1 : list (list A)) (m2 : list (list B)) : res (list (list A)) :=
  if (length m2 =? length m1)%nat
  then mapM (fun p => ibc2 f (fst p) (snd p)) (combine m1 m2)
  else match m2 with
       | [r2] => mapM (fun r1 => ibc2 f r1 r2) m1
       | _ => Raise ValueError
       end.

(** [a[mask]] with a boolean mask: the lengths must agree. *)
Fixpoint select {A : Type} (mask : list bool) (v : list A) : list A :=
  match mask, v with
  | b :: mask', a :: v' => if b then a :: select mask' v' else select mask' v'
  | _, _ => []
  end.

Definition mask_select {A : Type} (mask : list bool) (v : list A)
  : res (list A) :=
  if (length mask =? length v)%nat then Ok (select mask v)
  else Raise IndexError.

Definition square (x : float64) : float64 := (x * x)%f64.

Definition fmax (x y : float64) : float64 :=
  if F64.isnan x then y
  else if F64.isnan y then x
  else if (x <? y)%f64 then y else x.

(** [np.nanmax]: no maximum of an empty array; [nan] when every entry is. *)
Definition nanmax (v : vec) : res float64 :=
  match v with
  | [] => Raise ValueError
  | x :: v' => Ok (fold_left fmax v' x)
  end.

Definition nansum (v : vec) : float64 :=
  fold_left (fun acc x => if F64.isnan x then acc else (acc + x)%f64) v f0.

Definition np_sum (v : vec) : float64 := fold_left F64.add v f0.

(** [np.argmin]: the first [nan] if there is one, else the first minimum. *)
Fixpoint argmin_from (i best : nat) (bv : float64) (v : vec) : nat :=
  match v with
  | [] => best
  | x :: v' =>
      if F64.isnan bv then best
      else if F64.isnan x || (x <? bv)%f64
           then argmin_from (S i) i x v'
           else argmin_from (S i) best bv v'
  end.

Definition argmin (v : vec) : res nat :=
  match v with
  | [] => Raise ValueError
  | x :: v' => Ok (argmin_from 1 0 x v')
  end.

Definition np_zeros (n : nat) : vec := repeat f0 n.

(** [v[i] = x] on a one-dimensional array, [i] in range. *)
Fixpoint set_nth (i : nat) (x : float64) (v : vec) : vec :=
  match v, i with
  | [], _ => []
  | _ :: v', O => x :: v'
  | y :: v', S i' => y :: set_nth i' x v'
  end.

(** ** The module fitfuncs

    [fitfuncs.py] is not part of the sources at hand.  The solvers are
    taken as given functions; a call may raise.  [uninit] is what a cell
    of an [np.empty] array holds before it is written. *)

Definition params : Type := (float64 * float64 * float64)%type.
Definition cplx : Type := (float64 * float64)%type.

Class Fitfuncs : Type := {
  gaussfit : vec -> vec -> float64 -> params -> res params;
  complexgauss1d : vec -> float64 -> float64 -> float64 -> float64 -> list cplx;
  complexgaussfit :
    vec -> list cplx -> list cplx -> list float64 -> res (list float64);
  uninit : float64
}.

(** Modelled from the spec: [gauss1d] of fitfuncs.py, which the spec gives
    as [a * exp(-(x - mn)^2 / (2 sigma^2))], evaluated at every sample. *)
Definition gauss1d_pt (x a mn sig : float64) : float64 :=
  (a * F64.exp (- (square (x - mn) / (f2 * square sig))))%f64.

Definition gauss1d (xs : vec) (a mn sig : float64) : vec :=
  map (fun x => gauss1d_pt x a mn sig) xs.

(** ** The image object and the state of a call *)

Definition loc : Type := nat.

(** An array of the heap: one-dimensional, two-dimensional, or
    three-dimensional with a leading axis of length 1 (the shape
    [(1, nv, nx)] of a 3-axis FITS image, held by its single plane). *)
Inductive ndarray : Type :=
| A1 (v : vec)
| A2 (m : matrix)
| A3 (m : matrix).

(** The beam attribute: absent, the header triple, or the rows
    [(bmaj, bmin, bpa)] of the multi-beam table. *)
Inductive beam_t : Type :=
| NoBeam
| SingleBeam (bmaj bmin bpa : float64)
| BeamTable (rows : list params).

(** The attributes [beam_deconvolution] reads.  The arrays are references
    into the heap. *)
Record Impvfits : Type := {
  naxis : Z;
  nv : nat;
  nx : nat;
  data : loc;
  xaxis : loc;
  vaxis : loc;
  delx : float64;
  delv : float64;
  multibeam : bool;
  beam : beam_t;
  pa : option float64;
  res_off : option float64
}.

(** What a call can change: the heap of arrays, the text printed so far
    and the attribute [self.data_deconv]. *)
Record pystate : Type := {
  heap : list ndarray;
  stdout : list string;
  data_deconv : option loc
}.

Inductive retval : Type :=
| RNone
| RInt (z : Z).

Definition M (A : Type) : Type := pystate -> pystate * res A.

Definition ret {A : Type} (a : A) : M A := fun st => (st, Ok a).

Definition bind {A B : Type} (m : M A) (k : A -> M B) : M B :=
  fun st =>
    match m st with
    | (st', Ok a) => k a st'
    | (st', Raise e) => (st', Raise e)
    end.

Notation "x <~ m ;; k" := (bind m (fun x => k))
  (at level 61, m at next level, right associativity).

Definition lift {A : Type} (r : res A) : M A := fun st => (st, r).

Definition load (l : loc) : M ndarray :=
  fun st => (st, Ok (nth l (heap st) (A1 []))).

Definition alloc (a : ndarray) : M loc :=
  fun st =>
    ({| heap := heap st ++ [a];
        stdout := stdout st;
        data_deconv := data_deconv st |},
     Ok (length (heap st))).

Fixpoint update_nth {A : Type} (l : nat) (a : A) (h : list A) : list A :=
  match h, l with
  | [], _ => []
  | _ :: h', O => a :: h'
  | b :: h', S l' => b :: update_nth l' a h'
  end.

Definition store (l : loc) (a : ndarray) : M unit :=
  fun st =>
    ({| heap := update_nth l a (heap st);
        stdout := stdout st;
        data_deconv := data_deconv st |},
     Ok tt).

Definition print (s : string) : M unit :=
  fun st =>
    ({| heap := heap st;
        stdout := stdout st ++ [s];
        data_deconv := data_deconv st |},
     Ok tt).

Definition set_data_deconv (l : loc) : M unit :=
  fun st =>
    ({| heap := heap st;
        stdout := stdout st;
        data_deconv := Some l |},
     Ok tt).

(** [a.copy()]: a new array with the same contents. *)
Definition np_copy (l : loc) : M loc := a <~ load l ;; alloc a.

(** The contents of an array as NumPy's [squeeze] shows them.  Images have
    [nv >= 2] and [nx >= 2] ([read_pvfits] reads [xaxis[1]] and
    [vaxis[1]]), so only the leading axis of a 3-axis image is dropped. *)
Definition squeeze (a : ndarray) : matrix :=
  match a with
  | A1 v => [v]
  | A2 m | A3 m => m
  end.

Definition as_vec (a : ndarray) : vec :=
  match a with
  | A1 v => v
  | A2 m | A3 m => concat m
  end.

(** Writing through a squeezed view keeps the shape of the base array. *)
Definition with_contents (a : ndarray) (m : matrix) : ndarray :=
  match a with
  | A1 _ => A1 (concat m)
  | A2 _ => A2 m
  | A3 _ => A3 m
  end.

(** ** Helpers nested in beam_deconvolution *)

Section Helpers.

Context {F : Fitfuncs}.

Definition gs_result (get_params : bool) : Type :=
  if get_params then params else vec.

Definition get_gaussiansolution (_xin _din : vec) (get_params : bool)
  : res (gs_result get_params) :=
  (* exclude nan from the fitting *)
  let keep := map (fun d => negb (F64.isnan d)) _din in
  _x <- mask_select keep _xin ;;
  _d <- mask_select keep _din ;;
  (* if all zero *)
  if forallb (fun d => (d ==? f0)%f64) _d then
    match get_params return res (gs_result get_params) with
    | true => Ok (f0, f0, f0)
    | false => Ok (np_zeros (length _x))
    end
  else
    mx <- nanmax _d ;;
    let mean := (nansum (map2 F64.mul _d _x) / nansum _d)%f64 in
    let std :=
      F64.sqrt
        (nansum (map2 F64.mul _d (map (fun x => square (mean - x)%f64) _x))
         / nansum _d)%f64 in
    pout <- gaussfit _x _d f1 (mx, mean, std) ;;
    match get_params return res (gs_result get_params) with
    | true => Ok pout
    | false =>
        let '(a, mn, sg) := pout in
        if F64.isnan a || F64.isnan mn || F64.isnan sg
        then Ok (np_zeros (length _x))
        else Ok (gauss1d _x a mn sg)
    end.

Definition get_pointsolution (_x : vec) (_x0 _f : float64) : res vec :=
  _indx <- argmin (map (fun x => F64.abs (x - _x0)%f64) _x) ;;
  let _pt := np_zeros (length _x) in
  Ok (set_nth _indx _f _pt).

Definition zero_division_pt (a b : float64) : float64 :=
  if (b !=? f0)%f64 then (a / b)%f64
  else if (a <? f0)%f64 then NInf
  else if (a >=? f0)%f64 then PInf
  else uninit.

Definition zero_division (_a _b : vec) : res vec :=
  if (length _b =? length _a)%nat then Ok (map2 zero_division_pt _a _b)
  else Raise IndexError.

End Helpers.

(** ** The stages of beam_deconvolution *)

Definition py_index {A : Type} (l : list A) (i : nat) : res A :=
  match nth_error l i with
  | Some a => Ok a
  | None => Raise IndexError
  end.

(** [x >= sigmacut]: a float against [None] is a [TypeError]. *)
Definition py_ge (x : float64) (s : option float64) : res bool :=
  match s with
  | None => Raise TypeError
  | Some s => Ok (x >=? s)%f64
  end.

(** Truth value of [sigmacut]: [None] and [0.] are false. *)
Definition truthy (s : option float64) : bool :=
  match s with
  | None => false
  | Some x => (x !=? f0)%f64
  end.

(** Columns [lo:hi] of every row. *)
Definition slice (lo hi : nat) {A : Type} (v : list A) : list A :=
  firstn (hi - lo) (skipn lo v).

Definition slice_cols (w : option (nat * nat)) (m : matrix) : matrix :=
  match w with
  | None => m
  | Some (lo, hi) => map (slice lo hi) m
  end.

(** [np.nonzero(mask)[0]] *)
Definition nonzero (mask : list bool) : list nat :=
  select mask (seq 0 (length mask)).

(** The window of [fit_xlim]: the column range kept in [data] (a view)
    and the offsets kept in [xaxis] (a new array). *)
Definition fit_window (xaxis_v : vec) (fit_xlim : list float64)
  : res (option (nat * nat) * vec) :=
  match fit_xlim with
  | [x_lo; x_hi] =>
      let mask :=
        map (fun x => (x >=? x_lo)%f64 && (x <? x_hi)%f64) xaxis_v in
      let indx := nonzero mask in
      i_min <- py_index indx 0 ;;
      i_max <- py_index indx (length indx - 1) ;;
      Ok (Some (i_min, i_max + 1)%nat, select mask xaxis_v)
  | _ => Ok (None, xaxis_v)
  end.

(** [data[data < sigmacut] = 0.] through the view [w]: cells outside the
    window keep their value. *)
Definition clip_pt (s x : float64) : float64 :=
  if (x <? s)%f64 then f0 else x.

Definition clip_row (s : float64) (w : option (nat * nat)) (row : vec) : vec :=
  match w with
  | None => map (clip_pt s) row
  | Some (lo, hi) =>
      firstn lo row ++ map (clip_pt s) (slice lo hi row)
        ++ skipn (lo + (hi - lo)) row
  end.

Definition clip_window (s : float64) (w : option (nat * nat)) (m : matrix)
  : matrix :=
  map (clip_row s w) m.

(** The resolution along the offset axis, per channel for a multi-beam
    image; [None] is Python's [None]. *)
Definition get_res_off (self : Impvfits) : res (option bval) :=
  if multibeam self then
    match pa self with
    | Some p =>
        match beam self with
        | BeamTable rows =>
            rs <- mapM (fun i =>
                          r <- py_index rows i ;;
                          let '(bmaj, bmin, bpa) := r in
                          Ok (get_1dresolution p bmaj bmin bpa))
                       (seq 0 (nv self)) ;;
            Ok (Some (Vector rs))
        | SingleBeam _ _ _ => Raise IndexError
        | NoBeam => Raise TypeError
        end
    | None =>
        match beam self with
        | BeamTable rows => Ok (Some (Vector (map (fun r => fst (fst r)) rows)))
        | SingleBeam _ _ _ => Raise IndexError
        | NoBeam => Raise TypeError
        end
    end
  else Ok (option_map Scalar (res_off self)).

Definition fwhm_factor : float64 := (f2 * F64.sqrt (f2 * np_log2))%f64.

(** Arithmetic on [res_off]: [None * float] is a [TypeError]. *)
Definition require_number (r : option bval) : res bval :=
  match r with
  | None => Raise TypeError
  | Some b => Ok b
  end.

Definition sigma_beam_fft_of (res_off_v : bval) : bval :=
  bmap (fun x => fwhm_factor / (x * np_pi * f2))%f64 res_off_v.

Section GaussMode.

Context {F : Fitfuncs}.

(** One row of [g_]: the gate on the peak, then the fit. *)
Definition row_params (sigmacut : option float64) (xaxis_v d_i : vec)
  : res params :=
  peak <- nanmax d_i ;;
  pass <- py_ge peak sigmacut ;;
  if pass then get_gaussiansolution xaxis_v d_i true
  else Ok (f0, f0, f0).

Definition gauss_params (sigmacut : option float64) (xaxis_v : vec)
  (data_v : matrix) : res (list params) :=
  g_ <- mapM (row_params sigmacut xaxis_v) data_v ;;
  match g_ with
  | [] => Raise IndexError
  | _ => Ok g_
  end.

Definition col (k : nat) (p : params) : float64 :=
  let '(a, mn, sig) := p in
  match k with
  | O => a
  | S O => mn
  | _ => sig
  end.

Definition set_col (k : nat) (x : float64) (p : params) : params :=
  let '(a, mn, sig) := p in
  match k with
  | O => (x, mn, sig)
  | S O => (a, x, sig)
  | _ => (a, mn, x)
  end.

(** [gi[(g_a < 0.) | np.isnan(gi)] = 0.] for the column [gi = g_.T[k]].
    [g_a] is a view of column 0 of [g_], so the mask reads the amplitude
    the array holds when column [k] is reached. *)
Definition replace_column (k : nat) (g_ : list params) : list params :=
  map (fun row =>
         if (col 0 row <? f0)%f64 || F64.isnan (col k row)
         then set_col k f0 row else row) g_.

(** [for gi in g_.T: ...] over the three columns, in order. *)
Definition replace_failed (g_ : list params) : list params :=
  fold_left (fun g k => replace_column k g) [0; 1; 2]%nat g_.

Definition two_pi : float64 := (f2 * np_pi)%f64.

Definition deconv_sig2 (g_sig : vec) (sigma_beam_fft : bval) : res vec :=
  d <- bcv F64.sub
         (map (fun s => square (two_pi * s)%f64) g_sig)
         (bmap (fun s => square (f1 / s)%f64) sigma_beam_fft) ;;
  Ok (map (fun v => if (v <? f0)%f64 then f0 else v) d).

Definition deconv_sig (g_sig : vec) (sigma_beam_fft : bval) : res vec :=
  g_deconv_sig2 <- deconv_sig2 g_sig sigma_beam_fft ;;
  Ok (map (fun v => (F64.sqrt v / two_pi)%f64) g_deconv_sig2).

(** Row [i] of [d_deconv] before the change of units. *)
Definition deconv_row (xfull g_a g_mn g_deconv_a g_deconv_sig : vec) (i : nat)
  : res vec :=
  ds <- py_index g_deconv_sig i ;;
  if (ds !=? f0)%f64 then
    da <- py_index g_deconv_a i ;;
    mn <- py_index g_mn i ;;
    Ok (gauss1d xfull da mn ds)
  else
    mn <- py_index g_mn i ;;
    a <- py_index g_a i ;;
    get_pointsolution xfull mn (a * F64.sqrt two_pi * ds)%f64.

Definition np_tile (b : bval) (n : nat) : matrix :=
  match b with
  | Scalar x => repeat [x] n
  | Vector xs => repeat xs n
  end.

Definition beam_area_of (res_off_v : bval) : bval :=
  bmap (fun r => (F64.sqrt two_pi * r / fwhm_factor)%f64) res_off_v.

(** Jy/beam --> Jy/pixel *)
Definition to_flux_per_pixel (self : Impvfits) (res_off_v : bval)
  (d_deconv : matrix) : res matrix :=
  let beam_area := beam_area_of res_off_v in
  if multibeam self then
    ibc2d F64.div d_deconv
      (map (map (fun a => (a / delx self)%f64)) (np_tile beam_area (nv self)))
  else
    match bmap (fun a => (a / delx self)%f64) beam_area with
    | Scalar s => Ok (map (map (fun x => (x / s)%f64)) d_deconv)
    | Vector ys => mapM (fun row => ibc2 F64.div row ys) d_deconv
    end.

(** The branch [solmode == 'gauss']: the fitted parameters, their
    deconvolution and the reconstructed rows [d_deconv] ... *)
Definition gauss_rows (self : Impvfits) (sigmacut : option float64)
  (xaxis_v xfull : vec) (data_v : matrix) (sigma_beam_fft : bval)
  : res matrix :=
  g0 <- gauss_params sigmacut xaxis_v data_v ;;
  let g_ := replace_failed g0 in
  let g_a := map (col 0) g_ in
  let g_mn := map (col 1) g_ in
  let g_sig := map (col 2) g_ in
  g_deconv_sig <- deconv_sig g_sig sigma_beam_fft ;;
  g_deconv_a <- zero_division (map2 F64.mul g_a g_sig) g_deconv_sig ;;
  let g_deconv_mn := g_mn in
  mapM (deconv_row xfull g_a g_deconv_mn g_deconv_a g_deconv_sig)
       (seq 0 (nv self)).

(** ... and the change of units, up to the array that is reshaped and
    stored. *)
Definition gauss_solution (self : Impvfits) (sigmacut : option float64)
  (xaxis_v xfull : vec) (data_v : matrix) (res_off_v sigma_beam_fft : bval)
  : res matrix :=
  d_deconv <- gauss_rows self sigmacut xaxis_v xfull data_v sigma_beam_fft ;;
  to_flux_per_pixel self res_off_v d_deconv.

End GaussMode.

(** ** Complex numbers and the discrete Fourier transform (scipy.fft) *)

Module Cplx.

Definition zero : cplx := (f0, f0).
Definition of_real (x : float64) : cplx := (x, f0).

Definition add (z w : cplx) : cplx :=
  (fst z + fst w, snd z + snd w)%f64.

Definition mul (z w : cplx) : cplx :=
  (fst z * fst w - snd z * snd w, fst z * snd w + snd z * fst w)%f64.

Definition div (z w : cplx) : cplx :=
  let den := (fst w * fst w + snd w * snd w)%f64 in
  ((fst z * fst w + snd z * snd w) / den,
   (snd z * fst w - fst z * snd w) / den)%f64.

Definition abs (z : cplx) : float64 := F64.hypot (fst z) (snd z).

Definition sum (l : list cplx) : cplx := fold_left add l zero.

End Cplx.

(** [exp(sign * 2 pi i k n / N)] *)
Definition twiddle (sign : R) (k n N : nat) : cplx :=
  let th := (sign * (2 * PI * INR k * INR n / INR N))%R in
  (Fin (cos th), Fin (sin th)).

Definition dft (sign : R) (x : list cplx) : list cplx :=
  let N := length x in
  map (fun k =>
         Cplx.sum (map (fun p => Cplx.mul (snd p) (twiddle sign k (fst p) N))
                       (combine (seq 0 N) x)))
      (seq 0 N).

(** [fftn(a, axes=(1,))] and [ifftn(a, axes=(1,))] on one row. *)
Definition fft_row (x : list cplx) : list cplx := dft (-1) x.

Definition ifft_row (x : list cplx) : list cplx :=
  let n := Fin (INR (length x)) in
  map (fun z => (fst z / n, snd z / n)%f64) (dft 1 x).

(** [fftshift(a, axes=(1,))] on one row: a roll by [n // 2]. *)
Definition fftshift {A : Type} (x : list A) : list A :=
  let n := length x in
  skipn (n - n / 2) x ++ firstn (n - n / 2) x.

(** [fftfreq(n, d)]: [0, 1, ..., (n-1)//2, -(n//2), ..., -1] / (d n). *)
Definition fftfreq (n : nat) (d : float64) : vec :=
  let val := (f1 / (Fin (INR n) * d))%f64 in
  map (fun i =>
         let k := if (i <? (n - 1) / 2 + 1)%nat
                  then Z.of_nat i else (Z.of_nat i - Z.of_nat n)%Z in
         (Fin (IZR k) * val)%f64)
      (seq 0 n).

(** [scipy.signal.argrelmin(d)[0]]: strictly below both neighbours; the
    two ends are compared with themselves and never qualify. *)
Definition argrelmin (d : vec) : list nat :=
  filter (fun i =>
            (nth i d NaN <? nth (i - 1) d NaN)%f64
            && (nth i d NaN <? nth (i + 1) d NaN)%f64)
         (seq 1 (length d - 2)).

(** A Python slice [l[start:stop]] with integer bounds of either sign. *)
Definition py_slice {A : Type} (start stop : Z) (l : list A) : list A :=
  let n := Z.of_nat (length l) in
  let norm := fun i => if (i <? 0)%Z then Z.max 0 (i + n) else Z.min i n in
  let s := norm start in
  let e := norm stop in
  firstn (Z.to_nat (e - s)) (skipn (Z.to_nat s) l).

(** [np.nanargmin]: [nan] counts as [inf]; an all-[nan] array has none. *)
Definition nanargmin (v : vec) : res nat :=
  if forallb F64.isnan v then Raise ValueError
  else argmin (map (fun x => if F64.isnan x then PInf else x) v).

(** The value of an array used as a condition, or broadcast from a single
    element: only a scalar or a one-element array has one. *)
Definition bval_item (b : bval) : res float64 :=
  match b with
  | Scalar s => Ok s
  | Vector [s] => Ok s
  | Vector _ => Raise ValueError
  end.

(** [row[mask] = 0.+0.j] *)
Definition zero_where (mask : list bool) (row : list cplx)
  : res (list cplx) :=
  if (length mask =? length row)%nat
  then Ok (map2 (fun (b : bool) z => if b then Cplx.zero else z) mask row)
  else Raise IndexError.

Definition update_row {A : Type} (i : nat) (r : list A) (m : list (list A))
  : res (list (list A)) :=
  if (i <? length m)%nat then Ok (update_nth i r m) else Raise IndexError.

Section NumericModes.

Context {F : Fitfuncs}.

(** [beam[i, :] = g]: [g] fills a row of length [n], or is a single value
    repeated along it. *)
Definition assign_row (n : nat) (g : vec) : res vec :=
  if (length g =? n)%nat then Ok g
  else match g with
       | [x] => Ok (repeat x n)
       | _ => Raise ValueError
       end.

Definition normalize (b : vec) : vec :=
  map (fun v => (v / np_sum b)%f64) b.

(** The beam array of a multi-beam image: one normalised Gaussian per row
    of the beam table; rows the loop does not reach stay as [np.empty]
    left them. *)
Definition multibeam_profiles (self : Impvfits) (xfull : vec)
  (rows : list params) : res matrix :=
  filled <- mapM (fun p =>
                    let '(i, (bmaj, bmin, bpa)) := p in
                    let r := match pa self with
                             | Some p => get_1dresolution p bmaj bmin bpa
                             | None => bmaj
                             end in
                    if (i <? nv self)%nat then
                      row <- assign_row (nx self)
                               (gauss1d xfull f1 f0 (r / fwhm_factor)%f64) ;;
                      Ok (normalize row)
                    else Raise IndexError)
                 (combine (seq 0 (length rows)) rows) ;;
  Ok (filled ++ repeat (repeat uninit (nx self)) (nv self - length rows)).

Definition fft_rows (m : matrix) : list (list cplx) :=
  map (fun r => fftshift (fft_row (map Cplx.of_real r))) m.

(** One pass of the [nullcut] loop, for channel [i]. *)
Definition nullcut_step (self : Impvfits) (kx : vec) (kkx : matrix)
  (data_fft : list (list cplx)) (sigma_beam_fft : bval)
  (highfcut : option float64) (d_deconv_fft : list (list cplx)) (i : nat)
  : res (list (list cplx)) :=
  row_fft <- py_index data_fft i ;;
  let d_fft_1d := map Cplx.abs (skipn (nx self / 2) row_fft) in
  let kx_half := skipn (nx self / 2) kx in
  fx_null <- match argrelmin d_fft_1d with
             | first_null :: _ => py_index kx_half first_null
             | [] => py_index kx_half (length kx_half - 1)
             end ;;
  mask <- py_index (map (map (fun k => (F64.abs k >? fx_null)%f64)) kkx) 1 ;;
  row <- py_index d_deconv_fft i ;;
  row' <- zero_where mask row ;;
  d1 <- update_row i row' d_deconv_fft ;;
  match highfcut with
  | None => Ok d1
  | Some hf =>
      thr <- bval_item (bmap (fun s => (s * hf)%f64) sigma_beam_fft) ;;
      if (fx_null >? thr)%f64 then
        mask2 <- py_index (map (map (fun k => (F64.abs k >? thr)%f64)) kkx) 1 ;;
        row1 <- py_index d1 i ;;
        row2 <- zero_where mask2 row1 ;;
        update_row i row2 d1
      else Ok d1
  end.

Definition nullcut_filter (self : Impvfits) (kx : vec) (kkx : matrix)
  (data_fft : list (list cplx)) (sigma_beam_fft : bval)
  (highfcut : option float64) (d_deconv_fft : list (list cplx))
  : res (list (list cplx)) :=
  fold_left (fun acc i =>
               d <- acc ;;
               nullcut_step self kx kkx data_fft sigma_beam_fft highfcut d i)
            (seq 0 (nv self)) (Ok d_deconv_fft).

Definition highfcut_filter (kkx : matrix) (sigma_beam_fft : bval)
  (hf : float64) (d_deconv_fft : list (list cplx)) : res (list (list cplx)) :=
  mask <- mapM (fun krow =>
                  bcv (fun k s => (F64.abs k >? s)%f64) krow
                      (bmap (fun s => (s * hf)%f64) sigma_beam_fft))
               kkx ;;
  if (length mask =? length d_deconv_fft)%nat
  then mapM (fun p => zero_where (fst p) (snd p)) (combine mask d_deconv_fft)
  else Raise IndexError.

Definition trivial_response (kx : vec) : list cplx :=
  complexgauss1d kx f0 f0 f1 f0.

Definition get_gaussiansolution_fc (nx : nat) (kx : vec)
  (d_deconv_fft beam_fft : list cplx) : res (list cplx) :=
  let c := Z.of_nat (nx / 2) in
  if forallb (fun z => (Cplx.abs z ==? f0)%f64)
             (py_slice (c - 1) (c + 2) d_deconv_fft)
  then
    (* if total flux is zeros *)
    Ok (trivial_response kx)
  else
    (* initial estimate *)
    amp <- py_index d_deconv_fft (nx / 2) ;;
    let dwin := map Cplx.abs (py_slice (c - 5) (c + 6) d_deconv_fft) in
    let kwin := py_slice (c - 5) (c + 6) kx in
    num <- bc2 (fun d k => (d * square (k - f0))%f64) dwin kwin ;;
    let sigma := (nansum num / nansum dwin)%f64 in
    j <- nanargmin (map F64.abs kx) ;;
    z <- py_index d_deconv_fft j ;;
    let phase := F64.arctan2 (fst z) (snd z) in
    let pini := [Cplx.abs amp; f0; sigma; phase] in
    param_opt <- complexgaussfit kx d_deconv_fft
                   (map (Cplx.div (Cplx.of_real f1)) beam_fft) pini ;;
    if existsb F64.isnan param_opt then Ok (trivial_response kx)
    else match param_opt with
         | [a; mn; sg; ph] => Ok (complexgauss1d kx a mn sg ph)
         | _ => Raise TypeError
         end.

Definition gauss_fc_filter (self : Impvfits) (kx : vec)
  (d_deconv_fft beam_fft : list (list cplx)) : res (list (list cplx)) :=
  mapM (fun i =>
          d_i <- py_index d_deconv_fft i ;;
          b_i <- py_index beam_fft i ;;
          get_gaussiansolution_fc (nx self) kx d_i b_i)
       (seq 0 (nv self)).

Definition taper_profile (kx : vec) (sigma_beam_fft : bval) (hf : float64)
  : res vec :=
  match bmap (fun s => (s * hf)%f64) sigma_beam_fft with
  | Scalar s => Ok (gauss1d kx f1 f0 s)
  | Vector ss => bc2 (fun x s => gauss1d_pt x f1 f0 s) kx ss
  end.

Definition taper_filter (self : Impvfits) (kx : vec) (sigma_beam_fft : bval)
  (hf : float64) (d_deconv_fft : list (list cplx)) : res (list (list cplx)) :=
  _taper_beam <- taper_profile kx sigma_beam_fft hf ;;
  let taper_beam := repeat _taper_beam (nv self) in
  ibc2d (fun z t => Cplx.mul z (Cplx.of_real t)) d_deconv_fft taper_beam.

(** [np.abs(fftshift(ifftn(d, axes=(1,)), axes=(1,)))] *)
Definition magnitude_of_ifft (d_deconv_fft : list (list cplx)) : matrix :=
  map (fun row => map Cplx.abs (fftshift (ifft_row row))) d_deconv_fft.

End NumericModes.

(** ** beam_deconvolution *)

Definition tab : string := String (Ascii.ascii_of_nat 9) EmptyString.

Definition msg_naxis : string :=
  ("ERROR" ++ tab
   ++ "beam_deconvolution: number of fits axes must be 2 or 3.")%string.
Definition msg_resolution : string :=
  ("ERROR" ++ tab
   ++ "beam_deconvolution: angular resolution is not given correctly.")%string.
Definition msg_header : string :=
  ("ERROR" ++ tab
   ++ "beam_deconvolution: check the header of the input fits file.")%string.
Definition msg_highfcut : string :=
  ("ERROR" ++ tab
   ++ "beam_deconvolution: Give valid highfcut when solmode=highfcut.")%string.
Definition msg_taper : string :=
  ("ERROR" ++ tab
   ++ "beam_deconvolution: Give valid highfcut when solmode=taper.")%string.
Definition msg_solmode : string :=
  ("WARNING" ++ tab
   ++ "beam_deconvolution: Given solmode parameter is not valid.")%string.

(** [d.reshape(shape)] with [shape = (nv, nx)] or [(1, nv, nx)]. *)
Definition reshape (three_axes : bool) (nv nx : nat) (m : matrix)
  : res ndarray :=
  let flat := concat m in
  if (length flat =? nv * nx)%nat then
    let rows := map (fun i => slice (i * nx) (i * nx + nx) flat) (seq 0 nv) in
    Ok (if three_axes then A3 rows else A2 rows)
  else Raise ValueError.

Section Method.

Context {F : Fitfuncs}.

(** [self.data_deconv = d_deconv.reshape(shape)] *)
Definition store_result (three_axes : bool) (self : Impvfits) (d : matrix)
  : M retval :=
  arr <~ lift (reshape three_axes (nv self) (nx self) d) ;;
  l <~ alloc arr ;;
  _ <~ set_data_deconv l ;;
  ret RNone.

(** The beam array of the numerical modes; [None] when there is no
    resolution to build it from. *)
Definition beam_array (self : Impvfits) (xfull : vec) : option (res matrix) :=
  if multibeam self then
    Some match beam self with
         | BeamTable rows => multibeam_profiles self xfull rows
         | _ => Raise TypeError
         end
  else
    match res_off self with
    | Some r =>
        let _beam := normalize (gauss1d xfull f1 f0 (r / fwhm_factor)%f64) in
        Some (Ok (repeat _beam (nv self)))
    | None => None
    end.

Definition numerical_solution (three_axes : bool) (self : Impvfits)
  (highfcut : option float64) (solmode : string) (xfull : vec)
  (data_v : matrix) (sigma_beam_fft : bval) : M retval :=
  match beam_array self xfull with
  | None =>
      _ <~ print msg_resolution ;;
      _ <~ print msg_header ;;
      ret (RInt (-1))
  | Some rbeam =>
      beam_v <~ lift rbeam ;;
      (* FFT *)
      let kx := fftshift (fftfreq (nx self) (delx self)) in
      let kv := fftshift (fftfreq (nv self) (delv self)) in
      let kkx := repeat kx (length kv) in
      let beam_fft := fft_rows beam_v in
      let data_fft := fft_rows data_v in
      d_deconv_fft <~ lift (bc2d Cplx.div data_fft beam_fft) ;;
      let finish := fun d : list (list cplx) =>
        (* IFFT *)
        store_result three_axes self (magnitude_of_ifft d) in
      (* filter *)
      if (solmode =? "nullcut")%string then
        d <~ lift (nullcut_filter self kx kkx data_fft sigma_beam_fft
                     highfcut d_deconv_fft) ;;
        finish d
      else if (solmode =? "highfcut")%string then
        match highfcut with
        | None => _ <~ print msg_highfcut ;; ret (RInt (-1))
        | Some hf =>
            d <~ lift (highfcut_filter kkx sigma_beam_fft hf d_deconv_fft) ;;
            finish d
        end
      else if (solmode =? "gauss-fc")%string then
        d <~ lift (gauss_fc_filter self kx d_deconv_fft beam_fft) ;;
        finish d
      else if (solmode =? "taper")%string then
        match highfcut with
        | None => _ <~ print msg_taper ;; ret (RInt (-1))
        | Some hf =>
            d <~ lift (taper_filter self kx sigma_beam_fft hf d_deconv_fft) ;;
            finish d
        end
      else
        _ <~ print msg_solmode ;;
        ret (RInt 0)
  end.

Definition beam_deconvolution (self : Impvfits)
  (sigmacut highfcut : option float64) (solmode : string)
  (fit_xlim fit_vlim : list float64) : M retval :=
  (* check axis *)
  if ((naxis self =? 2) || (naxis self =? 3))%Z then
    let three_axes := (naxis self =? 3)%Z in
    (* data *)
    d_loc <~ np_copy (data self) ;;
    x_loc <~ np_copy (xaxis self) ;;
    x_arr <~ load x_loc ;;
    wx <~ lift (fit_window (as_vec x_arr) fit_xlim) ;;
    let '(w, xaxis_v) := wx in
    (* cut data less than given threshold *)
    _ <~ match sigmacut with
         | Some s =>
             if truthy sigmacut then
               a <~ load d_loc ;;
               store d_loc (with_contents a (clip_window s w (squeeze a)))
             else ret tt
         | None => ret tt
         end ;;
    d_arr <~ load d_loc ;;
    let data_v := slice_cols w (squeeze d_arr) in
    xfull_arr <~ load (xaxis self) ;;
    let xfull := as_vec xfull_arr in
    (* get one dimensional beam size for deconvolution *)
    r <~ lift (get_res_off self) ;;
    res_off_v <~ lift (require_number r) ;;
    let sigma_beam_fft := sigma_beam_fft_of res_off_v in
    if (solmode =? "gauss")%string then
      (* analytical solution *)
      d_deconv <~ lift (gauss_solution self sigmacut xaxis_v xfull data_v
                          res_off_v sigma_beam_fft) ;;
      store_result three_axes self d_deconv
    else
      (* numerical solutions *)
      numerical_solution three_axes self highfcut solmode xfull data_v
        sigma_beam_fft
  else
    _ <~ print msg_naxis ;;
    ret (RInt (-1)).

End Method.

(** ** Test images and test doubles for fitfuncs *)

(** A fitting module whose real-space fit answers [p] whatever the row,
    and whose Fourier-space fit answers the trivial response. *)
Definition constant_fit (p : params) : Fitfuncs := {|
  gaussfit := fun _ _ _ _ => Ok p;
  complexgauss1d := fun kx _ _ _ _ => map (fun _ => Cplx.zero) kx;
  complexgaussfit := fun _ _ _ _ => Ok [f0; f0; f1; f0];
  uninit := f0
|}.

(** A fitting module whose real-space fit does not converge. *)
Definition failing_fit : Fitfuncs := {|
  gaussfit := fun _ _ _ _ => Raise (FitError "no convergence");
  complexgauss1d := fun kx _ _ _ _ => map (fun _ => Cplx.zero) kx;
  complexgaussfit := fun _ _ _ _ => Raise (FitError "no convergence");
  uninit := f0
|}.

(** An image with [n] axes, two channels of [length offsets] samples,
    unit spacing and a round beam of resolution 1; its arrays are the
    first three of the heap. *)
Definition test_image (n : Z) (offsets : vec) : Impvfits := {|
  naxis := n;
  nv := 2;
  nx := length offsets;
  data := 0;
  xaxis := 1;
  vaxis := 2;
  delx := f1;
  delv := f1;
  multibeam := false;
  beam := SingleBeam f1 f1 f0;
  pa := None;
  res_off := Some f1
|}.

Definition test_state (rows : matrix) (offsets : vec) : pystate := {|
  heap := [A2 rows; A1 offsets; A1 [f0; f1]];
  stdout := [];
  data_deconv := None
|}.

(** The same image with a table of beams, one round beam of resolution 1
    per channel, and the position angle of the cut given. *)
Definition test_image_multibeam (n : Z) (offsets : vec) : Impvfits := {|
  naxis := n;
  nv := 2;
  nx := length offsets;
  data := 0;
  xaxis := 1;
  vaxis := 2;
  delx := f1;
  delv := f1;
  multibeam := true;
  beam := BeamTable [(f1, f1, f0); (f1, f1, f0)];
  pa := Some f0;
  res_off := Some f1
|}.

(** An image without beam information: no beam in the header, no
    resolution. *)
Definition test_image_no_beam (n : Z) (offsets : vec) : Impvfits := {|
  naxis := n;
  nv := 2;
  nx := length offsets;
  data := 0;
  xaxis := 1;
  vaxis := 2;
  delx := f1;
  delv := f1;
  multibeam := false;
  beam := NoBeam;
  pa := None;
  res_off := None
|}.

(** ** read_pvfits: the beam, the position angle and the resolution

    Lines 76 to 121 of [Impvfits.read_pvfits]: from the header, the table
    of beams and the argument [pa] to the attributes [beam], [pa] and
    [res_off].  The header is a list of cards with float values; the
    table has the five columns BMAJ, BMIN, BPA, CHAN and POL. *)

Inductive py_exn : Type :=
| KeyError (key : string)
| AttributeError
| PyTypeError
| PyValueError.

Inductive outcome (A : Type) : Type :=
| Returned (a : A)
| Raised (e : py_exn).

Arguments Returned {A} a.
Arguments Raised {A} e.

Definition obind {A B : Type} (m : outcome A) (k : A -> outcome B)
  : outcome B :=
  match m with
  | Returned a => k a
  | Raised e => Raised e
  end.

Notation "x <-- m ;; k" := (obind m (fun x => k))
  (at level 61, m at next level, right associativity).

Definition header : Type := list (string * float64).

(** ['KEY' in header] and the value of the card. *)
Fixpoint lookup (h : header) (key : string) : option float64 :=
  match h with
  | [] => None
  | (k, v) :: h' => if (k =? key)%string then Some v else lookup h' key
  end.

(** [header['KEY']] *)
Definition header_get (h : header) (key : string) : outcome float64 :=
  match lookup h key with
  | Some v => Returned v
  | None => Raised (KeyError key)
  end.

Definition beam_row : Type := (float64 * float64 * float64 * Z * Z)%type.

Definition row_params_of (r : beam_row) : params :=
  let '(bmaj, bmin, bpa, _, _) := r in (bmaj, bmin, bpa).

Definition row_bmaj (r : beam_row) : float64 := col 0 (row_params_of r).

(** [np.argmax]: the first maximum (of an array without [nan]). *)
Fixpoint argmax_from (i best : nat) (bv : float64) (v : vec) : nat :=
  match v with
  | [] => best
  | x :: v' =>
      if (bv <? x)%f64 then argmax_from (S i) i x v'
      else argmax_from (S i) best bv v'
  end.

(** [np.nanargmax]: [nan] counts as [-inf]; an empty or all-[nan] array
    has no maximum. *)
Definition nanargmax (v : vec) : outcome nat :=
  if forallb F64.isnan v then Raised PyValueError
  else
    match map (fun x => if F64.isnan x then NInf else x) v with
    | [] => Raised PyValueError
    | x :: v' => Returned (argmax_from 1 0 x v')
    end.

(** What is printed: a fixed text, or the line that shows the given
    position angle. *)
Inductive line : Type :=
| Text (s : string)
| InputPA (pa : float64).

Record beam_info : Type := {
  bi_beam : beam_t;
  bi_pa : option float64;
  bi_res_off : option float64
}.

(** [get_1dresolution(pa, ...)] with the argument [pa] as given:
    [None - bpa] is a [TypeError]. *)
Definition get_1dresolution_arg (pa : option float64)
  (bmaj bmin bpa : float64) : outcome float64 :=
  match pa with
  | Some p => Returned (get_1dresolution p bmaj bmin bpa)
  | None => Raised PyTypeError
  end.

Fixpoint omapM {A B : Type} (f : A -> outcome B) (l : list A)
  : outcome (list B) :=
  match l with
  | [] => Returned []
  | a :: l' => b <-- f a ;; bs <-- omapM f l' ;; Returned (b :: bs)
  end.

(** beam size: the attribute [beam] and the representative [bmaj] *)
Definition read_beam (multibeam : bool) (table : option (list beam_row))
  (h : header) : outcome (beam_t * option float64) :=
  if multibeam then
    match table with
    | None => Raised AttributeError
    | Some rows =>
        (* representative beam value, largest ones conservatively *)
        ichan <-- nanargmax (map row_bmaj rows) ;;
        Returned (BeamTable (map row_params_of rows),
                  Some (nth ichan (map row_bmaj rows) NaN))
    end
  else
    match lookup h "BMAJ" with
    | Some v =>
        let bmaj := (v * Fin 3600)%f64 in
        v_min <-- header_get h "BMIN" ;;
        let bmin := (v_min * Fin 3600)%f64 in
        bpa <-- header_get h "BPA" ;;
        Returned (SingleBeam bmaj bmin bpa, Some bmaj)
    | None => Returned (NoBeam, None)
    end.

(** Info. of P.A.: what is printed and the attribute [pa] *)
Definition read_pa (h : header) (pa : option float64)
  : list line * option float64 :=
  match pa with
  | Some p => ([InputPA p], Some p)
  | None =>
      match lookup h "PA" with
      | Some v => ([Text "read_pvfits: Read P.A. in header."], Some v)
      | None =>
          match lookup h "P.A." with
          | Some v => ([Text "read_pvfits: Read P.A. in header."], Some v)
          | None => ([Text "read_pvfits: No PA information is given."], None)
          end
      end
  end.

(** Resolution along offset axis; the calls of [get_1dresolution] take
    the argument [pa], not the attribute. *)
Definition read_res_off (multibeam : bool) (beam : beam_t)
  (bmaj : option float64) (self_pa pa : option float64)
  : outcome (option float64) :=
  match self_pa with
  | None => Returned bmaj
  | Some _ =>
      if multibeam then
        match beam with
        | BeamTable rows =>
            res_offs <-- omapM (fun r =>
                                  let '(bmaj, bmin, bpa) := r in
                                  get_1dresolution_arg pa bmaj bmin bpa)
                               rows ;;
            match nanmax res_offs with
            | Ok m => Returned (Some m)
            | Raise _ => Raised PyValueError
            end
        | _ => Raised PyTypeError
        end
      else
        match beam with
        | SingleBeam bmaj bmin bpa =>
            r <-- get_1dresolution_arg pa bmaj bmin bpa ;;
            Returned (Some r)
        | _ => Returned None
        end
  end.

Definition read_resolution (multibeam : bool)
  (table : option (list beam_row)) (h : header) (pa : option float64)
  : list line * outcome beam_info :=
  match read_beam multibeam table h with
  | Raised e => ([], Raised e)
  | Returned (beam, bmaj) =>
      let '(printed, self_pa) := read_pa h pa in
      (printed,
       r <-- read_res_off multibeam beam bmaj self_pa pa ;;
       Returned {| bi_beam := beam; bi_pa := self_pa; bi_res_off := r |})
  end.

(** ** Notions used in the statements *)

(** The radial width of the beam ellipse along a direction at angle [D]
    from its major axis, as the spec writes it. *)
Definition ellipse_width (D bmaj bmin : R) : R :=
  (1 / sqrt ((sin D / bmin) * (sin D / bmin) + (cos D / bmaj) * (cos D / bmaj)))%R.

(** [inv h0 dd0 st]: the arrays that existed when the call started ([h0])
    are still there, with the same contents, and [data_deconv] is what it
    was ([dd0]) or a reference to an array allocated since. *)
Definition inv (h0 : list ndarray) (dd0 : option loc) (st : pystate) : Prop :=
  firstn (length h0) (heap st) = h0
  /\ (data_deconv st = dd0
      \/ exists l, data_deconv st = Some l
                   /\ (length h0 <= l < length (heap st))%nat).

(** [framed h0 dd0 m Q]: [m] keeps the invariant, whatever it returns or
    raises, and a returned value satisfies [Q]. *)
Definition framed (h0 : list ndarray) (dd0 : option loc) {A : Type}
  (m : M A) (Q : A -> pystate -> Prop) : Prop :=
  forall st, inv h0 dd0 st ->
    inv h0 dd0 (fst (m st))
    /\ (length (heap st) <= length (heap (fst (m st))))%nat
    /\ forall a, snd (m st) = Ok a -> Q a (fst (m st)).

(** The width of the beam in Fourier space, as the spec writes it. *)
Definition beam_sigma_fft (r : R) : R := (sqrt (2 * ln 2) / (PI * r))%R.

(** The deconvolved width, as the spec writes it. *)
Definition deconvolved_width (sig r : R) : R :=
  (sqrt (Rmax ((2 * PI * sig) * (2 * PI * sig)
               - (1 / beam_sigma_fft r) * (1 / beam_sigma_fft r)) 0)
   / (2 * PI))%R.

(** One cell of [g_deconv_sig], as the code computes it. *)
Definition deconv_sig_pt (sig sigma : float64) : float64 :=
  (F64.sqrt
     (let v := (square (two_pi * sig) - square (f1 / sigma))%f64 in
      if (v <? f0)%f64 then f0 else v)
   / two_pi)%f64.

(** The resolution that channel [i] of [n] sees in a broadcast value. *)
Definition channel_value (b : bval) (n i : nat) (x : float64) : Prop :=
  match b with
  | Scalar s => x = s
  | Vector xs => length xs = n /\ nth_error xs i = Some x
  end.

(** The state [st] with the heap [h]. *)
Definition with_heap (st : pystate) (h : list ndarray) : pystate :=
  {| heap := h; stdout := stdout st; data_deconv := data_deconv st |}.

(** The copy of the data after the clipping by [sigmacut]. *)
Definition clipped_copy (a : ndarray) (sigmacut : option float64)
  (w : option (nat * nat)) : ndarray :=
  match sigmacut with
  | Some s =>
      if truthy sigmacut
      then with_contents a (clip_window s w (squeeze a))
      else a
  | None => a
  end.

(** A row that is entirely zero. *)
Definition all_zero (v : vec) : Prop := Forall (fun x => x = f0) v.

(** What the three passes of the replacement loop do to one row. *)
Definition replace_row (row : params) : params :=
  let r0 := if (col 0 row <? f0)%f64 || F64.isnan (col 0 row)
            then set_col 0 f0 row else row in
  let r1 := if (col 0 r0 <? f0)%f64 || F64.isnan (col 1 r0)
            then set_col 1 f0 r0 else r0 in
  if (col 0 r1 <? f0)%f64 || F64.isnan (col 2 r1)
  then set_col 2 f0 r1 else r1.

(** A resolution the deconvolution can work with: finite and not zero. *)
Definition usable (x : float64) : Prop := exists r, x = Fin r /\ r <> 0%R.

(** ... in every channel. *)
Definition usable_res (b : bval) : Prop :=
  match b with
  | Scalar x => usable x
  | Vector xs => Forall usable xs
  end.

(** A rectangular array with rows of [n] samples. *)
Definition uniform (n : nat) (m : matrix) : Prop :=
  Forall (fun row => length row = n) m.

(** [m] does not assign [data_deconv]. *)
Definition keeps_attr {A : Type} (m : M A) : Prop :=
  forall st, data_deconv (fst (m st)) = data_deconv st.

(** [m] does not assign [data_deconv] and does not complete the
    deconvolution: it raises, or returns an error code. *)
Definition no_result (m : M retval) : Prop :=
  forall st,
    data_deconv (fst (m st)) = data_deconv st /\ snd (m st) <> Ok RNone.

(** An image as [read_pvfits] leaves it: 2 or 3 axes, the arrays in the
    heap, [nv >= 2] channels of [nx >= 2] samples each, and an offset axis
    of [nx] samples. *)
Definition well_formed (self : Impvfits) (st : pystate) : Prop :=
  (naxis self = 2 \/ naxis self = 3)%Z
  /\ (data self < length (heap st))%nat
  /\ (xaxis self < length (heap st))%nat
  /\ (2 <= nv self)%nat /\ (2 <= nx self)%nat
  /\ length (squeeze (nth (data self) (heap st) (A1 []))) = nv self
  /\ uniform (nx self) (squeeze (nth (data self) (heap st) (A1 [])))
  /\ length (as_vec (nth (xaxis self) (heap st) (A1 []))) = nx self.

(** The fitting routine answers on every row (it may answer [nan]). *)
Definition fit_returns (F : Fitfuncs) : Prop :=
  forall x d e p, exists q, gaussfit x d e p = Ok q.

(** The same for arrays of any element type. *)
Definition rows_of_length {A} (n : nat) (m : list (list A)) : Prop :=
  Forall (fun row => length row = n) m.

(** The beam of a single-beam image, one row. *)
Definition single_beam (xfull : vec) (rho : float64) : vec :=
  normalize (gauss1d xfull f1 f0 (rho / fwhm_factor)%f64).

(** A finite complex number. *)
Definition fin (a b : R) : cplx := (Fin a, Fin b).

(** The steps of the taper mode on one row, as the code takes them and
    as the claim words them. *)
Definition shifted_spectrum (row : vec) : list cplx :=
  fftshift (fft_row (map Cplx.of_real row)).

Definition apply_taper (spectrum : list cplx) (taper : vec) : list cplx :=
  map2 (fun z t => Cplx.mul z (Cplx.of_real t)) spectrum taper.

Definition back_to_offsets (spectrum : list cplx) : vec :=
  map Cplx.abs (fftshift (ifft_row spectrum)).

(** The code: the spectrum of the row divided by the spectrum of the
    beam, then tapered. *)
Definition tapered_output (beam_row taper row : vec) : vec :=
  back_to_offsets
    (apply_taper
       (map2 Cplx.div (shifted_spectrum row) (shifted_spectrum beam_row))
       taper).

(** The claim: the undivided spectrum of the row, tapered. *)
Definition claimed_taper_output (taper row : vec) : vec :=
  back_to_offsets (apply_taper (shifted_spectrum row) taper).

(** The rows a mode reads when no window is given. *)
Definition rows_read (self : Impvfits) (sigmacut : option float64)
  (st : pystate) : matrix :=
  slice_cols None
    (squeeze (clipped_copy (nth (data self) (heap st) (A1 [])) sigmacut None)).

(** The taper of a single-beam image of resolution [rho]. *)
Definition taper_of (self : Impvfits) (rho hf : float64) : vec :=
  gauss1d (fftshift (fftfreq (nx self) (delx self))) f1 f0
    (fwhm_factor / (rho * np_pi * f2) * hf)%f64.

Definition is_first_min (l : list R) (k : nat) : Prop :=
  (k < length l)%nat
  /\ (forall j, (j < length l)%nat -> (nth k l 0 <= nth j l 0)%R)
  /\ (forall j, (j < k)%nat -> (nth k l 0 < nth j l 0)%R).

(** [ensures m Q]: when [m] returns a value, [Q] holds of it and of the
    state [m] ends in. *)
Definition ensures {A : Type} (m : M A) (Q : A -> pystate -> Prop) : Prop :=
  forall st st' a, m st = (st', Ok a) -> Q a st'.

(** What a call that returns [None] has stored: [data_deconv] refers to
    an array with the shape of the image, every cell of which has [P]. *)
Definition stored_result (self : Impvfits) (P : float64 -> Prop)
  (a : retval) (st' : pystate) : Prop :=
  a = RNone ->
  exists l rows,
    data_deconv st' = Some l
    /\ nth_error (heap st') l
       = Some (if (naxis self =? 3)%Z then A3 rows else A2 rows)
    /\ length rows = nv self
    /\ uniform (nx self) rows
    /\ Forall (Forall P) rows.

(** The modes that [beam_deconvolution] handles. *)
Definition handled_modes : list string :=
  ["gauss"; "nullcut"; "highfcut"; "gauss-fc"; "taper"]%string.

(** [m] appends to the printed text only lines that have [P]. *)
Definition prints {A : Type} (P : string -> Prop) (m : M A) : Prop :=
  forall st, exists out,
    stdout (fst (m st)) = stdout st ++ out /\ Forall P out.

(** The test of the window [fit_xlim = [x_lo, x_hi]] on one offset. *)
Definition in_window (x_lo x_hi x : float64) : bool :=
  (x >=? x_lo)%f64 && (x <? x_hi)%f64.

(** The cut of the [highfcut] mode on one row of the spectrum: the
    components at the frequencies [kx] beyond the threshold are set to
    zero, the others are kept. *)
Definition apply_cut (kx : vec) (thr : float64) (spectrum : list cplx)
  : list cplx :=
  map2 (fun k z => if (F64.abs k >? thr)%f64 then Cplx.zero else z)
       kx spectrum.

(** The frequencies of the offset axis, in the order the code holds them. *)
Definition kx_of (self : Impvfits) : vec :=
  fftshift (fftfreq (nx self) (delx self)).

(** The threshold of a single-beam image of resolution [rho]. *)
Definition cutoff_of (rho hf : float64) : float64 :=
  (fwhm_factor / (rho * np_pi * f2) * hf)%f64.

(** One row of the result of the [highfcut] mode. *)
Definition lowpass_output (beam_row kx : vec) (thr : float64) (row : vec)
  : vec :=
  back_to_offsets
    (apply_cut kx thr
       (map2 Cplx.div (shifted_spectrum row) (shifted_spectrum beam_row))).

(** The area of the beam of resolution [r], in pixels of the offset
    axis. *)
Definition beam_area_in_pixels (self : Impvfits) (r : float64) : float64 :=
  (F64.sqrt two_pi * r / fwhm_factor / delx self)%f64.

(** The resolution of channel [r] along a cut at position angle [p]. *)
Definition channel_resolution (p : float64) (r : beam_row) : float64 :=
  let '(bmaj, bmin, bpa) := row_params_of r in
  get_1dresolution p bmaj bmin bpa.

(* ================================================================== *)
(** * Part II: properties *)
(* ================================================================== *)

(** ** Evaluating float64 operations on finite values *)

Arguments F64.Rltb : simpl never.
Arguments F64.Rleb : simpl never.
Arguments F64.Reqb : simpl never.

Lemma Rltb_true (a b : R) : (a < b)%R -> F64.Rltb a b = true.
Proof. intros H. unfold F64.Rltb. destruct (Rlt_dec a b); [reflexivity | contradiction]. Qed.

Lemma Rltb_false (a b : R) : (b <= a)%R -> F64.Rltb a b = false.
Proof. intros H. unfold F64.Rltb. destruct (Rlt_dec a b); [lra | reflexivity]. Qed.

Lemma Reqb_true (a b : R) : a = b -> F64.Reqb a b = true.
Proof. intros H. unfold F64.Reqb. destruct (Req_dec_T a b); [reflexivity | contradiction]. Qed.

Lemma Reqb_false (a b : R) : a <> b -> F64.Reqb a b = false.
Proof. intros H. unfold F64.Reqb. destruct (Req_dec_T a b); [contradiction | reflexivity]. Qed.

Lemma Reqb_refl (a : R) : F64.Reqb a a = true.
Proof. now apply Reqb_true. Qed.

Lemma Rltb_irrefl (a : R) : F64.Rltb a a = false.
Proof. apply Rltb_false. lra. Qed.

(** Decide the comparisons of a closed computation on finite values. *)
Ltac rdec1 :=
  match goal with
  | |- context [F64.Rltb ?a ?b] =>
      first [rewrite (Rltb_true a b) by lra | rewrite (Rltb_false a b) by lra]
  | |- context [F64.Reqb ?a ?b] =>
      first [rewrite (Reqb_true a b) by lra | rewrite (Reqb_false a b) by lra]
  end.

Ltac feval :=
  repeat (cbn; unfold f0, f1, f2, F64.geb, F64.leb, F64.gtb, F64.neb;
          try rdec1).

Lemma div_fin (a b : R) : b <> 0%R -> (Fin a / Fin b)%f64 = Fin (a / b).
Proof. intros H. simpl. now rewrite Reqb_false. Qed.

Lemma sqrt_fin (a : R) : (0 <= a)%R -> F64.sqrt (Fin a) = Fin (sqrt a).
Proof. intros H. simpl. now rewrite Rltb_false. Qed.

(** ** The one-dimensional resolution *)

Lemma ellipse_radicand_pos (D bmaj bmin : R) :
  (0 < bmin)%R -> (0 < bmaj)%R ->
  (0 < (sin D / bmin) * (sin D / bmin) + (cos D / bmaj) * (cos D / bmaj))%R.
Proof.
  intros Hmin Hmaj.
  pose proof (sin2_cos2 D) as Hsc. unfold Rsqr in Hsc.
  assert (Hs : (0 <= (sin D / bmin) * (sin D / bmin))%R) by nra.
  assert (Hc : (0 <= (cos D / bmaj) * (cos D / bmaj))%R) by nra.
  destruct (Req_dec_T (sin D) 0) as [Hz | Hnz].
  - assert (Hcos : (cos D * cos D = 1)%R) by nra.
    assert (Hq : ((cos D / bmaj) * (cos D / bmaj) = 1 / (bmaj * bmaj))%R).
    { field_simplify_eq; [nra | lra]. }
    assert (0 < 1 / (bmaj * bmaj))%R.
    { apply Rdiv_lt_0_compat; nra. }
    lra.
  - assert (Hq : ((sin D / bmin) * (sin D / bmin)
                  = (sin D * sin D) / (bmin * bmin))%R).
    { field. lra. }
    assert (0 < (sin D * sin D) / (bmin * bmin))%R.
    { apply Rdiv_lt_0_compat; nra. }
    lra.
Qed.

Lemma get_1dresolution_fin (pa bmaj bmin bpa : R) :
  (0 < bmin)%R -> (0 < bmaj)%R ->
  get_1dresolution (Fin pa) (Fin bmaj) (Fin bmin) (Fin bpa)
  = Fin (ellipse_width ((pa - bpa) * (PI / 180)) bmaj bmin).
Proof.
  intros Hmin Hmaj.
  unfold get_1dresolution, np_radians, ellipse_width, f1.
  cbn [F64.sub F64.neg F64.add F64.mul F64.sin F64.cos].
  rewrite !div_fin by lra.
  cbn [F64.hypot].
  replace (pa + - bpa)%R with (pa - bpa)%R by lra.
  rewrite div_fin; [reflexivity |].
  apply Rgt_not_eq, sqrt_lt_R0, ellipse_radicand_pos; assumption.
Qed.

(** C5.  For a beam with [bmaj >= bmin > 0], the resolution along the cut
    is the radial width of the beam ellipse,
    [1 / hypot(sin D / bmin, cos D / bmaj)] with [D = radians (pa - bpa)];
    it is [bmaj] along the beam's major axis ([pa = bpa]), [bmin] across it
    ([pa = bpa + 90]), and does not change when [pa] is turned by 180
    degrees. *)
Theorem get_1dresolution_projection (pa bmaj bmin bpa : R) :
  (0 < bmin)%R -> (bmin <= bmaj)%R ->
  get_1dresolution (Fin pa) (Fin bmaj) (Fin bmin) (Fin bpa)
    = Fin (ellipse_width ((pa - bpa) * (PI / 180)) bmaj bmin)
  /\ get_1dresolution (Fin bpa) (Fin bmaj) (Fin bmin) (Fin bpa) = Fin bmaj
  /\ get_1dresolution (Fin (bpa + 90)) (Fin bmaj) (Fin bmin) (Fin bpa)
       = Fin bmin
  /\ get_1dresolution (Fin (pa + 180)) (Fin bmaj) (Fin bmin) (Fin bpa)
       = get_1dresolution (Fin pa) (Fin bmaj) (Fin bmin) (Fin bpa).
Proof.
  intros Hmin Hle.
  assert (Hmaj : (0 < bmaj)%R) by lra.
  repeat split.
  - now apply get_1dresolution_fin.
  - rewrite get_1dresolution_fin by assumption. f_equal.
    unfold ellipse_width.
    replace ((bpa - bpa) * (PI / 180))%R with 0%R by lra.
    rewrite sin_0, cos_0.
    replace (0 / bmin * (0 / bmin) + 1 / bmaj * (1 / bmaj))%R
      with ((1 / bmaj) * (1 / bmaj))%R by (field; lra).
    rewrite sqrt_square.
    + field. lra.
    + apply Rlt_le, Rdiv_lt_0_compat; lra.
  - rewrite get_1dresolution_fin by assumption. f_equal.
    unfold ellipse_width.
    replace ((bpa + 90 - bpa) * (PI / 180))%R with (PI / 2)%R by lra.
    rewrite sin_PI2, cos_PI2.
    replace (1 / bmin * (1 / bmin) + 0 / bmaj * (0 / bmaj))%R
      with ((1 / bmin) * (1 / bmin))%R by (field; lra).
    rewrite sqrt_square.
    + field. lra.
    + apply Rlt_le, Rdiv_lt_0_compat; lra.
  - rewrite !get_1dresolution_fin by assumption. f_equal.
    unfold ellipse_width.
    replace ((pa + 180 - bpa) * (PI / 180))%R
      with ((pa - bpa) * (PI / 180) + PI)%R by (field; lra).
    rewrite neg_sin, neg_cos.
    f_equal. f_equal. field. lra.
Qed.

Lemma get_1dresolution_projection_witness :
  (0 < 1)%R /\ (1 <= 2)%R
  /\ get_1dresolution (Fin 30) (Fin 2) (Fin 1) (Fin 30) = Fin 2.
Proof.
  split; [lra | split; [lra |]].
  apply (get_1dresolution_projection 30%R 2%R 1%R 30%R); lra.
Defined.

(** ** Frame reasoning for the state monad *)

Lemma inv_length h0 dd0 st : inv h0 dd0 st -> (length h0 <= length (heap st))%nat.
Proof.
  intros [H _]. rewrite <- H at 1. rewrite length_firstn. lia.
Qed.

Lemma framed_weaken h0 dd0 {A} (m : M A) (Q Q' : A -> pystate -> Prop) :
  framed h0 dd0 m Q -> (forall a st, Q a st -> Q' a st) -> framed h0 dd0 m Q'.
Proof.
  intros Hm HQ st Hst. destruct (Hm st Hst) as (H1 & H2 & H3).
  split; [assumption | split; [assumption |]].
  intros a Ha. apply HQ, H3, Ha.
Qed.

Lemma framed_ret h0 dd0 {A} (a : A) :
  framed h0 dd0 (ret a) (fun x _ => x = a).
Proof.
  intros st Hst. cbn.
  split; [exact Hst | split; [lia |]].
  intros b Hb. now inversion Hb.
Qed.

Lemma framed_lift h0 dd0 {A} (r : res A) :
  framed h0 dd0 (lift r) (fun _ _ => True).
Proof. intros st Hst. cbn. split; [exact Hst | split; [lia | trivial]]. Qed.

Lemma framed_bind h0 dd0 {A B} (m : M A) (k : A -> M B)
  (Q : A -> pystate -> Prop) (R : B -> pystate -> Prop) :
  framed h0 dd0 m Q ->
  (forall a, framed h0 dd0 (k a) (fun b st => R b st)) ->
  framed h0 dd0 (bind m k) R.
Proof.
  intros Hm Hk st Hst. unfold bind.
  destruct (Hm st Hst) as (H1 & H2 & H3).
  destruct (m st) as [st1 [a | e]]; cbn in *.
  - destruct (Hk a st1 H1) as (K1 & K2 & K3).
    split; [exact K1 | split; [lia | exact K3]].
  - split; [exact H1 | split; [lia |]]. intros b Hb. discriminate.
Qed.

(** The continuation may use what the first computation established. *)
Lemma framed_bind_post h0 dd0 {A B} (m : M A) (k : A -> M B)
  (Q : A -> pystate -> Prop) (R : B -> pystate -> Prop) :
  framed h0 dd0 m Q ->
  (forall a st1, Q a st1 -> inv h0 dd0 st1 ->
     inv h0 dd0 (fst (k a st1))
     /\ (length (heap st1) <= length (heap (fst (k a st1))))%nat
     /\ forall b, snd (k a st1) = Ok b -> R b (fst (k a st1))) ->
  framed h0 dd0 (bind m k) R.
Proof.
  intros Hm Hk st Hst. unfold bind.
  destruct (Hm st Hst) as (H1 & H2 & H3).
  destruct (m st) as [st1 [a | e]]; cbn in *.
  - destruct (Hk a st1 (H3 a eq_refl) H1) as (K1 & K2 & K3).
    split; [exact K1 | split; [lia | exact K3]].
  - split; [exact H1 | split; [lia |]]. intros b Hb. discriminate.
Qed.

Lemma framed_load h0 dd0 (l : loc) :
  framed h0 dd0 (load l) (fun _ _ => True).
Proof. intros st Hst. cbn. split; [exact Hst | split; [lia | trivial]]. Qed.

Lemma firstn_app_le {A} (n : nat) (l1 l2 : list A) :
  (n <= length l1)%nat -> firstn n (l1 ++ l2) = firstn n l1.
Proof.
  intros H. rewrite firstn_app.
  replace (n - length l1)%nat with 0%nat by lia.
  cbn. now rewrite app_nil_r.
Qed.

Lemma framed_alloc h0 dd0 (a : ndarray) :
  framed h0 dd0 (alloc a)
    (fun l st => (length h0 <= l < length (heap st))%nat).
Proof.
  intros st Hst. pose proof (inv_length h0 dd0 st Hst) as Hlen.
  destruct Hst as [Hh Hd]. unfold alloc, inv. cbn. rewrite length_app. cbn.
  split; [split | split].
  - now rewrite firstn_app_le.
  - destruct Hd as [Hd | (l & Hl & Hr)]; [now left | right].
    exists l. split; [assumption | lia].
  - lia.
  - intros l Hl. inversion Hl; subst. lia.
Qed.

Lemma length_update_nth {A} (l : nat) (a : A) (h : list A) :
  length (update_nth l a h) = length h.
Proof.
  revert l. induction h as [| b h IH]; intros [| l]; cbn; auto.
Qed.

Lemma firstn_update_nth {A} (n l : nat) (a : A) (h : list A) :
  (n <= l)%nat -> firstn n (update_nth l a h) = firstn n h.
Proof.
  revert n l. induction h as [| b h IH]; intros n l Hle.
  - destruct l; reflexivity.
  - destruct l as [| l].
    + assert (n = 0%nat) by lia. subst. reflexivity.
    + destruct n as [| n]; [reflexivity |]. cbn. f_equal. apply IH. lia.
Qed.

Lemma framed_store h0 dd0 (l : loc) (a : ndarray) :
  (length h0 <= l)%nat ->
  framed h0 dd0 (store l a) (fun _ _ => True).
Proof.
  intros Hl st [Hh Hd]. unfold store, inv. cbn. rewrite length_update_nth.
  split; [split | split; [lia | trivial]].
  - now rewrite firstn_update_nth.
  - exact Hd.
Qed.

Lemma framed_print h0 dd0 (s : string) :
  framed h0 dd0 (print s) (fun _ _ => True).
Proof.
  intros st [Hh Hd]. unfold print, inv. cbn.
  split; [split; assumption | split; [lia | trivial]].
Qed.

Lemma framed_set_data_deconv h0 dd0 (l : loc) :
  forall st, inv h0 dd0 st -> (length h0 <= l < length (heap st))%nat ->
    inv h0 dd0 (fst (set_data_deconv l st))
    /\ (length (heap st) <= length (heap (fst (set_data_deconv l st))))%nat.
Proof.
  intros st [Hh Hd] Hl. unfold set_data_deconv, inv. cbn.
  split; [split; [assumption |] | lia].
  right. exists l. auto.
Qed.

Lemma framed_bind_pure h0 dd0 {A B} (m : M A) (k : A -> M B)
  (P : A -> Prop) (R : B -> pystate -> Prop) :
  framed h0 dd0 m (fun a _ => P a) ->
  (forall a, P a -> framed h0 dd0 (k a) R) ->
  framed h0 dd0 (bind m k) R.
Proof.
  intros Hm Hk. eapply framed_bind_post; [exact Hm |].
  intros a st1 Ha Hinv. exact (Hk a Ha st1 Hinv).
Qed.

Lemma framed_np_copy h0 dd0 (l : loc) :
  framed h0 dd0 (np_copy l) (fun l' _ => (length h0 <= l')%nat).
Proof.
  unfold np_copy. eapply framed_bind; [apply framed_load |].
  intros a. eapply framed_weaken; [apply framed_alloc |].
  cbn. intros; lia.
Qed.

Section FrameOfMethod.

Context {F : Fitfuncs}.

Lemma framed_store_result h0 dd0 (three_axes : bool) (self : Impvfits)
  (d : matrix) :
  framed h0 dd0 (store_result three_axes self d) (fun _ _ => True).
Proof.
  unfold store_result.
  eapply framed_bind; [apply framed_lift |]. intros arr.
  eapply framed_bind_post; [apply framed_alloc |].
  intros l st1 Hl Hinv.
  destruct (framed_set_data_deconv h0 dd0 l st1 Hinv Hl) as [H1 H2].
  unfold bind, ret. cbn in *.
  split; [exact H1 | split; [exact H2 | trivial]].
Qed.

Lemma framed_numerical_solution h0 dd0 three_axes self highfcut solmode
  xfull data_v sigma_beam_fft :
  framed h0 dd0
    (numerical_solution three_axes self highfcut solmode xfull data_v
       sigma_beam_fft)
    (fun _ _ => True).
Proof.
  unfold numerical_solution.
  destruct (beam_array self xfull) as [rbeam |].
  - eapply framed_bind; [apply framed_lift |]. intros beam_v.
    eapply framed_bind; [apply framed_lift |]. intros d_deconv_fft.
    repeat match goal with
           | |- framed _ _ (if ?c then _ else _) _ => destruct c
           | |- framed _ _ (match ?o with Some _ => _ | None => _ end) _ =>
               destruct o
           | |- framed _ _ (bind (lift _) _) _ =>
               eapply framed_bind; [apply framed_lift | intros ?]
           | |- framed _ _ (bind (print _) _) _ =>
               eapply framed_bind; [apply framed_print | intros ?]
           | |- framed _ _ (store_result _ _ _) _ => apply framed_store_result
           | |- framed _ _ (ret _) _ =>
               eapply framed_weaken; [apply framed_ret | trivial]
           end.
  - eapply framed_bind; [apply framed_print |]. intros _.
    eapply framed_bind; [apply framed_print |]. intros _.
    eapply framed_weaken; [apply framed_ret | trivial].
Qed.

Lemma framed_beam_deconvolution h0 dd0 self sigmacut highfcut solmode
  fit_xlim fit_vlim :
  framed h0 dd0
    (beam_deconvolution self sigmacut highfcut solmode fit_xlim fit_vlim)
    (fun _ _ => True).
Proof.
  unfold beam_deconvolution.
  destruct ((naxis self =? 2) || (naxis self =? 3))%Z.
  - eapply framed_bind_pure; [apply framed_np_copy |]. intros d_loc Hd.
    eapply framed_bind; [apply framed_np_copy |]. intros x_loc.
    eapply framed_bind; [apply framed_load |]. intros x_arr.
    eapply framed_bind; [apply framed_lift |]. intros [w xaxis_v].
    eapply framed_bind with (Q := fun _ _ => True).
    { destruct sigmacut as [s |].
      - destruct (truthy (Some s)).
        + eapply framed_bind; [apply framed_load |]. intros a.
          now apply framed_store.
        + eapply framed_weaken; [apply framed_ret | trivial].
      - eapply framed_weaken; [apply framed_ret | trivial]. }
    intros _.
    eapply framed_bind; [apply framed_load |]. intros d_arr.
    eapply framed_bind; [apply framed_load |]. intros xfull_arr.
    eapply framed_bind; [apply framed_lift |]. intros r.
    eapply framed_bind; [apply framed_lift |]. intros res_off_v.
    destruct (solmode =? "gauss")%string.
    + eapply framed_bind; [apply framed_lift |]. intros d_deconv.
      apply framed_store_result.
    + apply framed_numerical_solution.
  - eapply framed_bind; [apply framed_print |]. intros _.
    eapply framed_weaken; [apply framed_ret | trivial].
Qed.

Lemma inv_initial (st : pystate) : inv (heap st) (data_deconv st) st.
Proof.
  split; [apply firstn_all | now left].
Qed.

Lemma nth_error_firstn_same {A} (n l : nat) (h h' : list A) :
  firstn n h' = firstn n h -> (l < n)%nat -> nth_error h' l = nth_error h l.
Proof.
  revert l h h'. induction n as [| n IH]; intros l h h' H Hl; [lia |].
  destruct h as [| b h], h' as [| b' h']; cbn in H; try discriminate.
  - reflexivity.
  - inversion H; subst. destruct l as [| l]; cbn; [reflexivity |].
    apply IH; [assumption | lia].
Qed.

(** C9.  A call leaves every array that existed before it as it was: in
    particular the data array and the two axes of the image (the clipping
    by [sigmacut] and the window of [fit_xlim] act on a copy).  The heap
    only grows, and [data_deconv] is either untouched or refers to an array
    allocated during the call.  This holds for every mode and every
    argument, whether the call returns or raises. *)
Theorem beam_deconvolution_frame (self : Impvfits)
  (sigmacut highfcut : option float64) (solmode : string)
  (fit_xlim fit_vlim : list float64) (st : pystate) :
  let st' := fst (beam_deconvolution self sigmacut highfcut solmode
                    fit_xlim fit_vlim st) in
  (forall l, (l < length (heap st))%nat ->
     nth_error (heap st') l = nth_error (heap st) l)
  /\ (length (heap st) <= length (heap st'))%nat
  /\ (data_deconv st' = data_deconv st
      \/ exists l, data_deconv st' = Some l
                   /\ (length (heap st) <= l < length (heap st'))%nat).
Proof.
  intros st'.
  destruct (framed_beam_deconvolution (heap st) (data_deconv st) self sigmacut
              highfcut solmode fit_xlim fit_vlim st (inv_initial st))
    as ([Hh Hd] & Hlen & _).
  fold st' in Hh, Hd, Hlen.
  split; [| split; assumption].
  intros l Hl.
  apply nth_error_firstn_same with (n := length (heap st)); [| exact Hl].
  rewrite Hh. symmetry. apply firstn_all.
Qed.

End FrameOfMethod.

(** ** The check on the number of axes *)

Lemma naxis_check_fails (n : Z) :
  n <> 2%Z -> n <> 3%Z -> ((n =? 2) || (n =? 3))%Z = false.
Proof.
  intros H2 H3. apply Z.eqb_neq in H2, H3. now rewrite H2, H3.
Qed.

Section AxisCheck.

Context {F : Fitfuncs}.

(** C8.  When the image has neither 2 nor 3 axes the call prints the
    error about the number of axes and returns -1, for every mode and
    every argument; the heap and [data_deconv] are exactly as before, so
    no deconvolved array, not even a partial one, is stored. *)
Theorem beam_deconvolution_invalid_naxis (self : Impvfits)
  (sigmacut highfcut : option float64) (solmode : string)
  (fit_xlim fit_vlim : list float64) (st : pystate) :
  naxis self <> 2%Z -> naxis self <> 3%Z ->
  beam_deconvolution self sigmacut highfcut solmode fit_xlim fit_vlim st
  = ({| heap := heap st;
        stdout := stdout st ++ [msg_naxis];
        data_deconv := data_deconv st |},
     Ok (RInt (-1))).
Proof.
  intros H2 H3. unfold beam_deconvolution.
  rewrite (naxis_check_fails (naxis self) H2 H3).
  unfold bind, print, ret. reflexivity.
Qed.

End AxisCheck.

Lemma beam_deconvolution_invalid_naxis_witness :
  beam_deconvolution (F := constant_fit (f1, f0, f1))
    (test_image 4 [f0; f1]) None (Some f2) "gauss" [] []
    (test_state [[f0; f1]; [f1; f0]] [f0; f1])
  = ({| heap := [A2 [[f0; f1]; [f1; f0]]; A1 [f0; f1]; A1 [f0; f1]];
        stdout := [msg_naxis];
        data_deconv := None |},
     Ok (RInt (-1))).
Proof.
  apply (beam_deconvolution_invalid_naxis (F := constant_fit (f1, f0, f1))
           (test_image 4 [f0; f1]) None (Some f2) "gauss" [] []
           (test_state [[f0; f1]; [f1; f0]] [f0; f1]));
    cbn; discriminate.
Defined.

(** ** The deconvolved width *)

Lemma ln2_pos : (0 < ln 2)%R.
Proof. pose proof ln_lt_2. lra. Qed.

Lemma sqrt_2ln2_pos : (0 < sqrt (2 * ln 2))%R.
Proof. apply sqrt_lt_R0. pose proof ln2_pos. lra. Qed.

Lemma fwhm_factor_fin : fwhm_factor = Fin (2 * sqrt (2 * ln 2)).
Proof.
  unfold fwhm_factor, f2, np_log2. cbn [F64.mul].
  rewrite sqrt_fin by (pose proof ln2_pos; lra). reflexivity.
Qed.

Lemma two_pi_fin : two_pi = Fin (2 * PI).
Proof. reflexivity. Qed.

Lemma beam_sigma_fft_neq_0 (r : R) : r <> 0%R -> beam_sigma_fft r <> 0%R.
Proof.
  intros Hr. unfold beam_sigma_fft.
  pose proof sqrt_2ln2_pos. pose proof PI_RGT_0.
  intros Hz. apply (f_equal (fun x => x * (PI * r))%R) in Hz.
  field_simplify in Hz; [| split; lra]. nra.
Qed.

Lemma sigma_beam_fft_fin (r : R) :
  r <> 0%R ->
  (fwhm_factor / (Fin r * np_pi * f2))%f64 = Fin (beam_sigma_fft r).
Proof.
  intros Hr. rewrite fwhm_factor_fin. unfold np_pi, f2. cbn [F64.mul].
  pose proof PI_RGT_0.
  rewrite div_fin by nra.
  f_equal. unfold beam_sigma_fft. field. split; lra.
Qed.

Lemma deconv_sig_scalar (g_sig : vec) (sigma : float64) :
  deconv_sig g_sig (Scalar sigma)
  = Ok (map (fun s => deconv_sig_pt s sigma) g_sig).
Proof.
  unfold deconv_sig, deconv_sig2. cbn. rewrite !map_map. reflexivity.
Qed.

Lemma deconv_sig_vector (g_sig sigmas : vec) :
  length sigmas = length g_sig ->
  deconv_sig g_sig (Vector sigmas) = Ok (map2 deconv_sig_pt g_sig sigmas).
Proof.
  intros Hlen. unfold deconv_sig, deconv_sig2. cbn. unfold bc2.
  rewrite !length_map, Hlen, Nat.eqb_refl. cbn.
  f_equal. unfold map2. rewrite !map_map.
  revert sigmas Hlen.
  induction g_sig as [| s g IH]; intros [| x xs] Hlen; cbn in *;
    try discriminate; [reflexivity |].
  f_equal. apply IH. lia.
Qed.

Lemma deconv_sig_pt_fin (s r : R) :
  r <> 0%R ->
  deconv_sig_pt (Fin s) (fwhm_factor / (Fin r * np_pi * f2))%f64
  = Fin (deconvolved_width s r).
Proof.
  intros Hr. rewrite sigma_beam_fft_fin by assumption.
  pose proof (beam_sigma_fft_neq_0 r Hr) as Hsig.
  pose proof PI_RGT_0 as Hpi.
  unfold deconv_sig_pt, square, f1. rewrite two_pi_fin.
  rewrite div_fin by assumption.
  cbn [F64.mul F64.sub F64.neg F64.add].
  set (v := (2 * PI * s * (2 * PI * s)
             + - (1 / beam_sigma_fft r * (1 / beam_sigma_fft r)))%R).
  unfold deconvolved_width.
  replace (2 * PI * s * (2 * PI * s)
           - 1 / beam_sigma_fft r * (1 / beam_sigma_fft r))%R with v
    by (unfold v; lra).
  unfold f0. cbn [F64.ltb].
  destruct (Rlt_dec v 0) as [Hneg | Hpos].
  - rewrite Rltb_true by assumption.
    rewrite sqrt_fin by lra. rewrite div_fin by lra.
    rewrite Rmax_right by lra. reflexivity.
  - rewrite Rltb_false by lra.
    rewrite sqrt_fin by lra. rewrite div_fin by lra.
    rewrite Rmax_left by lra. reflexivity.
Qed.

Lemma deconvolved_width_nonneg (s r : R) : (0 <= deconvolved_width s r)%R.
Proof.
  unfold deconvolved_width. pose proof PI_RGT_0.
  apply Rmult_le_pos; [apply sqrt_pos |].
  apply Rlt_le, Rinv_0_lt_compat. lra.
Qed.

Lemma nth_error_map2 {A B C} (f : A -> B -> C) (xs : list A) (ys : list B)
  (i : nat) (a : A) (b : B) :
  nth_error xs i = Some a -> nth_error ys i = Some b ->
  nth_error (map2 f xs ys) i = Some (f a b).
Proof.
  revert ys i. induction xs as [| x xs IH]; intros [| y ys] [| i] Ha Hb;
    cbn in *; try discriminate.
  - now inversion Ha; inversion Hb.
  - now apply IH.
Qed.

Lemma Rltb_false_inv (a b : R) : F64.Rltb a b = false -> (b <= a)%R.
Proof.
  unfold F64.Rltb. destruct (Rlt_dec a b); [discriminate | lra].
Qed.

(** Whatever the variance, finite or not: after the clip, the square root
    and the division by [2 pi], the width is not below zero. *)
Lemma clipped_width_not_negative (v : float64) :
  (F64.sqrt (if (v <? f0)%f64 then f0 else v) / two_pi <? f0)%f64 = false.
Proof.
  pose proof PI_RGT_0 as Hpi.
  assert (Hfin : forall x, (0 <= x)%R ->
            (F64.sqrt (Fin x) / two_pi <? f0)%f64 = false).
  { intros x Hx. rewrite sqrt_fin by assumption. rewrite two_pi_fin.
    rewrite div_fin by lra. unfold f0. cbn [F64.ltb].
    apply Rltb_false. apply Rmult_le_pos; [apply sqrt_pos |].
    apply Rlt_le, Rinv_0_lt_compat. lra. }
  destruct (v <? f0)%f64 eqn:E.
  - apply Hfin. lra.
  - destruct v as [x | | |].
    + apply Hfin. unfold f0 in E. cbn [F64.ltb] in E.
      now apply Rltb_false_inv.
    + rewrite two_pi_fin. cbn [F64.sqrt F64.div].
      rewrite Rltb_false by lra. reflexivity.
    + discriminate.
    + reflexivity.
Qed.

Lemma deconv_sig_not_negative (g_sig : vec) (sigma_beam_fft : bval) (ds : vec) :
  deconv_sig g_sig sigma_beam_fft = Ok ds ->
  Forall (fun d => (d <? f0)%f64 = false) ds.
Proof.
  unfold deconv_sig, deconv_sig2. intros H.
  destruct (bcv _ _ _) as [d |]; [| discriminate].
  cbn [rbind] in H. inversion H. rewrite map_map.
  apply Forall_map. apply Forall_forall. intros v _.
  apply clipped_width_not_negative.
Qed.

(** C1.  In gauss mode, for a channel with fitted width [sig] and
    resolution [resOff], the deconvolved width the code computes is
    [sqrt(max((2 pi sig)^2 - (1/sigmaBeamFFT)^2, 0)) / (2 pi)] with
    [sigmaBeamFFT = sqrt(2 ln 2) / (pi resOff)]; it is not negative, and
    it is exactly 0 when the variance is negative.  For all inputs, also
    infinite or [nan] ones, no cell of [g_deconv_sig] is below zero. *)
Theorem deconv_sig_formula (g_sig : vec) (res_off_v : bval) (i : nat)
  (sig r : R) :
  nth_error g_sig i = Some (Fin sig) ->
  channel_value res_off_v (length g_sig) i (Fin r) ->
  r <> 0%R ->
  (exists g_deconv_sig,
     deconv_sig g_sig (sigma_beam_fft_of res_off_v) = Ok g_deconv_sig
     /\ nth_error g_deconv_sig i = Some (Fin (deconvolved_width sig r))
     /\ (0 <= deconvolved_width sig r)%R
     /\ ((2 * PI * sig) * (2 * PI * sig)
         < (1 / beam_sigma_fft r) * (1 / beam_sigma_fft r) ->
         deconvolved_width sig r = 0)%R)
  /\ (forall g sigma ds,
        deconv_sig g sigma = Ok ds ->
        Forall (fun d => (d <? f0)%f64 = false) ds).
Proof.
  intros Hsig Hres Hr.
  split; [| intros g sigma ds; apply deconv_sig_not_negative].
  destruct res_off_v as [x | xs]; cbn in Hres.
  - subst x. cbn [sigma_beam_fft_of bmap]. rewrite deconv_sig_scalar.
    eexists. split; [reflexivity |]. split.
    + erewrite map_nth_error by exact Hsig.
      now rewrite deconv_sig_pt_fin.
    + split; [apply deconvolved_width_nonneg |].
      intros Hlt. unfold deconvolved_width.
      rewrite Rmax_right by lra. rewrite sqrt_0. lra.
  - destruct Hres as [Hlen Hx]. cbn [sigma_beam_fft_of bmap].
    rewrite deconv_sig_vector by now rewrite length_map.
    eexists. split; [reflexivity |]. split.
    + erewrite nth_error_map2;
        [| exact Hsig | erewrite map_nth_error by exact Hx; reflexivity].
      now rewrite deconv_sig_pt_fin.
    + split; [apply deconvolved_width_nonneg |].
      intros Hlt. unfold deconvolved_width.
      rewrite Rmax_right by lra. rewrite sqrt_0. lra.
Qed.

Lemma deconv_sig_formula_witness :
  exists g_deconv_sig,
    deconv_sig [Fin 1] (sigma_beam_fft_of (Scalar (Fin 1))) = Ok g_deconv_sig
    /\ nth_error g_deconv_sig 0 = Some (Fin (deconvolved_width 1 1))
    /\ (0 <= deconvolved_width 1 1)%R
    /\ ((2 * PI * 1) * (2 * PI * 1)
        < (1 / beam_sigma_fft 1) * (1 / beam_sigma_fft 1) ->
        deconvolved_width 1 1 = 0)%R.
Proof.
  apply (deconv_sig_formula [Fin 1] (Scalar (Fin 1)) 0 1 1);
    [reflexivity | reflexivity | lra].
Defined.

(** ** Rows that fail the gate or the fit *)

Lemma replace_failed_negative (a mn sig : R) :
  (a < 0)%R ->
  replace_failed [(Fin a, Fin mn, Fin sig)] = [(Fin 0, Fin mn, Fin sig)].
Proof.
  intros Ha. unfold replace_failed, replace_column. cbn. unfold f0. cbn.
  rewrite Rltb_true by assumption. cbn.
  rewrite Rltb_irrefl. cbn. rewrite Rltb_irrefl. reflexivity.
Qed.

Lemma replace_failed_all_nan :
  replace_failed [(NaN, NaN, NaN)] = [(f0, f0, f0)].
Proof. unfold replace_failed, replace_column. feval. reflexivity. Qed.

Lemma row_params_below_threshold {F : Fitfuncs} (s : float64) (xaxis_v d_i : vec)
  (peak : float64) :
  nanmax d_i = Ok peak -> (peak >=? s)%f64 = false ->
  row_params (Some s) xaxis_v d_i = Ok (f0, f0, f0).
Proof.
  intros Hp Hlt. unfold row_params. rewrite Hp. cbn. now rewrite Hlt.
Qed.

(** C3, at a row whose fit has a negative amplitude.  The fit of the
    first channel answers [a = -1, mn = 1, sig = 0.3]; after the
    replacement loop the row is [a = 0, mn = 1, sig = 0.3]: the amplitude
    is zeroed, the mean and the width are not (the second and third pass
    of the loop read the amplitude through the view [g_a], already
    zeroed by the first).  The claim asks for [{0, 0, 0}]. *)
Theorem negative_amplitude_keeps_mean_and_width :
  gauss_params (F := constant_fit (Fin (-1), Fin 1, Fin (3 / 10)))
    (Some f0) [Fin 0; Fin 1; Fin 2]
    [[Fin 0; Fin (-1); Fin 0]; [Fin 0; Fin 0; Fin 0]]
  = Ok [(Fin (-1), Fin 1, Fin (3 / 10)); (f0, f0, f0)]
  /\ replace_failed [(Fin (-1), Fin 1, Fin (3 / 10)); (f0, f0, f0)]
     = [(Fin 0, Fin 1, Fin (3 / 10)); (f0, f0, f0)]
  /\ Fin 1 <> f0 /\ Fin (3 / 10) <> f0.
Proof.
  split; [| split; [| split]].
  - unfold gauss_params. feval. reflexivity.
  - unfold replace_failed. feval. reflexivity.
  - unfold f0. intros H. inversion H. lra.
  - unfold f0. intros H. inversion H. lra.
Qed.

(** ** The unresolved limit *)

Lemma ln2_lt_1 : (ln 2 < 1)%R.
Proof.
  rewrite <- (ln_exp 1). apply ln_increasing; [lra |].
  pose proof (exp_ineq1 1). lra.
Qed.

Lemma deconvolved_width_narrow (s r : R) :
  r <> 0%R -> (8 * (s * s) <= r * r)%R -> deconvolved_width s r = 0%R.
Proof.
  intros Hr Hs. unfold deconvolved_width.
  pose proof PI_RGT_0 as Hpi. pose proof sqrt_2ln2_pos as Hq.
  pose proof ln2_pos as Hl0. pose proof ln2_lt_1 as Hl1.
  assert (Hinv : (1 / beam_sigma_fft r * (1 / beam_sigma_fft r)
                  = PI * PI * (r * r) / (2 * ln 2))%R).
  { unfold beam_sigma_fft.
    rewrite <- (sqrt_sqrt (2 * ln 2)) at 3 by lra.
    field. split; [lra | split; lra]. }
  rewrite Hinv.
  assert (Hle : (2 * PI * s * (2 * PI * s) <= PI * PI * (r * r) / (2 * ln 2))%R).
  { apply Rmult_le_reg_r with (r := (2 * ln 2)%R); [lra |].
    replace (PI * PI * (r * r) / (2 * ln 2) * (2 * ln 2))%R
      with (PI * PI * (r * r))%R by (field; lra).
    assert (0 <= s * s)%R by nra.
    assert (8 * (s * s) * ln 2 <= r * r)%R by nra.
    nra. }
  rewrite Rmax_right by lra. rewrite sqrt_0. lra.
Qed.

Lemma set_nth_zeros (i n : nat) : set_nth i f0 (np_zeros n) = np_zeros n.
Proof.
  revert i. induction n as [| n IH]; intros [| i]; cbn; try reflexivity.
  f_equal. apply IH.
Qed.

Lemma argmin_nonempty (v : vec) : v <> [] -> exists i, argmin v = Ok i.
Proof. destruct v; [congruence | eexists; reflexivity]. Qed.

Lemma deconv_row_unresolved (xfull g_a g_mn g_deconv_a g_deconv_sig : vec)
  (i : nat) (a : R) (mn : float64) :
  nth_error g_deconv_sig i = Some f0 ->
  nth_error g_a i = Some (Fin a) ->
  nth_error g_mn i = Some mn ->
  xfull <> [] ->
  deconv_row xfull g_a g_mn g_deconv_a g_deconv_sig i
  = Ok (np_zeros (length xfull)).
Proof.
  intros Hds Ha Hmn Hx. unfold deconv_row, py_index.
  rewrite Hds. cbn. unfold F64.neb, f0. cbn. rewrite Reqb_refl. cbn.
  rewrite Hmn, Ha. cbn. unfold get_pointsolution.
  destruct (argmin_nonempty (map (fun x => F64.abs (x - mn)%f64) xfull))
    as [idx Hidx].
  { destruct xfull; [congruence | discriminate]. }
  rewrite Hidx. cbn.
  pose proof PI_RGT_0.
  rewrite Rltb_false by lra. cbn.
  replace (a * sqrt (2 * PI) * 0)%R with 0%R by lra.
  f_equal. apply set_nth_zeros.
Qed.

(** C2, at a channel narrower than the beam.  The fit answers
    [a = 1, mn = 0, sig = 0.1] and the resolution is 1, so the deconvolved
    width is 0 and the point solution is taken; the rows the code builds
    are zero at every sample, also at the sample nearest to [mn]: the flux
    handed to [get_pointsolution] is [a * sqrt(2 pi) * g_deconv_sig], which
    is 0 in this branch.  The claim asks for the value
    [a * sqrt(2 pi) * sig], which is not 0. *)
Theorem unresolved_channel_has_no_spike :
  gauss_rows (F := constant_fit (Fin 1, Fin 0, Fin (1 / 10)))
    (test_image 2 [Fin (-1); Fin 0; Fin 1]) (Some f0)
    [Fin (-1); Fin 0; Fin 1] [Fin (-1); Fin 0; Fin 1]
    [[Fin 0; Fin 1; Fin 0]; [Fin 0; Fin 1; Fin 0]]
    (sigma_beam_fft_of (Scalar f1))
  = Ok [[f0; f0; f0]; [f0; f0; f0]]
  /\ (1 * sqrt (2 * PI) * (1 / 10) <> 0)%R.
Proof.
  split.
  - unfold gauss_rows.
    assert (Hg : gauss_params (F := constant_fit (Fin 1, Fin 0, Fin (1 / 10)))
              (Some f0) [Fin (-1); Fin 0; Fin 1]
              [[Fin 0; Fin 1; Fin 0]; [Fin 0; Fin 1; Fin 0]]
            = Ok [(Fin 1, Fin 0, Fin (1 / 10)); (Fin 1, Fin 0, Fin (1 / 10))]).
    { unfold gauss_params. feval. reflexivity. }
    rewrite Hg. cbn [rbind].
    assert (Hr : replace_failed [(Fin 1, Fin 0, Fin (1 / 10)); (Fin 1, Fin 0, Fin (1 / 10))]
                 = [(Fin 1, Fin 0, Fin (1 / 10)); (Fin 1, Fin 0, Fin (1 / 10))]).
    { unfold replace_failed. feval. reflexivity. }
    rewrite Hr. cbn [map col sigma_beam_fft_of bmap].
    rewrite deconv_sig_scalar. cbn [map rbind]. unfold f1.
    rewrite !deconv_sig_pt_fin by lra.
    rewrite deconvolved_width_narrow by lra.
    unfold zero_division. cbn [length Nat.eqb map2 combine map fst snd rbind].
    cbn [test_image nv seq mapM].
    rewrite !deconv_row_unresolved with (a := 1%R) (mn := Fin 0);
      try reflexivity; discriminate.
  - pose proof PI_RGT_0. assert (0 < sqrt (2 * PI))%R by (apply sqrt_lt_R0; lra).
    lra.
Qed.

(** ** The call, step by step *)

Lemma nth_app_valid {A} (l : nat) (h t : list A) (d : A) :
  (l < length h)%nat -> nth l (h ++ t) d = nth l h d.
Proof. intros H. now apply app_nth1. Qed.

Lemma nth_app_first {A} (h t : list A) (a d : A) :
  nth (length h) (h ++ a :: t) d = a.
Proof. apply nth_middle. Qed.

Lemma nth_app_second {A} (h t : list A) (a b d : A) :
  nth (length (h ++ [a])) ((h ++ [a]) ++ b :: t) d = b.
Proof. apply nth_middle. Qed.

Lemma update_nth_app_first {A} (h t : list A) (a b : A) :
  update_nth (length h) b (h ++ a :: t) = h ++ b :: t.
Proof. induction h as [| c h IH]; cbn; [reflexivity | now rewrite IH]. Qed.

Section CallSteps.

Context {F : Fitfuncs}.

Lemma store_result_eq (three_axes : bool) (self : Impvfits) (d : matrix)
  (st : pystate) :
  store_result three_axes self d st
  = match reshape three_axes (nv self) (nx self) d with
    | Ok arr =>
        ({| heap := heap st ++ [arr];
            stdout := stdout st;
            data_deconv := Some (length (heap st)) |}, Ok RNone)
    | Raise e => (st, Raise e)
    end.
Proof.
  unfold store_result, bind, lift.
  destruct (reshape three_axes (nv self) (nx self) d); reflexivity.
Qed.

Lemma beam_deconvolution_steps (self : Impvfits)
  (sigmacut highfcut : option float64) (solmode : string)
  (fit_xlim fit_vlim : list float64) (st : pystate) :
  (naxis self = 2 \/ naxis self = 3)%Z ->
  (data self < length (heap st))%nat ->
  (xaxis self < length (heap st))%nat ->
  let a := nth (data self) (heap st) (A1 []) in
  let x := nth (xaxis self) (heap st) (A1 []) in
  beam_deconvolution self sigmacut highfcut solmode fit_xlim fit_vlim st
  = match fit_window (as_vec x) fit_xlim with
    | Raise e => (with_heap st (heap st ++ [a; x]), Raise e)
    | Ok (w, xaxis_v) =>
        let a' := clipped_copy a sigmacut w in
        let st1 := with_heap st (heap st ++ [a'; x]) in
        let data_v := slice_cols w (squeeze a') in
        match (r <- get_res_off self ;; require_number r) with
        | Raise e => (st1, Raise e)
        | Ok res_off_v =>
            let sigma_beam_fft := sigma_beam_fft_of res_off_v in
            if (solmode =? "gauss")%string then
              match gauss_solution self sigmacut xaxis_v (as_vec x) data_v
                      res_off_v sigma_beam_fft with
              | Ok d => store_result (naxis self =? 3)%Z self d st1
              | Raise e => (st1, Raise e)
              end
            else
              numerical_solution (naxis self =? 3)%Z self highfcut solmode
                (as_vec x) data_v sigma_beam_fft st1
        end
    end.
Proof.
  intros Hn Hd Hx a x. unfold beam_deconvolution.
  assert (Hnb : ((naxis self =? 2) || (naxis self =? 3))%Z = true).
  { destruct Hn as [-> | ->]; reflexivity. }
  rewrite Hnb.
  unfold bind at 1. unfold np_copy at 1. unfold bind at 1. cbn [load alloc heap stdout data_deconv].
  fold a.
  unfold bind at 1. unfold np_copy at 1. unfold bind at 1. cbn [load alloc heap stdout data_deconv].
  rewrite nth_app_valid by assumption. fold x.
  unfold bind at 1. cbn [load heap].
  rewrite length_app. cbn [length].
  replace (length (heap st) + 1)%nat with (length (heap st ++ [a])) by (rewrite length_app; cbn; lia).
  rewrite nth_middle.
  unfold bind at 1. unfold lift at 1.
  destruct (fit_window (as_vec x) fit_xlim) as [[w xaxis_v] | e].
  2: { unfold with_heap. rewrite <- app_assoc. reflexivity. }
  rewrite <- app_assoc. cbn [app].
  unfold bind at 1.
  assert (Hclip :
    match sigmacut with
    | Some s =>
        if truthy sigmacut
        then
          a0 <~ load (length (heap st)) ;;
          store (length (heap st))
            (with_contents a0 (clip_window s w (squeeze a0)))
        else ret tt
    | None => ret tt
    end {| heap := heap st ++ [a; x];
           stdout := stdout st;
           data_deconv := data_deconv st |}
    = (with_heap st (heap st ++ [clipped_copy a sigmacut w; x]), Ok tt)).
  { unfold clipped_copy, with_heap.
    destruct sigmacut as [s |]; [| reflexivity].
    destruct (truthy (Some s)); [| reflexivity].
    unfold bind, load, store. cbn [heap stdout data_deconv].
    now rewrite nth_middle, update_nth_app_first. }
  rewrite Hclip. clear Hclip.
  set (a' := clipped_copy a sigmacut w).
  unfold bind at 1. cbn [load with_heap heap].
  rewrite nth_middle.
  unfold bind at 1. cbn [load with_heap heap].
  rewrite nth_app_valid by assumption. fold x.
  fold (with_heap st (heap st ++ [a'; x])).
  unfold bind at 1. unfold lift at 1.
  destruct (get_res_off self) as [r | e]; [| reflexivity].
  cbn [rbind].
  unfold bind at 1. unfold lift at 1.
  destruct (require_number r) as [res_off_v | e]; [| reflexivity].
  destruct (solmode =? "gauss")%string; [| reflexivity].
  unfold bind at 1. unfold lift at 1.
  destruct (gauss_solution self sigmacut xaxis_v (as_vec x)
              (slice_cols w (squeeze a')) res_off_v
              (sigma_beam_fft_of res_off_v)); reflexivity.
Qed.
End CallSteps.

(** ** List comprehensions *)

Lemma mapM_nth_error {A B} (f : A -> res B) (l : list A) (bs : list B)
  (i : nat) (a : A) :
  mapM f l = Ok bs -> nth_error l i = Some a ->
  exists b, nth_error bs i = Some b /\ f a = Ok b.
Proof.
  revert bs i. induction l as [| x l IH]; intros bs i Hm Hi.
  - destruct i; discriminate.
  - cbn in Hm. destruct (f x) as [b |] eqn:Hfx; [| discriminate].
    cbn in Hm. destruct (mapM f l) as [bs' |] eqn:Hl; [| discriminate].
    cbn in Hm. inversion Hm; subst.
    destruct i as [| i]; cbn in *.
    + inversion Hi; subst. now exists b.
    + now apply IH.
Qed.

Lemma mapM_length {A B} (f : A -> res B) (l : list A) (bs : list B) :
  mapM f l = Ok bs -> length bs = length l.
Proof.
  revert bs. induction l as [| x l IH]; intros bs Hm; cbn in Hm.
  - now inversion Hm.
  - destruct (f x) as [b |]; [| discriminate]. cbn in Hm.
    destruct (mapM f l) as [bs' |]; [| discriminate]. cbn in Hm.
    inversion Hm; subst. cbn. f_equal. now apply IH.
Qed.

Lemma mapM_Forall {A B} (f : A -> res B) (P : B -> Prop) (l : list A)
  (bs : list B) :
  mapM f l = Ok bs -> (forall a b, In a l -> f a = Ok b -> P b) ->
  Forall P bs.
Proof.
  revert bs. induction l as [| x l IH]; intros bs Hm HP; cbn in Hm.
  - inversion Hm. constructor.
  - destruct (f x) as [b |] eqn:Hfx; [| discriminate]. cbn in Hm.
    destruct (mapM f l) as [bs' |]; [| discriminate]. cbn in Hm.
    inversion Hm; subst. constructor.
    + apply (HP x); [now left | assumption].
    + apply IH; [reflexivity |]. intros a b' Ha. apply HP. now right.
Qed.

Lemma mapM_total {A B} (f : A -> res B) (l : list A) :
  (forall a, In a l -> exists b, f a = Ok b) -> exists bs, mapM f l = Ok bs.
Proof.
  induction l as [| x l IH]; intros H; cbn.
  - now eexists.
  - destruct (H x) as [b Hb]; [now left |]. rewrite Hb. cbn.
    destruct IH as [bs Hbs]; [intros a Ha; apply H; now right |].
    rewrite Hbs. cbn. now eexists.
Qed.

(** ** Rows of zeros through the gauss pipeline *)

Lemma all_zero_select (mask : list bool) (v : vec) :
  all_zero v -> all_zero (select mask v).
Proof.
  revert mask. induction v as [| x v IH]; intros [| b mask] H; cbn;
    try constructor.
  inversion H; subst. destruct b.
  - constructor; [reflexivity | now apply IH].
  - now apply IH.
Qed.

Lemma all_zero_forallb (v : vec) :
  all_zero v -> forallb (fun d => (d ==? f0)%f64) v = true.
Proof.
  induction 1 as [| x v Hx _ IH]; cbn; [reflexivity |].
  subst x. unfold f0 at 1 2. cbn. rewrite Reqb_refl. exact IH.
Qed.

Lemma all_zero_repeat (v : vec) : all_zero v -> v = np_zeros (length v).
Proof.
  induction 1 as [| x v Hx _ IH]; cbn; [reflexivity |].
  subst x. unfold np_zeros in *. now rewrite <- IH.
Qed.

Lemma np_zeros_all_zero (n : nat) : all_zero (np_zeros n).
Proof. induction n; constructor; auto. Qed.

Section ZeroRows.

Context {F : Fitfuncs}.

Lemma get_gaussiansolution_zero (xin row : vec) (p : params) :
  all_zero row ->
  get_gaussiansolution xin row true = Ok p -> p = (f0, f0, f0).
Proof.
  intros Hz. unfold get_gaussiansolution.
  destruct (mask_select _ xin) as [x' |]; [| discriminate]. cbn [rbind].
  unfold mask_select. rewrite length_map, Nat.eqb_refl. cbn [rbind].
  rewrite all_zero_forallb by now apply all_zero_select.
  intros H. now inversion H.
Qed.

Lemma row_params_zero (sigmacut : option float64) (xaxis_v row : vec)
  (p : params) :
  all_zero row -> row_params sigmacut xaxis_v row = Ok p -> p = (f0, f0, f0).
Proof.
  intros Hz. unfold row_params.
  destruct (nanmax row) as [peak |]; [| discriminate]. cbn [rbind].
  destruct (py_ge peak sigmacut) as [pass |]; [| discriminate]. cbn [rbind].
  destruct pass.
  - now apply get_gaussiansolution_zero.
  - intros H. now inversion H.
Qed.

End ZeroRows.

Lemma replace_failed_rows (g : list params) :
  replace_failed g = map replace_row g.
Proof.
  unfold replace_failed, replace_column. cbn [fold_left].
  rewrite !map_map. reflexivity.
Qed.

Lemma replace_row_zero : replace_row (f0, f0, f0) = (f0, f0, f0).
Proof. unfold replace_row. feval. reflexivity. Qed.

Lemma deconv_sig_pt_zero (x : float64) :
  usable x -> deconv_sig_pt f0 (fwhm_factor / (x * np_pi * f2))%f64 = f0.
Proof.
  intros (r & -> & Hr). unfold f0 at 1.
  rewrite deconv_sig_pt_fin by assumption.
  rewrite deconvolved_width_narrow; [reflexivity | assumption | nra].
Qed.

Lemma bc2_nth_error {A B C} (f : A -> B -> C) (xs : list A) (ys : list B)
  (zs : list C) (i : nat) (a : A) :
  bc2 f xs ys = Ok zs -> length zs = length xs ->
  nth_error xs i = Some a ->
  exists y, In y ys /\ nth_error zs i = Some (f a y).
Proof.
  unfold bc2. intros H Hlen Ha.
  destruct (length xs =? length ys)%nat eqn:E.
  - apply Nat.eqb_eq in E. inversion H; subst.
    destruct (nth_error ys i) as [y |] eqn:Hy.
    + exists y. split; [eapply nth_error_In; eassumption |].
      now apply nth_error_map2.
    + apply nth_error_None in Hy.
      assert (i < length xs)%nat by (apply nth_error_Some; congruence). lia.
  - destruct xs as [| x xs]; [destruct i; discriminate |].
    destruct ys as [| y [| y' ys]].
    + destruct xs; cbn in H; inversion H; subst; cbn in Hlen; discriminate.
    + assert (Hz : zs = map (fun x0 => f x0 y) (x :: xs)).
      { destruct xs; cbn in H; now inversion H. }
      subst zs. exists y. split; [now left |].
      exact (map_nth_error (fun x0 => f x0 y) _ _ Ha).
    + destruct xs; cbn in H; inversion H; subst; cbn in Hlen.
      rewrite length_map in Hlen. cbn in E. discriminate.
Qed.

Lemma deconv_sig_zero (g_sig : vec) (res_off_v : bval) (ds : vec) (i : nat) :
  usable_res res_off_v ->
  deconv_sig g_sig (sigma_beam_fft_of res_off_v) = Ok ds ->
  length ds = length g_sig ->
  nth_error g_sig i = Some f0 ->
  nth_error ds i = Some f0.
Proof.
  intros Hres Hds Hlen Hi.
  destruct res_off_v as [x | xs]; cbn [sigma_beam_fft_of bmap usable_res] in *.
  - rewrite deconv_sig_scalar in Hds. inversion Hds; subst.
    erewrite map_nth_error by eassumption.
    now rewrite deconv_sig_pt_zero.
  - unfold deconv_sig, deconv_sig2 in Hds. cbn [bcv bmap] in Hds.
    destruct (bc2 _ _ _) as [d |] eqn:Hbc; [| discriminate].
    cbn [rbind] in Hds. inversion Hds; subst. clear Hds.
    rewrite !length_map in Hlen.
    destruct (bc2_nth_error _ _ _ _ i (square (two_pi * f0)%f64) Hbc)
      as (y & Hy & Hd).
    { now rewrite length_map. }
    { now erewrite map_nth_error by eassumption. }
    rewrite !map_map in Hy. apply in_map_iff in Hy.
    destruct Hy as (x & <- & Hx).
    rewrite Forall_forall in Hres. specialize (Hres x Hx).
    erewrite map_nth_error by (erewrite map_nth_error by exact Hd; reflexivity).
    f_equal. exact (deconv_sig_pt_zero x Hres).
Qed.

Lemma length_map2 {A B C} (f : A -> B -> C) (xs : list A) (ys : list B) :
  length (map2 f xs ys) = Nat.min (length xs) (length ys).
Proof. unfold map2. now rewrite length_map, length_combine. Qed.

Lemma length_set_nth (i : nat) (x : float64) (v : vec) :
  length (set_nth i x v) = length v.
Proof.
  revert i. induction v as [| y v IH]; intros [| i]; cbn; auto.
Qed.

Lemma length_np_zeros (n : nat) : length (np_zeros n) = n.
Proof. apply repeat_length. Qed.

Lemma deconv_row_length (xfull g_a g_mn g_deconv_a g_deconv_sig : vec)
  (i : nat) (b : vec) :
  deconv_row xfull g_a g_mn g_deconv_a g_deconv_sig i = Ok b ->
  length b = length xfull.
Proof.
  unfold deconv_row.
  destruct (py_index g_deconv_sig i) as [ds |]; [| discriminate]. cbn [rbind].
  destruct (ds !=? f0)%f64.
  - destruct (py_index g_deconv_a i); [| discriminate]. cbn [rbind].
    destruct (py_index g_mn i); [| discriminate]. cbn [rbind].
    intros H. inversion H. unfold gauss1d. now rewrite length_map.
  - destruct (py_index g_mn i); [| discriminate]. cbn [rbind].
    destruct (py_index g_a i); [| discriminate]. cbn [rbind].
    unfold get_pointsolution.
    destruct (argmin _); [| discriminate]. cbn [rbind].
    intros H. inversion H. now rewrite length_set_nth, length_np_zeros.
Qed.

Lemma deconv_row_unresolved_inv (xfull g_a g_mn g_deconv_a g_deconv_sig : vec)
  (i : nat) (a : R) (mn : float64) (b : vec) :
  nth_error g_deconv_sig i = Some f0 ->
  nth_error g_a i = Some (Fin a) ->
  nth_error g_mn i = Some mn ->
  deconv_row xfull g_a g_mn g_deconv_a g_deconv_sig i = Ok b ->
  b = np_zeros (length xfull).
Proof.
  intros Hds Ha Hmn H.
  destruct xfull as [| x xs].
  - apply deconv_row_length in H. destruct b; [reflexivity | discriminate].
  - rewrite (deconv_row_unresolved _ _ _ _ _ _ a mn) in H; try assumption;
      [now inversion H | discriminate].
Qed.

Section GaussRows.

Context {F : Fitfuncs}.

Lemma gauss_rows_zero_row (self : Impvfits) (sigmacut : option float64)
  (xaxis_v xfull : vec) (data_v : matrix) (res_off_v : bval)
  (rows : matrix) (i : nat) (row : vec) :
  gauss_rows self sigmacut xaxis_v xfull data_v (sigma_beam_fft_of res_off_v)
  = Ok rows ->
  usable_res res_off_v ->
  nth_error data_v i = Some row -> all_zero row -> (i < nv self)%nat ->
  nth_error rows i = Some (np_zeros (length xfull)).
Proof.
  intros Hrows Hres Hrow Hz Hi. unfold gauss_rows in Hrows.
  destruct (gauss_params sigmacut xaxis_v data_v) as [g0 |] eqn:Hg;
    [| discriminate].
  cbn [rbind] in Hrows.
  assert (Hp : nth_error g0 i = Some (f0, f0, f0)).
  { unfold gauss_params in Hg.
    destruct (mapM _ data_v) as [g |] eqn:Hm; [| discriminate].
    cbn [rbind] in Hg.
    destruct (mapM_nth_error _ _ _ _ _ Hm Hrow) as (p & Hp & Hfit).
    apply row_params_zero in Hfit; [| assumption]. subst p.
    destruct g; [discriminate | now inversion Hg; subst]. }
  rewrite replace_failed_rows in Hrows.
  set (g_ := map replace_row g0) in *.
  assert (Hg_ : nth_error g_ i = Some (f0, f0, f0)).
  { unfold g_. erewrite map_nth_error by exact Hp. now rewrite replace_row_zero. }
  destruct (deconv_sig _ _) as [ds |] eqn:Hds; [| discriminate].
  cbn [rbind] in Hrows.
  destruct (zero_division _ ds) as [da |] eqn:Hzd; [| discriminate].
  cbn [rbind] in Hrows.
  assert (Hlen : length ds = length (map (col 2) g_)).
  { unfold zero_division in Hzd.
    destruct (length ds =? _)%nat eqn:E; [| discriminate].
    apply Nat.eqb_eq in E. rewrite E, length_map2, !length_map. lia. }
  assert (Hsig : nth_error (map (col 2) g_) i = Some f0).
  { now erewrite map_nth_error by exact Hg_. }
  pose proof (deconv_sig_zero _ _ _ _ Hres Hds Hlen Hsig) as Hds_i.
  assert (Hseq : nth_error (seq 0 (nv self)) i = Some i).
  { rewrite nth_error_seq. apply Nat.ltb_lt in Hi. now rewrite Hi. }
  destruct (mapM_nth_error _ _ _ _ _ Hrows Hseq) as (b & Hb & Hrow_i).
  rewrite Hb. f_equal.
  eapply deconv_row_unresolved_inv with (a := 0%R) (mn := f0);
    [exact Hds_i | | | exact Hrow_i].
  - now erewrite map_nth_error by exact Hg_.
  - now erewrite map_nth_error by exact Hg_.
Qed.

Lemma gauss_rows_shape (self : Impvfits) (sigmacut : option float64)
  (xaxis_v xfull : vec) (data_v : matrix) (sigma : bval) (rows : matrix) :
  gauss_rows self sigmacut xaxis_v xfull data_v sigma = Ok rows ->
  length rows = nv self
  /\ Forall (fun row => length row = length xfull) rows.
Proof.
  unfold gauss_rows. intros H.
  destruct (gauss_params _ _ _); [| discriminate]. cbn [rbind] in H.
  destruct (deconv_sig _ _); [| discriminate]. cbn [rbind] in H.
  destruct (zero_division _ _); [| discriminate]. cbn [rbind] in H.
  split.
  - apply mapM_length in H. now rewrite length_seq in H.
  - eapply mapM_Forall; [exact H |].
    intros i b _ Hb. now apply deconv_row_length in Hb.
Qed.

End GaussRows.

(** ** The change of units *)

Lemma usable_div (x y : float64) : usable x -> usable y -> usable (x / y)%f64.
Proof.
  intros (a & -> & Ha) (b & -> & Hb). exists (a / b)%R.
  split; [now apply div_fin |].
  unfold Rdiv. apply Rmult_integral_contrapositive_currified;
    [assumption | now apply Rinv_neq_0_compat].
Qed.

Lemma usable_beam_area (x : float64) :
  usable x -> usable (F64.sqrt two_pi * x / fwhm_factor)%f64.
Proof.
  intros (r & -> & Hr). apply usable_div.
  - rewrite two_pi_fin. pose proof PI_RGT_0.
    rewrite sqrt_fin by lra. cbn [F64.mul].
    exists (sqrt (2 * PI) * r)%R. split; [reflexivity |].
    assert (0 < sqrt (2 * PI))%R by (apply sqrt_lt_R0; lra). nra.
  - rewrite fwhm_factor_fin. pose proof sqrt_2ln2_pos.
    exists (2 * sqrt (2 * ln 2))%R. split; [reflexivity | lra].
Qed.

Lemma zero_div_usable (y : float64) : usable y -> (f0 / y)%f64 = f0.
Proof.
  intros (c & -> & Hc). unfold f0. rewrite div_fin by assumption.
  f_equal. field. assumption.
Qed.

Lemma map_div_zeros (n : nat) (y : float64) :
  usable y -> map (fun x => (x / y)%f64) (np_zeros n) = np_zeros n.
Proof.
  intros Hy. unfold np_zeros.
  induction n as [| n IH]; cbn [repeat map]; [reflexivity |].
  rewrite zero_div_usable by assumption. f_equal. exact IH.
Qed.

Lemma map2_div_zeros (n : nat) (ys : vec) :
  Forall usable ys -> length ys = n ->
  map2 F64.div (np_zeros n) ys = np_zeros n.
Proof.
  intros Hys. unfold np_zeros, map2.
  revert n. induction Hys as [| y ys Hy _ IH]; intros n Hn;
    subst n; cbn [length repeat combine map fst snd]; [reflexivity |].
  rewrite zero_div_usable by assumption.
  f_equal. now apply IH.
Qed.

Lemma ibc2_div_zeros (n : nat) (ys b : vec) :
  Forall usable ys -> ibc2 F64.div (np_zeros n) ys = Ok b -> b = np_zeros n.
Proof.
  intros Hys. unfold ibc2. rewrite length_np_zeros.
  destruct (length ys =? n)%nat eqn:E.
  - apply Nat.eqb_eq in E. intros H. inversion H.
    now apply map2_div_zeros.
  - destruct ys as [| y [| y' ys]]; try discriminate.
    intros H. inversion H. apply map_div_zeros. now inversion Hys.
Qed.

Lemma ibc2_length {A B} (f : A -> B -> A) (xs : list A) (ys : list B)
  (zs : list A) :
  ibc2 f xs ys = Ok zs -> length zs = length xs.
Proof.
  unfold ibc2. destruct (length ys =? length xs)%nat eqn:E.
  - apply Nat.eqb_eq in E. intros H. inversion H.
    rewrite length_map2. lia.
  - destruct ys as [| y [| y' ys]]; try discriminate.
    intros H. inversion H. now rewrite length_map.
Qed.

Lemma nth_error_combine_some {A B} (xs : list A) (ys : list B) (i : nat)
  (a : A) (b : B) :
  nth_error xs i = Some a -> nth_error ys i = Some b ->
  nth_error (combine xs ys) i = Some (a, b).
Proof.
  revert ys i. induction xs as [| x xs IH]; intros [| y ys] [| i] Ha Hb;
    cbn in *; try discriminate.
  - now inversion Ha; inversion Hb.
  - now apply IH.
Qed.

Lemma usable_tile (b : bval) (dx : float64) (n : nat) :
  usable_res b -> usable dx ->
  Forall (Forall usable)
    (map (map (fun a => (a / dx)%f64)) (np_tile (beam_area_of b) n)).
Proof.
  intros Hb Hdx. apply Forall_map.
  assert (Hrow : Forall usable
            (map (fun a => (a / dx)%f64)
               match beam_area_of b with
               | Scalar x => [x]
               | Vector xs => xs
               end)).
  { destruct b as [x | xs]; cbn in *.
    - constructor; [| constructor].
      apply usable_div; [now apply usable_beam_area | assumption].
    - apply Forall_map, Forall_map. eapply Forall_impl; [| exact Hb].
      intros x Hx. apply usable_div; [now apply usable_beam_area | assumption]. }
  destruct b as [x | xs]; cbn in *; apply Forall_forall; intros r Hr;
    apply repeat_spec in Hr; subst r; exact Hrow.
Qed.

Lemma to_flux_per_pixel_zero_row (self : Impvfits) (res_off_v : bval)
  (d d' : matrix) (i n : nat) :
  to_flux_per_pixel self res_off_v d = Ok d' ->
  usable_res res_off_v -> usable (delx self) ->
  nth_error d i = Some (np_zeros n) ->
  nth_error d' i = Some (np_zeros n).
Proof.
  intros H Hres Hdx Hi. unfold to_flux_per_pixel in H.
  unfold matrix, vec in *.
  destruct (multibeam self).
  - pose proof (usable_tile res_off_v (delx self) (nv self) Hres Hdx) as Ht.
    remember (map (map (fun a => (a / delx self)%f64))
                (np_tile (beam_area_of res_off_v) (nv self))) as t eqn:Et.
    clear Et. unfold ibc2d in H.
    match type of H with
    | (if ?c then _ else _) = _ => destruct c eqn:E
    end.
    + apply Nat.eqb_eq in E.
      destruct (nth_error t i) as [trow |] eqn:Htrow.
      2: { apply nth_error_None in Htrow.
           assert (i < length d)%nat by (apply nth_error_Some; congruence).
           lia. }
      assert (Hc : nth_error (combine d t) i = Some (np_zeros n, trow)).
      { now apply nth_error_combine_some. }
      destruct (mapM_nth_error _ _ _ _ _ H Hc) as (b & Hb & Hdiv).
      cbn [fst snd] in Hdiv. rewrite Hb. f_equal.
      eapply ibc2_div_zeros; [| exact Hdiv].
      rewrite Forall_forall in Ht. apply Ht.
      eapply nth_error_In; eassumption.
    + destruct t as [| r2 [| r2' t]]; try discriminate.
      destruct (mapM_nth_error _ _ _ _ _ H Hi) as (b & Hb & Hdiv).
      rewrite Hb. f_equal.
      eapply ibc2_div_zeros; [| exact Hdiv]. now inversion Ht.
  - destruct res_off_v as [x | xs]; cbn [beam_area_of bmap] in H.
    + inversion H. erewrite map_nth_error by exact Hi.
      f_equal. apply map_div_zeros.
      apply usable_div; [now apply usable_beam_area | assumption].
    + destruct (mapM_nth_error _ _ _ _ _ H Hi) as (b & Hb & Hdiv).
      rewrite Hb. f_equal.
      eapply ibc2_div_zeros; [| exact Hdiv].
      cbn in Hres. apply Forall_map, Forall_map.
      eapply Forall_impl; [| exact Hres].
      intros x Hx. apply usable_div; [now apply usable_beam_area | assumption].
Qed.

Lemma to_flux_per_pixel_shape (self : Impvfits) (res_off_v : bval)
  (d d' : matrix) (n : nat) :
  to_flux_per_pixel self res_off_v d = Ok d' ->
  uniform n d -> length d' = length d /\ uniform n d'.
Proof.
  intros H Hu. unfold to_flux_per_pixel in H.
  unfold uniform, matrix, vec in *.
  assert (Hrows : forall (ys : list float64) (m m' : list (list float64)),
             Forall (fun row => length row = n) m ->
             mapM (fun row => ibc2 F64.div row ys) m = Ok m' ->
             length m' = length m
             /\ Forall (fun row => length row = n) m').
  { intros ys m m' Hm Hmm. split; [now apply mapM_length in Hmm |].
    eapply mapM_Forall; [exact Hmm |].
    intros row b Hin Hb. apply ibc2_length in Hb. rewrite Hb.
    rewrite Forall_forall in Hm. now apply Hm. }
  destruct (multibeam self).
  - unfold ibc2d in H.
    match type of H with
    | (if ?c then _ else _) = _ => destruct c eqn:E
    end.
    + apply Nat.eqb_eq in E. split.
      * apply mapM_length in H. rewrite length_combine in H. lia.
      * eapply mapM_Forall; [exact H |].
        intros [row trow] b Hin Hb. cbn [fst snd] in Hb.
        apply ibc2_length in Hb. rewrite Hb.
        apply in_combine_l in Hin.
        rewrite Forall_forall in Hu. now apply Hu.
    + match type of H with
      | match ?t with _ => _ end = _ =>
          destruct t as [| r2 [| r2' t']]; try discriminate
      end.
      eapply Hrows; eassumption.
  - destruct (bmap _ _) as [s | ys].
    + inversion H. split; [now rewrite length_map |].
      apply Forall_map. eapply Forall_impl; [| exact Hu].
      cbn. intros row Hrow. now rewrite length_map.
    + eapply Hrows; eassumption.
Qed.

(** ** Reshaping *)

Lemma concat_uniform_length (n : nat) (m : matrix) :
  uniform n m -> length (concat m) = (length m * n)%nat.
Proof.
  induction 1 as [| row m Hrow _ IH]; cbn; [reflexivity |].
  rewrite length_app, IH, Hrow. reflexivity.
Qed.

Lemma reshape_rows (n : nat) (m : matrix) :
  uniform n m ->
  map (fun i => slice (i * n) (i * n + n) (concat m)) (seq 0 (length m)) = m.
Proof.
  induction 1 as [| row m Hrow _ IH]; [reflexivity |].
  cbn [length seq map concat].
  f_equal.
  - unfold slice. cbn [Nat.mul Nat.add skipn].
    replace (n - 0)%nat with (length row + 0)%nat by lia.
    rewrite firstn_app_2. cbn. now rewrite app_nil_r.
  - rewrite <- seq_shift, map_map. rewrite <- IH at 2.
    apply map_ext. intros i. unfold slice.
    replace (S i * n + n - S i * n)%nat with (i * n + n - i * n)%nat by lia.
    f_equal.
    replace (S i * n)%nat with (length row + i * n)%nat by (cbn; lia).
    rewrite skipn_app.
    rewrite skipn_all2 by lia.
    replace (length row + i * n - length row)%nat with (i * n)%nat by lia.
    reflexivity.
Qed.

Lemma reshape_uniform (three_axes : bool) (n_v n_x : nat) (d : matrix) :
  uniform n_x d -> length d = n_v ->
  reshape three_axes n_v n_x d = Ok (if three_axes then A3 d else A2 d).
Proof.
  intros Hu Hlen. unfold reshape.
  rewrite (concat_uniform_length n_x d Hu), Hlen, Nat.eqb_refl.
  rewrite <- Hlen, reshape_rows by assumption. reflexivity.
Qed.

Lemma reshape_inv (three_axes : bool) (n_v n_x n : nat) (d : matrix)
  (arr : ndarray) :
  reshape three_axes n_v n_x d = Ok arr ->
  uniform n d -> length d = n_v -> (0 < n_v)%nat ->
  n = n_x /\ squeeze arr = d.
Proof.
  intros H Hu Hlen Hpos. unfold reshape in H.
  destruct (length (concat d) =? n_v * n_x)%nat eqn:E; [| discriminate].
  apply Nat.eqb_eq in E.
  rewrite (concat_uniform_length n d Hu), Hlen in E.
  assert (Hn : n = n_x) by nia. subst n.
  split; [reflexivity |].
  rewrite <- Hlen, reshape_rows in H by assumption.
  inversion H. now destruct three_axes.
Qed.

(** ** The copy of the data that the modes read *)

Lemma Forall_firstn_skipn {A} (P : A -> Prop) (n : nat) (v : list A) :
  Forall P v -> Forall P (firstn n v) /\ Forall P (skipn n v).
Proof.
  intros H. rewrite <- (firstn_skipn n v) in H. now apply Forall_app in H.
Qed.

Lemma all_zero_slice (lo hi : nat) (v : vec) :
  all_zero v -> all_zero (slice lo hi v).
Proof.
  intros H. unfold slice.
  apply Forall_firstn_skipn. now apply Forall_firstn_skipn.
Qed.

Lemma clip_pt_zero (s : float64) : clip_pt s f0 = f0.
Proof. unfold clip_pt. now destruct (f0 <? s)%f64. Qed.

Lemma all_zero_map_clip (s : float64) (v : vec) :
  all_zero v -> all_zero (map (clip_pt s) v).
Proof.
  intros H. apply Forall_map. eapply Forall_impl; [| exact H].
  cbn. intros x ->. apply clip_pt_zero.
Qed.

Lemma all_zero_clip_row (s : float64) (w : option (nat * nat)) (v : vec) :
  all_zero v -> all_zero (clip_row s w v).
Proof.
  intros H. unfold clip_row. destruct w as [[lo hi] |].
  - apply Forall_app. split; [now apply Forall_firstn_skipn |].
    apply Forall_app. split; [| now apply Forall_firstn_skipn].
    now apply all_zero_map_clip, all_zero_slice.
  - now apply all_zero_map_clip.
Qed.

Lemma squeeze_with_contents (a : ndarray) (f : vec -> vec) :
  squeeze (with_contents a (map f (squeeze a))) = map f (squeeze a).
Proof.
  destruct a as [v | m | m]; cbn; [| reflexivity | reflexivity].
  now rewrite app_nil_r.
Qed.

(** The rows the modes read: the rows of the data, clipped when
    [sigmacut] asks for it, within the window of [fit_xlim]. *)
Lemma prepared_rows (a : ndarray) (sigmacut : option float64)
  (w : option (nat * nat)) :
  slice_cols w (squeeze (clipped_copy a sigmacut w))
  = slice_cols w
      (match sigmacut with
       | Some s => if truthy sigmacut
                   then map (clip_row s w) (squeeze a) else squeeze a
       | None => squeeze a
       end).
Proof.
  unfold clipped_copy. destruct sigmacut as [s |]; [| reflexivity].
  destruct (truthy (Some s)); [| reflexivity].
  unfold clip_window. now rewrite squeeze_with_contents.
Qed.

Lemma prepared_zero_row (a : ndarray) (sigmacut : option float64)
  (w : option (nat * nat)) (i : nat) (row : vec) :
  nth_error (squeeze a) i = Some row -> all_zero row ->
  exists row',
    nth_error (slice_cols w (squeeze (clipped_copy a sigmacut w))) i
    = Some row'
    /\ all_zero row'.
Proof.
  intros Hi Hz. rewrite prepared_rows.
  assert (Hclip : exists row1,
            nth_error
              (match sigmacut with
               | Some s => if truthy sigmacut
                           then map (clip_row s w) (squeeze a) else squeeze a
               | None => squeeze a
               end) i = Some row1 /\ all_zero row1).
  { destruct sigmacut as [s |]; [| now exists row].
    destruct (truthy (Some s)); [| now exists row].
    exists (clip_row s w row). split; [now apply map_nth_error |].
    now apply all_zero_clip_row. }
  destruct Hclip as (row1 & H1 & Hz1).
  unfold slice_cols. destruct w as [[lo hi] |]; [| now exists row1].
  exists (slice lo hi row1). split; [now apply map_nth_error |].
  now apply all_zero_slice.
Qed.

Section ZeroRowTheorem.

Context {F : Fitfuncs}.

Lemma get_gaussiansolution_of_zeros (xin row : vec) :
  length xin = length row -> all_zero row ->
  get_gaussiansolution xin row true = Ok (f0, f0, f0).
Proof.
  intros Hlen Hz. unfold get_gaussiansolution, mask_select.
  rewrite !length_map, Hlen, Nat.eqb_refl. cbn [rbind].
  now rewrite all_zero_forallb by now apply all_zero_select.
Qed.

Lemma gauss_solution_zero_row (self : Impvfits) (sigmacut : option float64)
  (xaxis_v xfull : vec) (data_v : matrix) (res_off_v : bval)
  (d : matrix) (i : nat) (row : vec) :
  gauss_solution self sigmacut xaxis_v xfull data_v res_off_v
    (sigma_beam_fft_of res_off_v) = Ok d ->
  usable_res res_off_v -> usable (delx self) ->
  nth_error data_v i = Some row -> all_zero row -> (i < nv self)%nat ->
  nth_error d i = Some (np_zeros (length xfull))
  /\ length d = nv self /\ uniform (length xfull) d.
Proof.
  intros H Hres Hdx Hrow Hz Hi. unfold gauss_solution in H.
  destruct (gauss_rows _ _ _ _ _ _) as [rows |] eqn:Hrows; [| discriminate].
  cbn [rbind] in H.
  pose proof (gauss_rows_zero_row _ _ _ _ _ _ _ _ _ Hrows Hres Hrow Hz Hi)
    as Hzero.
  destruct (gauss_rows_shape _ _ _ _ _ _ _ Hrows) as [Hlen Hu].
  destruct (to_flux_per_pixel_shape _ _ _ _ _ H Hu) as [Hlen' Hu'].
  split; [| split; [congruence | assumption]].
  eapply to_flux_per_pixel_zero_row; eassumption.
Qed.

(** C4.  A row of the data that is entirely zero is not fitted: the fit
    helper answers [{0, 0, 0}] whatever the fitting routine would do; and
    the row of the same channel in the result that a call in gauss mode
    stores is entirely zero.  The resolution of every channel and the
    spacing of the offsets are finite and not zero. *)
Theorem zero_row_deconvolves_to_zero (self : Impvfits)
  (sigmacut highfcut : option float64) (fit_xlim fit_vlim : list float64)
  (st st' : pystate) (res_off_v : bval) (i : nat) (row : vec) :
  (data self < length (heap st))%nat ->
  (xaxis self < length (heap st))%nat ->
  get_res_off self = Ok (Some res_off_v) ->
  usable_res res_off_v -> usable (delx self) ->
  nth_error (squeeze (nth (data self) (heap st) (A1 []))) i = Some row ->
  all_zero row -> (i < nv self)%nat ->
  beam_deconvolution self sigmacut highfcut "gauss" fit_xlim fit_vlim st
  = (st', Ok RNone) ->
  (forall xin, length xin = length row ->
     get_gaussiansolution xin row true = Ok (f0, f0, f0))
  /\ exists l out,
       data_deconv st' = Some l
       /\ nth_error (heap st') l = Some out
       /\ nth_error (squeeze out) i = Some (np_zeros (nx self)).
Proof.
  intros Hd Hx Hres Hus Hdx Hrow Hz Hi Hcall.
  split; [intros xin Hlen; now apply get_gaussiansolution_of_zeros |].
  assert (Hn : (naxis self = 2 \/ naxis self = 3)%Z).
  { destruct (Z.eq_dec (naxis self) 2) as [| N2]; [now left |].
    destruct (Z.eq_dec (naxis self) 3) as [| N3]; [now right |].
    unfold beam_deconvolution in Hcall.
    rewrite (naxis_check_fails (naxis self) N2 N3) in Hcall.
    inversion Hcall. }
  rewrite beam_deconvolution_steps in Hcall by assumption.
  cbn zeta in Hcall.
  destruct (fit_window _ fit_xlim) as [[w xaxis_v] |]; [| inversion Hcall].
  rewrite Hres in Hcall. cbn [rbind require_number] in Hcall.
  cbn [String.eqb Ascii.eqb Bool.eqb] in Hcall.
  destruct (gauss_solution _ _ _ _ _ _ _) as [d |] eqn:Hsol;
    [| inversion Hcall].
  rewrite store_result_eq in Hcall.
  destruct (reshape _ _ _ d) as [arr |] eqn:Hre; [| inversion Hcall].
  inversion Hcall; subst st'. clear Hcall.
  destruct (prepared_zero_row _ sigmacut w i row Hrow Hz) as (row' & Hr' & Hz').
  destruct (gauss_solution_zero_row _ _ _ _ _ _ _ _ _ Hsol Hus Hdx Hr' Hz' Hi)
    as (Hzero & Hlen & Hu).
  destruct (reshape_inv _ _ _ _ _ _ Hre Hu Hlen) as [Hnx Hsq]; [lia |].
  eexists. exists arr. cbn [data_deconv heap with_heap].
  split; [reflexivity |]. split.
  - rewrite nth_error_app2 by lia. now rewrite Nat.sub_diag.
  - now rewrite Hsq, Hzero, Hnx.
Qed.

End ZeroRowTheorem.

(** ** Calls that store no result *)

Lemma keeps_attr_bind {A B} (m : M A) (k : A -> M B) :
  keeps_attr m -> (forall a, keeps_attr (k a)) -> keeps_attr (bind m k).
Proof.
  intros Hm Hk st. unfold bind. specialize (Hm st).
  destruct (m st) as [st1 [a | e]]; cbn in *; [| assumption].
  now rewrite Hk.
Qed.

Lemma keeps_attr_lift {A} (r : res A) : keeps_attr (lift r).
Proof. intros st. reflexivity. Qed.

Lemma keeps_attr_ret {A} (a : A) : keeps_attr (ret a).
Proof. intros st. reflexivity. Qed.

Lemma keeps_attr_load (l : loc) : keeps_attr (load l).
Proof. intros st. reflexivity. Qed.

Lemma keeps_attr_alloc (a : ndarray) : keeps_attr (alloc a).
Proof. intros st. reflexivity. Qed.

Lemma keeps_attr_store (l : loc) (a : ndarray) : keeps_attr (store l a).
Proof. intros st. reflexivity. Qed.

Lemma keeps_attr_print (s : string) : keeps_attr (print s).
Proof. intros st. reflexivity. Qed.

Lemma keeps_attr_np_copy (l : loc) : keeps_attr (np_copy l).
Proof.
  apply keeps_attr_bind; [apply keeps_attr_load | intros a; apply keeps_attr_alloc].
Qed.

Lemma no_result_bind {A} (m : M A) (k : A -> M retval) :
  keeps_attr m -> (forall a, no_result (k a)) -> no_result (bind m k).
Proof.
  intros Hm Hk st. unfold bind. specialize (Hm st).
  destruct (m st) as [st1 [a | e]]; cbn in *.
  - destruct (Hk a st1) as [H1 H2]. split; [congruence | assumption].
  - split; [assumption | discriminate].
Qed.

Lemma no_result_raise {A} (e : exn) (k : A -> M retval) :
  no_result (bind (lift (Raise e)) k).
Proof. intros st. cbn. split; [reflexivity | discriminate]. Qed.

Lemma no_result_int (z : Z) : no_result (ret (RInt z)).
Proof. intros st. cbn. split; [reflexivity | discriminate]. Qed.

Lemma no_result_print (s : string) (z : Z) :
  no_result (bind (print s) (fun _ => ret (RInt z))).
Proof. intros st. cbn. split; [reflexivity | discriminate]. Qed.

Section NoResult.

Context {F : Fitfuncs}.

Lemma gauss_params_none (xaxis_v : vec) (data_v : matrix) :
  exists e, gauss_params None xaxis_v data_v = Raise e.
Proof.
  unfold gauss_params. destruct data_v as [| row data_v]; cbn.
  - now eexists.
  - unfold row_params. destruct (nanmax row); cbn; now eexists.
Qed.

Lemma gauss_solution_none (self : Impvfits) (xaxis_v xfull : vec)
  (data_v : matrix) (res_off_v sigma : bval) :
  exists e,
    gauss_solution self None xaxis_v xfull data_v res_off_v sigma = Raise e.
Proof.
  unfold gauss_solution, gauss_rows.
  destruct (gauss_params_none xaxis_v data_v) as [e He].
  rewrite He. now exists e.
Qed.

(** The prefix shared by all modes does not assign [data_deconv]; what
    follows it decides. *)
Lemma no_result_after_prefix (self : Impvfits)
  (sigmacut highfcut : option float64) (solmode : string)
  (fit_xlim fit_vlim : list float64) :
  (forall xaxis_v xfull data_v res_off_v,
     no_result
       (if (solmode =? "gauss")%string then
          d_deconv <~ lift (gauss_solution self sigmacut xaxis_v xfull data_v
                              res_off_v (sigma_beam_fft_of res_off_v)) ;;
          store_result (naxis self =? 3)%Z self d_deconv
        else
          numerical_solution (naxis self =? 3)%Z self highfcut solmode xfull
            data_v (sigma_beam_fft_of res_off_v))) ->
  no_result
    (beam_deconvolution self sigmacut highfcut solmode fit_xlim fit_vlim).
Proof.
  intros Htail. unfold beam_deconvolution.
  destruct ((naxis self =? 2) || (naxis self =? 3))%Z;
    [| apply no_result_print].
  apply no_result_bind; [apply keeps_attr_np_copy |]. intros d_loc.
  apply no_result_bind; [apply keeps_attr_np_copy |]. intros x_loc.
  apply no_result_bind; [apply keeps_attr_load |]. intros x_arr.
  apply no_result_bind; [apply keeps_attr_lift |]. intros [w xaxis_v].
  apply no_result_bind.
  { destruct sigmacut as [s |]; [| apply keeps_attr_ret].
    destruct (truthy (Some s)); [| apply keeps_attr_ret].
    apply keeps_attr_bind; [apply keeps_attr_load |].
    intros a. apply keeps_attr_store. }
  intros _.
  apply no_result_bind; [apply keeps_attr_load |]. intros d_arr.
  apply no_result_bind; [apply keeps_attr_load |]. intros xfull_arr.
  apply no_result_bind; [apply keeps_attr_lift |]. intros r.
  apply no_result_bind; [apply keeps_attr_lift |]. intros res_off_v.
  apply Htail.
Qed.

Lemma no_result_gauss_none (self : Impvfits) (highfcut : option float64)
  (fit_xlim fit_vlim : list float64) :
  no_result (beam_deconvolution self None highfcut "gauss" fit_xlim fit_vlim).
Proof.
  apply no_result_after_prefix. intros xaxis_v xfull data_v res_off_v.
  cbn [String.eqb Ascii.eqb Bool.eqb].
  destruct (gauss_solution_none self xaxis_v xfull data_v res_off_v
              (sigma_beam_fft_of res_off_v)) as [e He].
  rewrite He. apply no_result_raise.
Qed.

Lemma no_result_missing_highfcut (self : Impvfits)
  (sigmacut : option float64) (solmode : string)
  (fit_xlim fit_vlim : list float64) :
  solmode = "highfcut"%string \/ solmode = "taper"%string ->
  no_result (beam_deconvolution self sigmacut None solmode fit_xlim fit_vlim).
Proof.
  intros Hmode. apply no_result_after_prefix.
  intros xaxis_v xfull data_v res_off_v.
  assert (Hg : (solmode =? "gauss")%string = false)
    by (destruct Hmode; subst; reflexivity).
  rewrite Hg. unfold numerical_solution.
  destruct (beam_array self xfull) as [rbeam |].
  2: { intros st. cbn. split; [reflexivity | discriminate]. }
  apply no_result_bind; [apply keeps_attr_lift |]. intros beam_v.
  apply no_result_bind; [apply keeps_attr_lift |]. intros d_deconv_fft.
  destruct Hmode; subst; cbn [String.eqb Ascii.eqb Bool.eqb];
    apply no_result_print.
Qed.

End NoResult.

(** ** Well-formed images and the gauss path *)

Lemma forallb_false_nonempty {A} (f : A -> bool) (l : list A) :
  forallb f l = false -> l <> [].
Proof. destruct l; [discriminate | discriminate]. Qed.

Lemma py_index_lt {A} (l : list A) (i : nat) :
  (i < length l)%nat -> exists a, py_index l i = Ok a.
Proof.
  intros H. unfold py_index.
  destruct (nth_error l i) eqn:E; [now eexists |].
  apply nth_error_None in E. lia.
Qed.

Section GaussTotal.

Context {F : Fitfuncs}.
Hypothesis Hfit : fit_returns F.

Lemma get_gaussiansolution_total (xin row : vec) :
  length xin = length row ->
  exists p, get_gaussiansolution xin row true = Ok p.
Proof.
  intros Hlen. unfold get_gaussiansolution, mask_select.
  rewrite !length_map, Hlen, Nat.eqb_refl. cbn [rbind].
  destruct (forallb _ _) eqn:E; [now eexists |].
  apply forallb_false_nonempty in E.
  destruct (select _ row) as [| d0 ds]; [congruence |].
  cbn [nanmax rbind].
  match goal with
  | |- context [gaussfit ?x ?d ?e ?p] => destruct (Hfit x d e p) as [q Hq]
  end.
  rewrite Hq. now eexists.
Qed.

Lemma row_params_total (s : float64) (xaxis_v row : vec) :
  row <> [] -> length xaxis_v = length row ->
  exists p, row_params (Some s) xaxis_v row = Ok p.
Proof.
  intros Hne Hlen. unfold row_params.
  destruct row as [| d0 ds]; [congruence |]. cbn [nanmax rbind py_ge].
  destruct (_ >=? s)%f64; [| now eexists].
  now apply get_gaussiansolution_total.
Qed.

Lemma gauss_params_total (s : float64) (xaxis_v : vec) (data_v : matrix) :
  data_v <> [] -> xaxis_v <> [] -> uniform (length xaxis_v) data_v ->
  exists g0, gauss_params (Some s) xaxis_v data_v = Ok g0
             /\ length g0 = length data_v.
Proof.
  intros Hne Hx Hu. unfold gauss_params.
  destruct (mapM_total (row_params (Some s) xaxis_v) data_v) as [g Hg].
  { intros row Hin. unfold uniform in Hu. rewrite Forall_forall in Hu.
    specialize (Hu row Hin). apply row_params_total; [| now symmetry].
    intros ->. destruct xaxis_v; [congruence | discriminate]. }
  rewrite Hg. cbn [rbind]. pose proof (mapM_length _ _ _ Hg) as Hlen.
  destruct g; [destruct data_v; [congruence | discriminate] |].
  now eexists.
Qed.

Lemma deconv_row_total (xfull g_a g_mn g_deconv_a g_deconv_sig : vec)
  (i : nat) :
  xfull <> [] ->
  (i < length g_deconv_sig)%nat -> (i < length g_a)%nat ->
  (i < length g_mn)%nat -> (i < length g_deconv_a)%nat ->
  exists b, deconv_row xfull g_a g_mn g_deconv_a g_deconv_sig i = Ok b.
Proof.
  intros Hx H1 H2 H3 H4. unfold deconv_row.
  destruct (py_index_lt g_deconv_sig i H1) as [ds ->].
  destruct (py_index_lt g_a i H2) as [a ->].
  destruct (py_index_lt g_mn i H3) as [mn ->].
  destruct (py_index_lt g_deconv_a i H4) as [da ->].
  cbn [rbind]. destruct (ds !=? f0)%f64; [now eexists |].
  unfold get_pointsolution.
  destruct (argmin_nonempty (map (fun x => F64.abs (x - mn)%f64) xfull))
    as [idx ->].
  { destruct xfull; [congruence | discriminate]. }
  now eexists.
Qed.

Lemma gauss_solution_total (self : Impvfits) (s rho : float64)
  (xaxis_v xfull : vec) (data_v : matrix) :
  multibeam self = false ->
  xaxis_v <> [] -> xfull <> [] ->
  length data_v = nv self -> (0 < nv self)%nat ->
  uniform (length xaxis_v) data_v ->
  exists d,
    gauss_solution self (Some s) xaxis_v xfull data_v (Scalar rho)
      (sigma_beam_fft_of (Scalar rho)) = Ok d
    /\ length d = nv self /\ uniform (length xfull) d.
Proof.
  intros Hmb Hxa Hxf Hlen Hpos Hu.
  destruct (gauss_params_total s xaxis_v data_v) as (g0 & Hg & Hg_len);
    [destruct data_v; [cbn in Hlen; lia | discriminate] | assumption
    | assumption |].
  assert (Hrows : exists rows,
            gauss_rows self (Some s) xaxis_v xfull data_v
              (sigma_beam_fft_of (Scalar rho)) = Ok rows).
  { unfold gauss_rows. rewrite Hg. cbn [rbind sigma_beam_fft_of bmap].
    rewrite deconv_sig_scalar. cbn [rbind].
    rewrite replace_failed_rows. unfold zero_division.
    rewrite length_map2, !length_map, Nat.min_id, Nat.eqb_refl.
    cbn [rbind]. apply mapM_total. intros i Hi.
    apply in_seq in Hi.
    apply deconv_row_total; rewrite ?length_map2, ?length_map, ?Nat.min_id;
      try assumption; lia. }
  destruct Hrows as [rows Hrows].
  destruct (gauss_rows_shape _ _ _ _ _ _ _ Hrows) as [Hrl Hru].
  unfold gauss_solution. rewrite Hrows. cbn [rbind].
  unfold to_flux_per_pixel. rewrite Hmb. cbn [beam_area_of bmap].
  eexists. split; [reflexivity |]. split.
  - now rewrite length_map.
  - apply Forall_map. eapply Forall_impl; [| exact Hru].
    cbn. intros row Hrow. now rewrite length_map.
Qed.

End GaussTotal.

Lemma length_clip_row_all (s : float64) (row : vec) :
  length (clip_row s None row) = length row.
Proof. unfold clip_row. apply length_map. Qed.

Lemma well_formed_prepared (self : Impvfits) (st : pystate)
  (sigmacut : option float64) :
  well_formed self st ->
  let data_v :=
    slice_cols None
      (squeeze (clipped_copy (nth (data self) (heap st) (A1 [])) sigmacut None))
  in
  length data_v = nv self /\ uniform (nx self) data_v.
Proof.
  intros (_ & _ & _ & _ & _ & Hlen & Hu & _) data_v. unfold data_v.
  rewrite prepared_rows. cbn [slice_cols].
  destruct sigmacut as [s |]; [| now split].
  destruct (truthy (Some s)); [| now split].
  split; [now rewrite length_map |].
  apply Forall_map. eapply Forall_impl; [| exact Hu].
  cbn beta. intros row Hrow. now rewrite length_clip_row_all.
Qed.

Section GaussCall.

Context {F : Fitfuncs}.

Lemma gauss_call_total (self : Impvfits) (s rho : float64)
  (highfcut : option float64) (fit_vlim : list float64) (st : pystate) :
  fit_returns F ->
  well_formed self st -> multibeam self = false -> res_off self = Some rho ->
  exists a' arr,
    beam_deconvolution self (Some s) highfcut "gauss" [] fit_vlim st
    = ({| heap := heap st
                  ++ [a'; nth (xaxis self) (heap st) (A1 [])] ++ [arr];
          stdout := stdout st;
          data_deconv := Some (length (heap st) + 2) |}, Ok RNone).
Proof.
  intros Hfit Hwf Hmb Hres.
  destruct (well_formed_prepared self st (Some s) Hwf) as [Hplen Hpu].
  destruct Hwf as (Hn & Hd & Hx & Hnv & Hnx & Hlen & Hu & Hxl).
  rewrite beam_deconvolution_steps by assumption.
  cbn [fit_window]. cbn zeta.
  unfold get_res_off. rewrite Hmb, Hres.
  cbn [option_map rbind require_number String.eqb Ascii.eqb Bool.eqb].
  set (x := as_vec (nth (xaxis self) (heap st) (A1 []))) in *.
  assert (Hxne : x <> []) by (intros E; rewrite E in Hxl; cbn in Hxl; lia).
  destruct (gauss_solution_total Hfit self s rho x x _ Hmb Hxne Hxne Hplen)
    as (d & Hsol & Hdl & Hdu); [lia | now rewrite Hxl |].
  rewrite Hsol, store_result_eq.
  rewrite Hxl in Hdu. rewrite (reshape_uniform _ _ _ _ Hdu Hdl).
  do 2 eexists. unfold with_heap. cbn [heap stdout data_deconv].
  rewrite <- app_assoc, length_app. cbn [length app]. reflexivity.
Qed.

Lemma gauss_call_none (self : Impvfits) (rho : float64)
  (highfcut : option float64) (fit_vlim : list float64) (st : pystate) :
  well_formed self st -> multibeam self = false -> res_off self = Some rho ->
  beam_deconvolution self None highfcut "gauss" [] fit_vlim st
  = ({| heap := heap st ++ [nth (data self) (heap st) (A1 []);
                            nth (xaxis self) (heap st) (A1 [])];
        stdout := stdout st;
        data_deconv := data_deconv st |}, Raise TypeError).
Proof.
  intros Hwf Hmb Hres.
  destruct (well_formed_prepared self st None Hwf) as [Hplen Hpu].
  destruct Hwf as (Hn & Hd & Hx & Hnv & Hnx & Hlen & Hu & Hxl).
  rewrite beam_deconvolution_steps by assumption.
  cbn [fit_window]. cbn zeta.
  unfold get_res_off. rewrite Hmb, Hres.
  cbn [option_map rbind require_number String.eqb Ascii.eqb Bool.eqb].
  cbn [clipped_copy] in *.
  unfold gauss_solution, gauss_rows, gauss_params.
  cbn [slice_cols] in *.
  destruct (squeeze (nth (data self) (heap st) (A1 []))) as [| row rows];
    [cbn in Hlen; lia |].
  inversion Hu as [| ? ? Hrow _]; subst.
  destruct row as [| d0 ds]; [cbn in Hrow; lia |].
  reflexivity.
Qed.


End GaussCall.

Lemma test_image_well_formed (n : Z) (rows : matrix) (offsets : vec) :
  (n = 2 \/ n = 3)%Z -> length rows = 2%nat -> (2 <= length offsets)%nat ->
  uniform (length offsets) rows ->
  well_formed (test_image n offsets) (test_state rows offsets).
Proof.
  intros Hn Hr Ho Hu. unfold well_formed. cbn.
  repeat split; try assumption; lia.
Qed.

Lemma constant_fit_returns (p : params) : fit_returns (constant_fit p).
Proof. intros x d e q. now exists p. Qed.


Lemma zero_row_deconvolves_to_zero_witness :
  exists st',
    beam_deconvolution (F := constant_fit (f1, f0, f1))
      (test_image 2 [f0; f1]) (Some f1) (Some f2) "gauss" [] []
      (test_state [[f0; f0]; [f1; f0]] [f0; f1])
    = (st', Ok RNone)
    /\ exists l out,
         data_deconv st' = Some l
         /\ nth_error (heap st') l = Some out
         /\ nth_error (squeeze out) 0 = Some [f0; f0].
Proof.
  destruct (gauss_call_total (F := constant_fit (f1, f0, f1))
              (test_image 2 [f0; f1]) f1 f1 (Some f2) []
              (test_state [[f0; f0]; [f1; f0]] [f0; f1]))
    as (a' & arr & Hcall).
  - apply constant_fit_returns.
  - apply test_image_well_formed;
      [now left | reflexivity | cbn; lia | repeat constructor].
  - reflexivity.
  - reflexivity.
  - eexists. split; [exact Hcall |].
    eapply (zero_row_deconvolves_to_zero (F := constant_fit (f1, f0, f1))
              (test_image 2 [f0; f1]) (Some f1) (Some f2) [] []
              (test_state [[f0; f0]; [f1; f0]] [f0; f1]) _
              (Scalar f1) 0 [f0; f0]).
    + cbn. lia.
    + cbn. lia.
    + reflexivity.
    + exists 1%R. split; [reflexivity | lra].
    + exists 1%R. split; [reflexivity | lra].
    + reflexivity.
    + repeat constructor.
    + cbn. lia.
    + exact Hcall.
Defined.

(** ** The gauss path on a multi-beam image *)

Lemma ibc2_mismatch {A B} (f : A -> B -> A) (xs : list A) (ys : list B) :
  length ys <> length xs -> length ys <> 1%nat ->
  ibc2 f xs ys = Raise ValueError.
Proof.
  intros Hne H1. unfold ibc2.
  apply Nat.eqb_neq in Hne. rewrite Hne.
  destruct ys as [| y [| y' ys]]; [reflexivity | cbn in H1; lia | reflexivity].
Qed.

Lemma to_flux_per_pixel_multibeam (self : Impvfits) (rs : vec)
  (d : matrix) (n : nat) :
  multibeam self = true -> length rs = nv self -> length d = nv self ->
  uniform n d -> (2 <= nv self)%nat -> n <> nv self ->
  to_flux_per_pixel self (Vector rs) d = Raise ValueError.
Proof.
  intros Hmb Hrs Hd Hu Hnv Hne. unfold to_flux_per_pixel, ibc2d.
  rewrite Hmb. cbn [beam_area_of bmap np_tile].
  unfold matrix, vec in *.
  rewrite length_map, repeat_length. rewrite Hd, Nat.eqb_refl.
  destruct d as [| row d]; [cbn in Hd; lia |].
  destruct (nv self) as [| k] eqn:Hk; [lia |].
  cbn [repeat map combine mapM fst snd].
  inversion Hu as [| ? ? Hrow _]; subst.
  rewrite ibc2_mismatch; [reflexivity | |];
    rewrite !length_map, Hrs; lia.
Qed.

Lemma get_res_off_multibeam (self : Impvfits) (rows : list params) :
  multibeam self = true -> beam self = BeamTable rows ->
  length rows = nv self ->
  exists rs, get_res_off self = Ok (Some (Vector rs)) /\ length rs = nv self.
Proof.
  intros Hmb Hb Hlen. unfold get_res_off. rewrite Hmb, Hb.
  destruct (pa self) as [p |].
  - destruct (mapM_total
                (fun i => r <- py_index rows i ;;
                          let '(bmaj, bmin, bpa) := r in
                          Ok (get_1dresolution p bmaj bmin bpa))
                (seq 0 (nv self))) as [rs Hrs].
    { intros i Hi. apply in_seq in Hi.
      destruct (py_index_lt rows i) as [[[a b] c] Hr]; [lia |].
      rewrite Hr. cbn. now eexists. }
    rewrite Hrs. cbn [rbind]. exists rs. split; [reflexivity |].
    apply mapM_length in Hrs. now rewrite length_seq in Hrs.
  - eexists. split; [reflexivity |]. now rewrite length_map.
Qed.

Section MultibeamGauss.

Context {F : Fitfuncs}.

Lemma gauss_solution_multibeam (self : Impvfits) (sigmacut : option float64)
  (xaxis_v xfull : vec) (data_v : matrix) (rs : vec) (sigma : bval) :
  multibeam self = true -> length rs = nv self ->
  (2 <= nv self)%nat -> length xfull <> nv self ->
  exists e,
    gauss_solution self sigmacut xaxis_v xfull data_v (Vector rs) sigma
    = Raise e.
Proof.
  intros Hmb Hrs Hnv Hne. unfold gauss_solution.
  destruct (gauss_rows self sigmacut xaxis_v xfull data_v sigma)
    as [d | e] eqn:Hrows; [| now exists e].
  destruct (gauss_rows_shape _ _ _ _ _ _ _ Hrows) as [Hdl Hdu].
  cbn [rbind]. exists ValueError.
  now apply to_flux_per_pixel_multibeam with (n := length xfull).
Qed.

Lemma multibeam_gauss_no_result (self : Impvfits) (rows : list params)
  (sigmacut highfcut : option float64) (fit_xlim fit_vlim : list float64)
  (st : pystate) :
  well_formed self st -> multibeam self = true ->
  beam self = BeamTable rows -> length rows = nv self ->
  nx self <> nv self ->
  exists st' e,
    beam_deconvolution self sigmacut highfcut "gauss" fit_xlim fit_vlim st
    = (st', Raise e)
    /\ data_deconv st' = data_deconv st.
Proof.
  intros Hwf Hmb Hb Hlen Hne.
  destruct Hwf as (Hn & Hd & Hx & Hnv & Hnx & Hdl & Hu & Hxl).
  rewrite beam_deconvolution_steps by assumption. cbn zeta.
  destruct (fit_window _ fit_xlim) as [[w xaxis_v] | e].
  2: { do 2 eexists. split; reflexivity. }
  destruct (get_res_off_multibeam self rows Hmb Hb Hlen) as (rs & Hres & Hrs).
  rewrite Hres. cbn [rbind require_number String.eqb Ascii.eqb Bool.eqb].
  match goal with
  | |- context [gauss_solution self sigmacut ?xa ?xf ?dv (Vector rs) ?sg] =>
      destruct (gauss_solution_multibeam self sigmacut xa xf dv rs sg)
        as [e He]; [assumption | assumption | assumption | now rewrite Hxl |]
  end.
  rewrite He. do 2 eexists. split; reflexivity.
Qed.

Lemma gauss_rows_total_vector (self : Impvfits) (s : float64)
  (xaxis_v xfull : vec) (data_v : matrix) (sigmas : vec) :
  fit_returns F ->
  xaxis_v <> [] -> xfull <> [] ->
  length data_v = nv self -> (0 < nv self)%nat ->
  uniform (length xaxis_v) data_v -> length sigmas = nv self ->
  exists rows,
    gauss_rows self (Some s) xaxis_v xfull data_v (Vector sigmas) = Ok rows.
Proof.
  intros Hfit Hxa Hxf Hlen Hpos Hu Hs.
  destruct (gauss_params_total Hfit s xaxis_v data_v) as (g0 & Hg & Hg_len);
    [destruct data_v; [cbn in Hlen; lia | discriminate] | assumption
    | assumption |].
  unfold gauss_rows. rewrite Hg. cbn [rbind]. cbn zeta.
  rewrite replace_failed_rows.
  unfold matrix, vec in *.
  rewrite deconv_sig_vector by (rewrite !length_map; lia).
  cbn [rbind]. unfold zero_division.
  rewrite !length_map2, !length_map.
  replace (Nat.min (length g0) (length sigmas)) with (length g0) by lia.
  rewrite ?Nat.min_id, Nat.eqb_refl. cbn [rbind].
  apply mapM_total. intros i Hi. apply in_seq in Hi.
  apply deconv_row_total;
    rewrite ?length_map2, ?length_map, ?length_map2, ?length_map,
      ?Nat.min_id;
    try assumption; lia.
Qed.

Lemma multibeam_gauss_value_error (self : Impvfits) (rows : list params)
  (s : float64) (highfcut : option float64) (fit_vlim : list float64)
  (st : pystate) :
  fit_returns F ->
  well_formed self st -> multibeam self = true ->
  beam self = BeamTable rows -> length rows = nv self ->
  nx self <> nv self ->
  exists st',
    beam_deconvolution self (Some s) highfcut "gauss" [] fit_vlim st
    = (st', Raise ValueError)
    /\ data_deconv st' = data_deconv st.
Proof.
  intros Hfit Hwf Hmb Hb Hlen Hne.
  destruct (well_formed_prepared self st (Some s) Hwf) as [Hplen Hpu].
  destruct Hwf as (Hn & Hd & Hx & Hnv & Hnx & Hdl & Hu & Hxl).
  rewrite beam_deconvolution_steps by assumption.
  cbn [fit_window]. cbn zeta.
  destruct (get_res_off_multibeam self rows Hmb Hb Hlen) as (rs & Hres & Hrs).
  rewrite Hres. cbn [rbind require_number String.eqb Ascii.eqb Bool.eqb].
  set (x := as_vec (nth (xaxis self) (heap st) (A1 []))) in *.
  assert (Hxne : x <> []) by (intros E; rewrite E in Hxl; cbn in Hxl; lia).
  unfold gauss_solution. cbn [sigma_beam_fft_of bmap].
  match goal with
  | |- context [gauss_rows self (Some s) x x ?dv (Vector ?sg)] =>
      destruct (gauss_rows_total_vector self s x x dv sg)
        as [d Hrows];
      [assumption | assumption | assumption | assumption | lia
      | now rewrite Hxl | now rewrite length_map |]
  end.
  rewrite Hrows. cbn [rbind].
  destruct (gauss_rows_shape _ _ _ _ _ _ _ Hrows) as [Hrl Hru].
  rewrite (to_flux_per_pixel_multibeam self rs d (length x));
    try assumption; [| now rewrite Hxl].
  eexists. split; reflexivity.
Qed.

End MultibeamGauss.

Lemma test_image_multibeam_well_formed (n : Z) (rows : matrix)
  (offsets : vec) :
  (n = 2 \/ n = 3)%Z -> length rows = 2%nat -> (2 <= length offsets)%nat ->
  uniform (length offsets) rows ->
  well_formed (test_image_multibeam n offsets) (test_state rows offsets).
Proof.
  intros Hn Hr Ho Hu. unfold well_formed. cbn.
  repeat split; try assumption; lia.
Qed.

(** C10, on a multi-beam image.  The image has two channels of three
    offsets, a table with one beam per channel and the position angle
    given; it is well formed.  For every number given as [sigmacut]:
    with a fitting routine that answers, the call in gauss mode raises
    [ValueError] at the change of units ([np.tile(beam_area, (nv, 1))]
    has [nv] columns, the rows of [d_deconv] have [nx]) and stores
    nothing; whatever the fitting routine, the cutoff and the windows, the
    call raises and stores nothing.  The same data with a single beam
    gives a result.  The claim has the gauss path give a result for every
    valid image once [sigmacut] is a number. *)
Theorem multibeam_gauss_call_raises (s : float64) :
  well_formed (test_image_multibeam 2 [Fin (-1); Fin 0; Fin 1])
    (test_state [[Fin 0; Fin 1; Fin 0]; [Fin 0; Fin 1; Fin 0]]
       [Fin (-1); Fin 0; Fin 1])
  /\ (forall p : params, exists st',
        beam_deconvolution (F := constant_fit p)
          (test_image_multibeam 2 [Fin (-1); Fin 0; Fin 1])
          (Some s) (Some f2) "gauss" [] []
          (test_state [[Fin 0; Fin 1; Fin 0]; [Fin 0; Fin 1; Fin 0]]
             [Fin (-1); Fin 0; Fin 1])
        = (st', Raise ValueError)
        /\ data_deconv st' = None)
  /\ (forall (F : Fitfuncs) (highfcut : option float64)
        (fit_xlim fit_vlim : list float64), exists st' e,
        beam_deconvolution (F := F)
          (test_image_multibeam 2 [Fin (-1); Fin 0; Fin 1])
          (Some s) highfcut "gauss" fit_xlim fit_vlim
          (test_state [[Fin 0; Fin 1; Fin 0]; [Fin 0; Fin 1; Fin 0]]
             [Fin (-1); Fin 0; Fin 1])
        = (st', Raise e)
        /\ data_deconv st' = None)
  /\ (forall p : params, exists st' l,
        beam_deconvolution (F := constant_fit p)
          (test_image 2 [Fin (-1); Fin 0; Fin 1])
          (Some s) (Some f2) "gauss" [] []
          (test_state [[Fin 0; Fin 1; Fin 0]; [Fin 0; Fin 1; Fin 0]]
             [Fin (-1); Fin 0; Fin 1])
        = (st', Ok RNone)
        /\ data_deconv st' = Some l).
Proof.
  assert (Hwf : well_formed
                  (test_image_multibeam 2 [Fin (-1); Fin 0; Fin 1])
                  (test_state [[Fin 0; Fin 1; Fin 0]; [Fin 0; Fin 1; Fin 0]]
                     [Fin (-1); Fin 0; Fin 1])).
  { apply test_image_multibeam_well_formed;
      [now left | reflexivity | cbn; lia | repeat constructor]. }
  split; [exact Hwf |]. split; [| split].
  - intros p.
    apply (multibeam_gauss_value_error (F := constant_fit p)
             (test_image_multibeam 2 [Fin (-1); Fin 0; Fin 1])
             [(f1, f1, f0); (f1, f1, f0)]);
      [apply constant_fit_returns | exact Hwf | reflexivity
      | reflexivity | reflexivity | cbn; lia].
  - intros F highfcut fit_xlim fit_vlim.
    apply (multibeam_gauss_no_result (F := F)
             (test_image_multibeam 2 [Fin (-1); Fin 0; Fin 1])
             [(f1, f1, f0); (f1, f1, f0)]);
      [exact Hwf | reflexivity | reflexivity | reflexivity
      | cbn; lia].
  - intros p.
    destruct (gauss_call_total (F := constant_fit p)
                (test_image 2 [Fin (-1); Fin 0; Fin 1]) s f1 (Some f2) []
                (test_state [[Fin 0; Fin 1; Fin 0]; [Fin 0; Fin 1; Fin 0]]
                   [Fin (-1); Fin 0; Fin 1]))
      as (a' & arr & Hcall);
      [apply constant_fit_returns
      | apply test_image_well_formed;
          [now left | reflexivity | cbn; lia | repeat constructor]
      | reflexivity | reflexivity |].
    do 2 eexists. split; [exact Hcall | reflexivity].
Qed.

(** ** The numerical modes on a well-formed single-beam image *)

Lemma mapM_pure {A B} (f : A -> res B) (g : A -> B) (l : list A) :
  (forall a, In a l -> f a = Ok (g a)) -> mapM f l = Ok (map g l).
Proof.
  induction l as [| x l IH]; intros H; cbn; [reflexivity |].
  rewrite H by now left. cbn.
  rewrite IH by (intros a Ha; apply H; now right). reflexivity.
Qed.

Lemma bc2_same_length {A B C} (f : A -> B -> C) (xs : list A) (ys : list B) :
  length xs = length ys -> bc2 f xs ys = Ok (map2 f xs ys).
Proof. intros H. unfold bc2. now rewrite H, Nat.eqb_refl. Qed.

Lemma ibc2_same_length {A B} (f : A -> B -> A) (xs : list A) (ys : list B) :
  length ys = length xs -> ibc2 f xs ys = Ok (map2 f xs ys).
Proof. intros H. unfold ibc2. now rewrite H, Nat.eqb_refl. Qed.

Lemma in_combine_lengths {A B} (n : nat) (m1 : list (list A))
  (m2 : list (list B)) (p : list A * list B) :
  rows_of_length n m1 -> rows_of_length n m2 -> In p (combine m1 m2) ->
  length (fst p) = length (snd p).
Proof.
  intros H1 H2 Hin. destruct p as [r1 r2]. cbn.
  unfold rows_of_length in *. rewrite Forall_forall in H1, H2.
  rewrite (H1 r1) by (eapply in_combine_l; eassumption).
  rewrite (H2 r2) by (eapply in_combine_r; eassumption).
  reflexivity.
Qed.

Lemma bc2d_same_shape {A B C} (f : A -> B -> C) (n : nat)
  (m1 : list (list A)) (m2 : list (list B)) :
  length m1 = length m2 -> rows_of_length n m1 -> rows_of_length n m2 ->
  bc2d f m1 m2 = Ok (map2 (map2 f) m1 m2).
Proof.
  intros Hlen H1 H2. unfold bc2d. rewrite Hlen, Nat.eqb_refl.
  unfold map2 at 1. apply mapM_pure. intros p Hp.
  apply bc2_same_length. eapply in_combine_lengths; eassumption.
Qed.

Lemma ibc2d_same_shape {A B} (f : A -> B -> A) (n : nat)
  (m1 : list (list A)) (m2 : list (list B)) :
  length m2 = length m1 -> rows_of_length n m1 -> rows_of_length n m2 ->
  ibc2d f m1 m2 = Ok (map2 (map2 f) m1 m2).
Proof.
  intros Hlen H1 H2. unfold ibc2d. rewrite Hlen, Nat.eqb_refl.
  unfold map2 at 1. apply mapM_pure. intros p Hp.
  apply ibc2_same_length. symmetry.
  eapply in_combine_lengths; eassumption.
Qed.

Lemma length_fftshift {A} (x : list A) : length (fftshift x) = length x.
Proof.
  unfold fftshift. rewrite length_app, length_skipn, length_firstn.
  assert (length x / 2 <= length x)%nat by (apply Nat.Div0.div_le_upper_bound; lia).
  lia.
Qed.

Lemma length_dft (sign : R) (x : list cplx) : length (dft sign x) = length x.
Proof. unfold dft. now rewrite length_map, length_seq. Qed.

Lemma length_fft_row (x : list cplx) : length (fft_row x) = length x.
Proof. apply length_dft. Qed.

Lemma length_ifft_row (x : list cplx) : length (ifft_row x) = length x.
Proof. unfold ifft_row. now rewrite length_map, length_dft. Qed.

Lemma fft_rows_shape (n : nat) (m : matrix) :
  uniform n m ->
  length (fft_rows m) = length m /\ rows_of_length n (fft_rows m).
Proof.
  intros Hu. unfold fft_rows. split; [apply length_map |].
  apply Forall_map. eapply Forall_impl; [| exact Hu].
  cbn beta. intros row Hrow.
  now rewrite length_fftshift, length_fft_row, length_map.
Qed.

Lemma rows_of_length_repeat {A} (n k : nat) (row : list A) :
  length row = n -> rows_of_length n (repeat row k).
Proof.
  intros H. apply Forall_forall. intros r Hr.
  apply repeat_spec in Hr. now subst.
Qed.

Lemma rows_of_length_map2 {A B C} (f : A -> B -> C) (n : nat)
  (m1 : list (list A)) (m2 : list (list B)) :
  rows_of_length n m1 -> rows_of_length n m2 ->
  rows_of_length n (map2 (map2 f) m1 m2).
Proof.
  intros H1 H2. unfold map2 at 1. apply Forall_map, Forall_forall.
  intros p Hp. rewrite length_map2.
  pose proof (in_combine_lengths n m1 m2 p H1 H2 Hp) as Heq.
  unfold rows_of_length in H1. rewrite Forall_forall in H1.
  destruct p as [r1 r2]. cbn in *.
  rewrite <- Heq, (H1 r1) by (eapply in_combine_l; eassumption). lia.
Qed.

Lemma length_single_beam (xfull : vec) (rho : float64) :
  length (single_beam xfull rho) = length xfull.
Proof. unfold single_beam, normalize, gauss1d. now rewrite !length_map. Qed.

Section NumericCall.

Context {F : Fitfuncs}.

(** The state in which the filter of a numerical mode starts, and the
    divided spectrum it starts from. *)
Lemma numerical_solution_start (three_axes : bool) (self : Impvfits)
  (highfcut : option float64) (solmode : string) (xfull : vec)
  (data_v : matrix) (sigma : bval) (rho : float64) (st1 : pystate) :
  multibeam self = false -> res_off self = Some rho ->
  length data_v = nv self -> uniform (length xfull) data_v ->
  let beam_fft := fft_rows (repeat (single_beam xfull rho) (nv self)) in
  let data_fft := fft_rows data_v in
  let d_deconv_fft := map2 (map2 Cplx.div) data_fft beam_fft in
  let kx := fftshift (fftfreq (nx self) (delx self)) in
  let kkx := repeat kx (length (fftshift (fftfreq (nv self) (delv self)))) in
  let finish := fun d => store_result three_axes self (magnitude_of_ifft d) in
  numerical_solution three_axes self highfcut solmode xfull data_v sigma st1
  = (if (solmode =? "nullcut")%string then
       d <~ lift (nullcut_filter self kx kkx data_fft sigma highfcut
                    d_deconv_fft) ;;
       finish d
     else if (solmode =? "highfcut")%string then
       match highfcut with
       | None => _ <~ print msg_highfcut ;; ret (RInt (-1))
       | Some hf =>
           d <~ lift (highfcut_filter kkx sigma hf d_deconv_fft) ;; finish d
       end
     else if (solmode =? "gauss-fc")%string then
       d <~ lift (gauss_fc_filter self kx d_deconv_fft beam_fft) ;; finish d
     else if (solmode =? "taper")%string then
       match highfcut with
       | None => _ <~ print msg_taper ;; ret (RInt (-1))
       | Some hf =>
           d <~ lift (taper_filter self kx sigma hf d_deconv_fft) ;; finish d
       end
     else _ <~ print msg_solmode ;; ret (RInt 0)) st1.
Proof.
  intros Hmb Hres Hlen Hu. cbn zeta.
  unfold numerical_solution, beam_array. rewrite Hmb, Hres.
  fold (single_beam xfull rho).
  unfold bind at 1. unfold lift at 1.
  unfold bind at 1. unfold lift at 1.
  destruct (fft_rows_shape _ _ Hu) as [Hdl Hdu].
  assert (Hbu : uniform (length xfull) (repeat (single_beam xfull rho) (nv self))).
  { apply rows_of_length_repeat, length_single_beam. }
  destruct (fft_rows_shape _ _ Hbu) as [Hbl Hbu'].
  rewrite (bc2d_same_shape Cplx.div (length xfull)); try assumption.
  - reflexivity.
  - rewrite Hdl, Hbl, repeat_length. assumption.
Qed.

(** C7.  On a well-formed single-beam image, a call in mode [highfcut]
    or [taper] with [highfcut=None] prints the error that asks for a valid
    [highfcut] and returns -1, and [data_deconv] is what it was.  On any
    image and with any window, such a call stores no result. *)
Theorem missing_highfcut_is_an_error (self : Impvfits) (rho : float64)
  (sigmacut : option float64) (solmode : string) (fit_vlim : list float64)
  (st : pystate) :
  well_formed self st -> multibeam self = false -> res_off self = Some rho ->
  solmode = "highfcut"%string \/ solmode = "taper"%string ->
  (exists st',
     beam_deconvolution self sigmacut None solmode [] fit_vlim st
     = (st', Ok (RInt (-1)))
     /\ stdout st'
        = stdout st ++ [if (solmode =? "highfcut")%string
                        then msg_highfcut else msg_taper]
     /\ data_deconv st' = data_deconv st)
  /\ (forall (self' : Impvfits) (fit_xlim : list float64),
        no_result
          (beam_deconvolution self' sigmacut None solmode fit_xlim fit_vlim)).
Proof.
  intros Hwf Hmb Hres Hmode.
  split; [| intros; now apply no_result_missing_highfcut].
  destruct (well_formed_prepared self st sigmacut Hwf) as [Hplen Hpu].
  destruct Hwf as (Hn & Hd & Hx & Hnv & Hnx & Hlen & Hu & Hxl).
  rewrite beam_deconvolution_steps by assumption.
  cbn [fit_window]. cbn zeta.
  unfold get_res_off. rewrite Hmb, Hres.
  cbn [option_map rbind require_number].
  assert (Hg : (solmode =? "gauss")%string = false)
    by (destruct Hmode; subst; reflexivity).
  rewrite Hg.
  rewrite (numerical_solution_start _ _ _ _ _ _ _ rho); try assumption.
  2: { now rewrite Hxl. }
  destruct Hmode; subst solmode; cbn [String.eqb Ascii.eqb Bool.eqb];
    eexists; (split; [reflexivity | split; reflexivity]).
Qed.

End NumericCall.

Lemma missing_highfcut_is_an_error_witness :
  exists st',
    beam_deconvolution (F := constant_fit (f1, f0, f1))
      (test_image 2 [f0; f1]) None None "highfcut" [] []
      (test_state [[f0; f1]; [f1; f0]] [f0; f1])
    = (st', Ok (RInt (-1)))
    /\ stdout st' = [msg_highfcut]
    /\ data_deconv st' = None.
Proof.
  apply (missing_highfcut_is_an_error (F := constant_fit (f1, f0, f1))
           (test_image 2 [f0; f1]) f1 None "highfcut" []
           (test_state [[f0; f1]; [f1; f0]] [f0; f1])).
  - apply test_image_well_formed;
      [now left | reflexivity | cbn; lia | repeat constructor].
  - reflexivity.
  - reflexivity.
  - now left.
Defined.

(** ** Finite complex numbers and the transform of two samples *)

Lemma cadd_fin (a b c d : R) :
  Cplx.add (fin a b) (fin c d) = fin (a + c) (b + d).
Proof. reflexivity. Qed.

Lemma cmul_fin (a b c d : R) :
  Cplx.mul (fin a b) (fin c d) = fin (a * c + - (b * d)) (a * d + b * c).
Proof. reflexivity. Qed.

Lemma twiddle_0_l (sign : R) (n N : nat) : twiddle sign 0 n N = fin 1 0.
Proof.
  unfold twiddle, fin. cbn [INR].
  replace (sign * (2 * PI * 0 * INR n / INR N))%R with 0%R
    by (unfold Rdiv; ring).
  now rewrite cos_0, sin_0.
Qed.

Lemma twiddle_0_r (sign : R) (k N : nat) : twiddle sign k 0 N = fin 1 0.
Proof.
  unfold twiddle, fin. cbn [INR].
  replace (sign * (2 * PI * INR k * 0 / INR N))%R with 0%R
    by (unfold Rdiv; ring).
  now rewrite cos_0, sin_0.
Qed.

Lemma twiddle_half (sign : R) :
  sign = 1%R \/ sign = (-1)%R -> twiddle sign 1 1 2 = fin (-1) 0.
Proof.
  intros Hs. unfold twiddle, fin. cbn [INR].
  replace (sign * (2 * PI * 1 * 1 / (1 + 1)))%R with (sign * PI)%R by field.
  destruct Hs as [-> | ->].
  - rewrite Rmult_1_l, cos_PI, sin_PI. reflexivity.
  - replace (-1 * PI)%R with (- PI)%R by ring.
    rewrite cos_neg, sin_neg, cos_PI, sin_PI.
    f_equal. f_equal. ring.
Qed.

Lemma dft_two (sign : R) (a b c d : R) :
  sign = 1%R \/ sign = (-1)%R ->
  dft sign [fin a b; fin c d]
  = [fin (0 + (a * 1 + - (b * 0)) + (c * 1 + - (d * 0)))
         (0 + (a * 0 + b * 1) + (c * 0 + d * 1));
     fin (0 + (a * 1 + - (b * 0)) + (c * -1 + - (d * 0)))
         (0 + (a * 0 + b * 1) + (c * 0 + d * -1))].
Proof.
  intros Hs. unfold dft. cbn [length seq map combine fst snd].
  rewrite !twiddle_0_l, !twiddle_0_r, (twiddle_half sign Hs).
  reflexivity.
Qed.

Lemma fin_eq (a b c d : R) : a = c -> b = d -> fin a b = fin c d.
Proof. now intros -> ->. Qed.

Lemma fft_two_real (a c : R) :
  fft_row [fin a 0; fin c 0] = [fin (a + c) 0; fin (a - c) 0].
Proof.
  unfold fft_row. rewrite dft_two by now right.
  apply (f_equal2 (@cons cplx)); [apply fin_eq; ring |].
  apply (f_equal2 (@cons cplx)); [apply fin_eq; ring | reflexivity].
Qed.

Lemma ifft_two_real (a c : R) :
  ifft_row [fin a 0; fin c 0] = [fin ((a + c) / 2) 0; fin ((a - c) / 2) 0].
Proof.
  unfold ifft_row. rewrite dft_two by now left.
  cbn [length INR map fst snd fin].
  rewrite !div_fin by lra.
  apply (f_equal2 (@cons cplx)); [apply fin_eq; field |].
  apply (f_equal2 (@cons cplx)); [apply fin_eq; field | reflexivity].
Qed.

Lemma cdiv_real (a c : R) :
  c <> 0%R -> Cplx.div (fin a 0) (fin c 0) = fin (a / c) 0.
Proof.
  intros Hc. unfold Cplx.div, fin.
  cbn [fst snd F64.mul F64.add F64.sub F64.neg].
  assert (c * c + 0 * 0 <> 0)%R by nra.
  rewrite !div_fin by assumption.
  apply fin_eq; field; nra.
Qed.

Lemma cmul_real (a t : R) :
  Cplx.mul (fin a 0) (Cplx.of_real (Fin t)) = fin (a * t) 0.
Proof.
  unfold Cplx.mul, Cplx.of_real, fin, f0.
  cbn [fst snd F64.mul F64.add F64.sub F64.neg].
  apply fin_eq; ring.
Qed.

Lemma cabs_real (a : R) : Cplx.abs (fin a 0) = Fin (Rabs a).
Proof.
  unfold Cplx.abs, fin. cbn [fst snd F64.hypot]. f_equal.
  replace (a * a + 0 * 0)%R with (Rsqr a) by (unfold Rsqr; ring).
  apply sqrt_Rsqr_abs.
Qed.

Lemma shifted_spectrum_two (a c : R) :
  shifted_spectrum [Fin a; Fin c] = [fin (a - c) 0; fin (a + c) 0].
Proof.
  unfold shifted_spectrum. cbn [map]. change (Cplx.of_real (Fin a)) with (fin a 0).
  change (Cplx.of_real (Fin c)) with (fin c 0).
  rewrite fft_two_real. reflexivity.
Qed.

Lemma apply_taper_two (p q t0 t1 : R) :
  apply_taper [fin p 0; fin q 0] [Fin t0; Fin t1]
  = [fin (p * t0) 0; fin (q * t1) 0].
Proof.
  unfold apply_taper, map2. cbn [combine map fst snd].
  now rewrite !cmul_real.
Qed.

Lemma back_to_offsets_two (A B : R) :
  back_to_offsets [fin A 0; fin B 0]
  = [Fin (Rabs ((A - B) / 2)); Fin (Rabs ((A + B) / 2))].
Proof.
  unfold back_to_offsets. rewrite ifft_two_real.
  unfold fftshift. cbn [length Nat.div Nat.divmod fst snd Nat.sub skipn firstn app map].
  now rewrite !cabs_real.
Qed.

Lemma tapered_output_two (b0 b1 t0 t1 d0 d1 : R) :
  (b0 - b1 <> 0)%R -> (b0 + b1 <> 0)%R ->
  tapered_output [Fin b0; Fin b1] [Fin t0; Fin t1] [Fin d0; Fin d1]
  = [Fin (Rabs (((d0 - d1) / (b0 - b1) * t0 - (d0 + d1) / (b0 + b1) * t1) / 2));
     Fin (Rabs (((d0 - d1) / (b0 - b1) * t0 + (d0 + d1) / (b0 + b1) * t1) / 2))].
Proof.
  intros H1 H2. unfold tapered_output.
  rewrite !shifted_spectrum_two. unfold map2 at 1.
  cbn [combine map fst snd]. rewrite !cdiv_real by assumption.
  now rewrite apply_taper_two, back_to_offsets_two.
Qed.

Lemma claimed_taper_output_two (t0 t1 d0 d1 : R) :
  claimed_taper_output [Fin t0; Fin t1] [Fin d0; Fin d1]
  = [Fin (Rabs (((d0 - d1) * t0 - (d0 + d1) * t1) / 2));
     Fin (Rabs (((d0 - d1) * t0 + (d0 + d1) * t1) / 2))].
Proof.
  unfold claimed_taper_output.
  now rewrite shifted_spectrum_two, apply_taper_two, back_to_offsets_two.
Qed.

Lemma taper_outputs_differ (b0 b1 t0 t1 : R) :
  (0 < b1 < b0)%R -> (b0 + b1 = 1)%R -> (0 < t0)%R -> (0 < t1)%R ->
  tapered_output [Fin b0; Fin b1] [Fin t0; Fin t1] [Fin 1; Fin 0]
  <> claimed_taper_output [Fin t0; Fin t1] [Fin 1; Fin 0].
Proof.
  intros Hb Hsum Ht0 Ht1.
  rewrite tapered_output_two by lra. rewrite claimed_taper_output_two.
  intros Heq. apply (f_equal (fun l => nth 1 l NaN)) in Heq.
  cbn [nth] in Heq. inversion Heq as [H2]. clear Heq.
  rewrite Hsum in H2.
  assert (Hq : (1 < 1 / (b0 - b1))%R).
  { apply Rmult_lt_reg_r with (r := (b0 - b1)%R); [lra |].
    replace (1 / (b0 - b1) * (b0 - b1))%R with 1%R by (field; lra). lra. }
  assert (Hgt : (t0 < (1 - 0) / (b0 - b1) * t0)%R).
  { replace ((1 - 0) / (b0 - b1))%R with (1 / (b0 - b1))%R by (field; lra). nra. }
  rewrite !Rabs_right in H2 by (apply Rle_ge; nra || lra).
  lra.
Qed.

(** ** The taper mode *)

Lemma map2_repeat_r {A B C} (g : A -> B -> C) (m : list A) (t : B) (n : nat) :
  length m = n -> map2 g m (repeat t n) = map (fun r => g r t) m.
Proof.
  intros <-. unfold map2. induction m as [| r m IH]; cbn; [reflexivity |].
  now rewrite IH.
Qed.

Lemma length_fftfreq (n : nat) (d : float64) : length (fftfreq n d) = n.
Proof. unfold fftfreq. now rewrite length_map, length_seq. Qed.

Lemma gauss1d_pt_fin (x a mn sig : R) :
  sig <> 0%R ->
  gauss1d_pt (Fin x) (Fin a) (Fin mn) (Fin sig)
  = Fin (a * exp (- ((x + - mn) * (x + - mn) / (2 * (sig * sig))))).
Proof.
  intros Hs. unfold gauss1d_pt, square, f2.
  cbn [F64.sub F64.neg F64.add F64.mul].
  rewrite div_fin by nra. reflexivity.
Qed.

Lemma single_beam_two :
  exists b0 b1 : R,
    single_beam [f0; f1] f1 = [Fin b0; Fin b1]
    /\ (0 < b1 < b0)%R /\ (b0 + b1 = 1)%R.
Proof.
  pose proof sqrt_2ln2_pos as Hq.
  set (s := (1 / (2 * sqrt (2 * ln 2)))%R).
  assert (Hs : (0 < s)%R) by (apply Rdiv_lt_0_compat; lra).
  set (g0 := (1 * exp (- ((0 + - 0) * (0 + - 0) / (2 * (s * s)))))%R).
  set (g1 := (1 * exp (- ((1 + - 0) * (1 + - 0) / (2 * (s * s)))))%R).
  assert (Hg0 : g0 = 1%R).
  { unfold g0. replace (- ((0 + - 0) * (0 + - 0) / (2 * (s * s))))%R with 0%R
      by (field; nra). rewrite exp_0. ring. }
  assert (Hg1 : (0 < g1 < 1)%R).
  { unfold g1. rewrite Rmult_1_l. split; [apply exp_pos |].
    assert (Hpos : (0 < (1 + - 0) * (1 + - 0) / (2 * (s * s)))%R)
      by (apply Rdiv_lt_0_compat; nra).
    pose proof (exp_increasing
                  (- ((1 + - 0) * (1 + - 0) / (2 * (s * s)))) 0 ltac:(lra))
      as Hexp.
    now rewrite exp_0 in Hexp. }
  exists (g0 / (0 + g0 + g1))%R, (g1 / (0 + g0 + g1))%R.
  split; [| split].
  - unfold single_beam. rewrite fwhm_factor_fin. unfold f1, f0.
    rewrite div_fin by lra. fold s.
    unfold gauss1d. cbn [map].
    rewrite !gauss1d_pt_fin by lra. fold g0 g1.
    unfold normalize, np_sum, f0. cbn [fold_left F64.add map].
    rewrite !div_fin by lra. reflexivity.
  - split.
    + apply Rdiv_lt_0_compat; lra.
    + apply Rmult_lt_compat_r; [apply Rinv_0_lt_compat |]; lra.
  - field. lra.
Qed.

Lemma taper_two :
  exists t0 t1 : R,
    gauss1d (fftshift (fftfreq 2 f1)) f1 f0
      (fwhm_factor / (f1 * np_pi * f2) * f2)%f64
    = [Fin t0; Fin t1]
    /\ (0 < t0)%R /\ (0 < t1)%R.
Proof.
  unfold f1 at 3. rewrite sigma_beam_fft_fin by lra.
  pose proof (beam_sigma_fft_neq_0 1 ltac:(lra)) as Hsig.
  unfold f2. cbn [F64.mul].
  unfold fftfreq, fftshift, f1.
  cbn [seq map length Nat.div Nat.divmod fst snd Nat.sub Nat.add Nat.ltb
         Nat.leb skipn firstn app INR Z.of_nat Z.sub Z.add Z.opp
         Pos.of_succ_nat Pos.succ Z.pos_sub Pos.pred_double F64.mul].
  rewrite div_fin by lra. cbn [F64.mul].
  unfold gauss1d, f0. cbn [map].
  rewrite !gauss1d_pt_fin by lra.
  do 2 eexists. split; [reflexivity |].
  split; rewrite Rmult_1_l; apply exp_pos.
Qed.

Lemma length_tapered_output (n : nat) (beam_row taper row : vec) :
  length beam_row = n -> length taper = n -> length row = n ->
  length (tapered_output beam_row taper row) = n.
Proof.
  intros Hb Ht Hr. unfold tapered_output, back_to_offsets, apply_taper,
    shifted_spectrum.
  rewrite length_map, length_fftshift, length_ifft_row, !length_map2,
    !length_fftshift, !length_fft_row, !length_map.
  lia.
Qed.

Section TaperMode.

Context {F : Fitfuncs}.

Lemma taper_filter_rows (self : Impvfits) (rho hf : float64) (xfull : vec)
  (data_v : matrix) :
  length xfull = nx self -> length data_v = nv self ->
  uniform (nx self) data_v ->
  exists d,
    taper_filter self (fftshift (fftfreq (nx self) (delx self)))
      (sigma_beam_fft_of (Scalar rho)) hf
      (map2 (map2 Cplx.div) (fft_rows data_v)
         (fft_rows (repeat (single_beam xfull rho) (nv self))))
    = Ok d
    /\ magnitude_of_ifft d
       = map (tapered_output (single_beam xfull rho) (taper_of self rho hf))
           data_v.
Proof.
  intros Hx Hlen Hu.
  unfold taper_filter, taper_profile. cbn [sigma_beam_fft_of bmap rbind].
  fold (taper_of self rho hf).
  assert (Hbu : uniform (nx self) (repeat (single_beam xfull rho) (nv self))).
  { apply rows_of_length_repeat. now rewrite length_single_beam. }
  destruct (fft_rows_shape _ _ Hu) as [Hdl Hdu].
  destruct (fft_rows_shape _ _ Hbu) as [Hbl Hbu'].
  assert (Htl : length (taper_of self rho hf) = nx self).
  { unfold taper_of, gauss1d.
    now rewrite length_map, length_fftshift, length_fftfreq. }
  rewrite (ibc2d_same_shape _ (nx self)).
  - eexists. split; [reflexivity |].
    unfold fft_rows at 2. rewrite map_repeat.
    rewrite !map2_repeat_r
      by (rewrite ?length_map2, ?length_map, ?Hdl, ?repeat_length; lia).
    unfold magnitude_of_ifft, fft_rows. rewrite !map_map.
    reflexivity.
  - rewrite repeat_length, length_map2, Hdl, Hbl, repeat_length. lia.
  - now apply rows_of_length_map2.
  - now apply rows_of_length_repeat.
Qed.

(** The taper mode on a well-formed single-beam image: the state the
    call ends in. *)
Lemma taper_call (self : Impvfits) (rho hf : float64)
  (sigmacut : option float64) (fit_vlim : list float64) (st : pystate) :
  well_formed self st -> multibeam self = false -> res_off self = Some rho ->
  let rows :=
    map (tapered_output
           (single_beam (as_vec (nth (xaxis self) (heap st) (A1 []))) rho)
           (taper_of self rho hf))
        (rows_read self sigmacut st) in
  beam_deconvolution self sigmacut (Some hf) "taper" [] fit_vlim st
  = ({| heap :=
          (heap st
           ++ [clipped_copy (nth (data self) (heap st) (A1 [])) sigmacut None;
               nth (xaxis self) (heap st) (A1 [])])
          ++ [if (naxis self =? 3)%Z then A3 rows else A2 rows];
        stdout := stdout st;
        data_deconv := Some (length (heap st) + 2) |}, Ok RNone).
Proof.
  intros Hwf Hmb Hres rows.
  destruct (well_formed_prepared self st sigmacut Hwf) as [Hplen Hpu].
  destruct Hwf as (Hn & Hd & Hx & Hnv & Hnx & Hlen & Hu & Hxl).
  rewrite beam_deconvolution_steps by assumption.
  cbn [fit_window]. cbn zeta.
  unfold get_res_off. rewrite Hmb, Hres.
  cbn [option_map rbind require_number String.eqb Ascii.eqb Bool.eqb].
  fold (rows_read self sigmacut st) in *.
  set (xfull := as_vec (nth (xaxis self) (heap st) (A1 []))) in *.
  rewrite (numerical_solution_start _ _ _ _ _ _ _ rho); try assumption.
  2: { now rewrite Hxl. }
  cbn [String.eqb Ascii.eqb Bool.eqb].
  destruct (taper_filter_rows self rho hf xfull (rows_read self sigmacut st)
              Hxl Hplen Hpu) as (d & Hd_eq & Hmag).
  unfold bind at 1. unfold lift at 1. rewrite Hd_eq.
  rewrite store_result_eq, Hmag.
  rewrite reshape_uniform.
  - unfold with_heap. cbn [heap stdout data_deconv].
    rewrite length_app. cbn [length]. reflexivity.
  - apply Forall_map. eapply Forall_impl; [| exact Hpu].
    cbn beta. intros row Hrow. apply length_tapered_output.
    + now rewrite length_single_beam.
    + unfold taper_of, gauss1d.
      now rewrite length_map, length_fftshift, length_fftfreq.
    + exact Hrow.
  - now rewrite length_map.
Qed.

(** C6, as the code has it.  On a well-formed single-beam image the
    taper mode returns and stores a new array, each row of which is the
    magnitude of the (shifted) inverse transform of: the spectrum of the
    data row, divided by the spectrum of the beam, times the Gaussian
    taper of width [sigmaBeamFFT * highFreqCutoff]. *)
Theorem taper_mode_output (self : Impvfits) (rho hf : float64)
  (sigmacut : option float64) (fit_vlim : list float64) (st : pystate) :
  well_formed self st -> multibeam self = false -> res_off self = Some rho ->
  exists st' l out,
    beam_deconvolution self sigmacut (Some hf) "taper" [] fit_vlim st
    = (st', Ok RNone)
    /\ data_deconv st' = Some l
    /\ (length (heap st) <= l)%nat
    /\ nth_error (heap st') l = Some out
    /\ squeeze out
       = map (tapered_output
                (single_beam (as_vec (nth (xaxis self) (heap st) (A1 []))) rho)
                (taper_of self rho hf))
           (rows_read self sigmacut st).
Proof.
  intros Hwf Hmb Hres.
  pose proof (taper_call self rho hf sigmacut fit_vlim st Hwf Hmb Hres)
    as Hcall.
  cbn zeta in Hcall.
  do 3 eexists. split; [exact Hcall |]. cbn [data_deconv heap].
  split; [reflexivity |]. split; [lia |]. split.
  - rewrite nth_error_app2 by (rewrite length_app; cbn [length]; lia).
    rewrite length_app. cbn [length].
    now rewrite Nat.sub_diag.
  - now destruct (naxis self =? 3)%Z.
Qed.

End TaperMode.

Lemma taper_mode_output_witness :
  exists st' l out,
    beam_deconvolution (F := constant_fit (f1, f0, f1))
      (test_image 2 [f0; f1]) None (Some f2) "taper" [] []
      (test_state [[f1; f0]; [f1; f0]] [f0; f1])
    = (st', Ok RNone)
    /\ data_deconv st' = Some l
    /\ (3 <= l)%nat
    /\ nth_error (heap st') l = Some out
    /\ squeeze out
       = map (tapered_output (single_beam [f0; f1] f1)
                (taper_of (test_image 2 [f0; f1]) f1 f2))
           [[f1; f0]; [f1; f0]].
Proof.
  apply (taper_mode_output (F := constant_fit (f1, f0, f1))
           (test_image 2 [f0; f1]) f1 f2 None []
           (test_state [[f1; f0]; [f1; f0]] [f0; f1])).
  - apply test_image_well_formed;
      [now left | reflexivity | cbn; lia | repeat constructor].
  - reflexivity.
  - reflexivity.
Defined.

(** C6, as the claim has it, fails: on the two-channel image with rows
    [1, 0] over the offsets [0, 1], resolution 1 and [highfcut = 2.], what
    the taper mode stores is not the magnitude of the inverse transform of
    the tapered undivided spectrum. *)
Lemma taper_mode_divides_by_beam_spectrum :
  exists st' l out,
    beam_deconvolution (F := constant_fit (f1, f0, f1))
      (test_image 2 [f0; f1]) None (Some f2) "taper" [] []
      (test_state [[f1; f0]; [f1; f0]] [f0; f1])
    = (st', Ok RNone)
    /\ data_deconv st' = Some l
    /\ nth_error (heap st') l = Some out
    /\ squeeze out
       <> map (claimed_taper_output (taper_of (test_image 2 [f0; f1]) f1 f2))
            [[f1; f0]; [f1; f0]].
Proof.
  pose proof (taper_call (F := constant_fit (f1, f0, f1))
                (test_image 2 [f0; f1]) f1 f2 None []
                (test_state [[f1; f0]; [f1; f0]] [f0; f1])) as Hcall.
  cbn zeta in Hcall.
  do 3 eexists. split; [apply Hcall |].
  - apply test_image_well_formed;
      [now left | reflexivity | cbn; lia | repeat constructor].
  - reflexivity.
  - reflexivity.
  - cbn [data_deconv heap test_state test_image naxis length Nat.add app
         Z.eqb Pos.eqb].
    split; [reflexivity |]. split; [reflexivity |].
    unfold rows_read. cbn [test_image test_state data heap nth
      clipped_copy squeeze slice_cols xaxis as_vec map].
    intros Heq.
    pose proof (f_equal (@hd vec []) Heq) as Hrow. unfold hd in Hrow.
    clear Heq. revert Hrow.
    destruct single_beam_two as (b0 & b1 & Hb & Hb01 & Hsum).
    destruct taper_two as (t0 & t1 & Ht & Ht0 & Ht1).
    unfold taper_of. cbn [test_image nx delx length].
    rewrite Hb, Ht. unfold f1, f0.
    now apply taper_outputs_differ.
Qed.

(** ** The noise cut *)

Lemma clip_pt_idempotent (s x : float64) :
  clip_pt s (clip_pt s x) = clip_pt s x.
Proof.
  unfold clip_pt. destruct (x <? s)%f64 eqn:E.
  - destruct (f0 <? s)%f64; reflexivity.
  - now rewrite E.
Qed.

Lemma clip_pt_bound (s x : float64) :
  clip_pt s x = f0 \/ (clip_pt s x <? s)%f64 = false.
Proof.
  unfold clip_pt. destruct (x <? s)%f64 eqn:E; [now left | now right].
Qed.

Lemma clip_row_parts (s : float64) (lo hi : nat) (row : vec) :
  firstn lo (clip_row s (Some (lo, hi)) row) = firstn lo row
  /\ slice lo hi (clip_row s (Some (lo, hi)) row)
     = map (clip_pt s) (slice lo hi row)
  /\ skipn (lo + (hi - lo)) (clip_row s (Some (lo, hi)) row)
     = skipn (lo + (hi - lo)) row.
Proof.
  unfold clip_row, slice.
  destruct (Nat.le_gt_cases lo (length row)) as [Hle | Hgt].
  - assert (H1 : length (firstn lo row) = lo) by (rewrite length_firstn; lia).
    assert (H2 : length (map (clip_pt s) (firstn (hi - lo) (skipn lo row)))
                 = Nat.min (hi - lo) (length row - lo))
      by now rewrite length_map, length_firstn, length_skipn.
    split; [| split].
    + rewrite firstn_app, H1, Nat.sub_diag, firstn_O, app_nil_r.
      rewrite firstn_firstn, Nat.min_id. reflexivity.
    + rewrite skipn_app, H1, Nat.sub_diag. cbn [skipn].
      rewrite (skipn_all2 (firstn lo row)) by lia. cbn [app].
      rewrite firstn_app, H2.
      destruct (Nat.le_gt_cases (hi - lo) (length row - lo)) as [Hin | Hout].
      * rewrite Nat.min_l by lia. rewrite Nat.sub_diag, firstn_O, app_nil_r.
        apply firstn_all2.
        rewrite length_map, length_firstn, length_skipn. lia.
      * rewrite Nat.min_r by lia.
        rewrite (@skipn_all2 _ (lo + (hi - lo)) row) by lia.
        rewrite firstn_nil, app_nil_r. apply firstn_all2.
        rewrite length_map, length_firstn, length_skipn. lia.
    + rewrite skipn_app, H1.
      rewrite (skipn_all2 (firstn lo row)) by lia. cbn [app].
      replace (lo + (hi - lo) - lo)%nat with (hi - lo)%nat by lia.
      rewrite skipn_app, H2.
      destruct (Nat.le_gt_cases (hi - lo) (length row - lo)) as [Hin | Hout].
      * rewrite Nat.min_l by lia. rewrite Nat.sub_diag. cbn [skipn].
        rewrite skipn_all2
          by (rewrite length_map, length_firstn, length_skipn; lia).
        reflexivity.
      * rewrite (@skipn_all2 _ (lo + (hi - lo)) row) by lia.
        rewrite skipn_nil, app_nil_r. apply skipn_all2.
        rewrite length_map, length_firstn, length_skipn. lia.
  - rewrite (@skipn_all2 _ lo row) by lia.
    rewrite (@skipn_all2 _ (lo + (hi - lo)) row) by lia.
    rewrite firstn_nil. cbn [map app]. rewrite app_nil_r.
    rewrite (firstn_all2 row) by lia.
    split; [apply firstn_all2; lia | split].
    + rewrite skipn_all2 by lia. now rewrite firstn_nil.
    + apply skipn_all2. lia.
Qed.

Lemma clip_row_idempotent (s : float64) (w : option (nat * nat)) (row : vec) :
  clip_row s w (clip_row s w row) = clip_row s w row.
Proof.
  destruct w as [[lo hi] |].
  - destruct (clip_row_parts s lo hi row) as (H1 & H2 & H3).
    unfold clip_row at 1. rewrite H1, H2, H3, map_map.
    unfold clip_row. f_equal. f_equal.
    apply map_ext. intros x. apply clip_pt_idempotent.
  - cbn [clip_row]. rewrite map_map. apply map_ext. intros x.
    apply clip_pt_idempotent.
Qed.

Lemma clip_row_length (s : float64) (w : option (nat * nat)) (row : vec) :
  length (clip_row s w row) = length row.
Proof.
  destruct w as [[lo hi] |]; [| apply length_map].
  unfold clip_row, slice.
  rewrite !length_app, length_map, !length_firstn, !length_skipn. lia.
Qed.


(** ** After the replacement loop *)

Lemma f0_not_negative : (f0 <? f0)%f64 = false.
Proof. unfold f0. cbn. apply Rltb_irrefl. Qed.

Lemma replace_row_clean (p : params) :
  let '(a, mn, sig) := replace_row p in
  (a <? f0)%f64 = false /\ F64.isnan a = false
  /\ F64.isnan mn = false /\ F64.isnan sig = false.
Proof.
  destruct p as [[a mn] sig]. unfold replace_row. cbn [col set_col].
  pose proof f0_not_negative as H0.
  destruct ((a <? f0)%f64 || F64.isnan a) eqn:Ea; cbn [col set_col].
  - rewrite H0. cbn [orb].
    destruct (F64.isnan mn) eqn:Em; cbn [col set_col]; rewrite H0;
      cbn [orb]; destruct (F64.isnan sig) eqn:Es; cbn [col set_col];
      repeat split; auto.
  - apply orb_false_iff in Ea. destruct Ea as [Ha Hn]. rewrite Ha.
    cbn [orb].
    destruct (F64.isnan mn) eqn:Em; cbn [col set_col]; rewrite Ha;
      cbn [orb]; destruct (F64.isnan sig) eqn:Es; cbn [col set_col];
      repeat split; auto.
Qed.

Lemma replace_row_fixed (p : params) :
  (let '(a, mn, sig) := p in
   (a <? f0)%f64 = false /\ F64.isnan a = false
   /\ F64.isnan mn = false /\ F64.isnan sig = false) ->
  replace_row p = p.
Proof.
  destruct p as [[a mn] sig]. intros (Ha & Hna & Hnm & Hns).
  unfold replace_row. cbn [col set_col].
  rewrite Ha, Hna. cbn [orb col]. rewrite Ha, Hnm. cbn [orb col].
  now rewrite Ha, Hns.
Qed.


(** ** The point solution *)

Lemma argmin_from_first_min (v pre : list R) (best : nat) :
  is_first_min pre best ->
  is_first_min (pre ++ v)
    (argmin_from (length pre) best (Fin (nth best pre 0%R)) (map Fin v)).
Proof.
  revert pre best. induction v as [| x v IH]; intros pre best Hmin.
  - cbn. now rewrite app_nil_r.
  - cbn [map argmin_from F64.isnan orb F64.ltb].
    destruct Hmin as (Hk & Hle & Hlt).
    destruct (F64.Rltb x (nth best pre 0%R)) eqn:E.
    + assert (Hx : (x < nth best pre 0)%R).
      { unfold F64.Rltb in E. now destruct (Rlt_dec x (nth best pre 0%R)). }
      specialize (IH (pre ++ [x]) (length pre)).
      rewrite <- app_assoc, length_app, nth_middle in IH.
      cbn [length app] in IH. rewrite Nat.add_1_r in IH.
      apply IH. unfold is_first_min.
      rewrite length_app, nth_middle. cbn [length].
      split; [lia | split].
      * intros j Hj. destruct (Nat.eq_dec j (length pre)) as [-> | Hne].
        -- rewrite nth_middle. lra.
        -- rewrite app_nth1 by lia. specialize (Hle j ltac:(lia)). lra.
      * intros j Hj. rewrite app_nth1 by lia.
        specialize (Hle j ltac:(lia)). lra.
    + assert (Hx : (nth best pre 0 <= x)%R).
      { unfold F64.Rltb in E.
        destruct (Rlt_dec x (nth best pre 0%R)); [discriminate | lra]. }
      specialize (IH (pre ++ [x]) best).
      rewrite <- app_assoc, length_app, app_nth1 in IH by lia.
      cbn [length app] in IH. rewrite Nat.add_1_r in IH.
      apply IH. unfold is_first_min.
      rewrite length_app. cbn [length]. rewrite app_nth1 by lia.
      split; [lia | split].
      * intros j Hj. destruct (Nat.eq_dec j (length pre)) as [-> | Hne].
        -- now rewrite nth_middle.
        -- rewrite app_nth1 by lia. apply Hle. lia.
      * intros j Hj. rewrite app_nth1 by lia. now apply Hlt.
Qed.

Lemma argmin_first_min (x : R) (xs : list R) :
  exists i, argmin (map Fin (x :: xs)) = Ok i /\ is_first_min (x :: xs) i.
Proof.
  cbn [map argmin]. eexists. split; [reflexivity |].
  apply (argmin_from_first_min xs [x] 0).
  unfold is_first_min. cbn [length nth]. split; [lia | split].
  - intros [| j] Hj; [lra | lia].
  - intros j Hj. lia.
Qed.

Lemma np_sum_zeros_from (n : nat) (acc : R) :
  fold_left F64.add (np_zeros n) (Fin acc) = Fin acc.
Proof.
  revert acc. induction n as [| n IH]; intros acc; [reflexivity |].
  change (np_zeros (S n)) with (Fin 0 :: np_zeros n).
  cbn [fold_left F64.add]. rewrite Rplus_0_r. apply IH.
Qed.

Lemma np_sum_spike_from (n i : nat) (acc f : R) :
  (i < n)%nat ->
  fold_left F64.add (set_nth i (Fin f) (np_zeros n)) (Fin acc)
  = Fin (acc + f).
Proof.
  revert i acc. induction n as [| n IH]; intros i acc Hi; [lia |].
  change (np_zeros (S n)) with (Fin 0 :: np_zeros n).
  destruct i as [| i]; cbn [set_nth fold_left F64.add].
  - apply np_sum_zeros_from.
  - rewrite Rplus_0_r. apply IH. lia.
Qed.

Lemma nth_error_set_nth_same (i : nat) (x : float64) (v : vec) :
  (i < length v)%nat -> nth_error (set_nth i x v) i = Some x.
Proof.
  revert i. induction v as [| y v IH]; intros [| i] Hi; cbn in *;
    try lia; [reflexivity | apply IH; lia].
Qed.

Lemma nth_error_set_nth_other (i j : nat) (x : float64) (v : vec) :
  j <> i -> nth_error (set_nth i x v) j = nth_error v j.
Proof.
  revert i j. induction v as [| y v IH]; intros [| i] [| j] Hne; cbn;
    try reflexivity; [congruence | apply IH; congruence].
Qed.

Lemma nth_error_np_zeros (n j : nat) :
  (j < n)%nat -> nth_error (np_zeros n) j = Some f0.
Proof. intros H. unfold np_zeros. now apply nth_error_repeat. Qed.


(** ** Bounds of the one-dimensional resolution *)

Lemma ellipse_width_bounds (D bmaj bmin : R) :
  (0 < bmin)%R -> (bmin <= bmaj)%R ->
  (bmin <= ellipse_width D bmaj bmin <= bmaj)%R.
Proof.
  intros Hmin Hle. assert (Hmaj : (0 < bmaj)%R) by lra.
  unfold ellipse_width.
  pose proof (sin2_cos2 D) as Hsc. unfold Rsqr in Hsc.
  set (s := sin D) in *. set (c := cos D) in *.
  assert (Hib : (0 < / bmin)%R) by now apply Rinv_0_lt_compat.
  assert (Hia : (0 < / bmaj)%R) by now apply Rinv_0_lt_compat.
  assert (Hiab : (/ bmaj <= / bmin)%R) by now apply Rinv_le_contravar.
  unfold Rdiv. set (ib := (/ bmin)%R) in *. set (ia := (/ bmaj)%R) in *.
  set (q := (s * ib * (s * ib) + c * ia * (c * ia))%R).
  assert (Hss : (0 <= s * s)%R) by nra.
  assert (Hcc : (0 <= c * c)%R) by nra.
  assert (Hd : (0 <= ib * ib - ia * ia)%R) by nra.
  assert (Hq1 : (ia * ia <= q)%R).
  { unfold q. assert (0 <= (s * s) * (ib * ib - ia * ia))%R
      by now apply Rmult_le_pos.
    nra. }
  assert (Hq2 : (q <= ib * ib)%R).
  { unfold q. assert (0 <= (c * c) * (ib * ib - ia * ia))%R
      by now apply Rmult_le_pos.
    nra. }
  assert (Ht1 : (ia <= sqrt q)%R).
  { rewrite <- (sqrt_square ia) by lra. now apply sqrt_le_1_alt. }
  assert (Ht2 : (sqrt q <= ib)%R).
  { rewrite <- (sqrt_square ib) by lra. now apply sqrt_le_1_alt. }
  assert (Ht : (0 < sqrt q)%R) by lra.
  assert (Ha : (ia * bmaj = 1)%R) by (unfold ia; field; lra).
  assert (Hb : (ib * bmin = 1)%R) by (unfold ib; field; lra).
  rewrite Rmult_1_l.
  split.
  - apply Rmult_le_reg_r with (r := sqrt q); [assumption |].
    rewrite Rinv_l by lra. nra.
  - apply Rmult_le_reg_r with (r := sqrt q); [assumption |].
    rewrite Rinv_l by lra. nra.
Qed.



(** ** What a call that returns has stored *)

Lemma ensures_bind {A B} (m : M A) (k : A -> M B)
  (Q : B -> pystate -> Prop) :
  (forall a, ensures (k a) Q) -> ensures (bind m k) Q.
Proof.
  intros Hk st st' b. unfold bind.
  destruct (m st) as [st1 [a | e]]; [apply Hk | discriminate].
Qed.

Lemma ensures_code (self : Impvfits) (P : float64 -> Prop) (s : string)
  (z : Z) :
  ensures (bind (print s) (fun _ => ret (RInt z))) (stored_result self P).
Proof.
  intros st st' a H. cbn in H. inversion H; subst. intros E. discriminate.
Qed.

Lemma Forall_concat_rows {A} (P : A -> Prop) (m : list (list A)) :
  Forall (Forall P) m -> Forall P (concat m).
Proof.
  induction 1 as [| row m Hrow _ IH]; cbn; [constructor |].
  apply Forall_app. now split.
Qed.

Lemma reshape_cells (three_axes : bool) (n_v n_x : nat) (d : matrix)
  (arr : ndarray) (P : float64 -> Prop) :
  reshape three_axes n_v n_x d = Ok arr -> Forall (Forall P) d ->
  exists rows,
    arr = (if three_axes then A3 rows else A2 rows)
    /\ length rows = n_v /\ uniform n_x rows /\ Forall (Forall P) rows.
Proof.
  unfold reshape. intros H HP.
  destruct (length (concat d) =? n_v * n_x)%nat eqn:E; [| discriminate].
  apply Nat.eqb_eq in E. inversion H; subst arr. clear H.
  eexists. split; [reflexivity |].
  split; [now rewrite length_map, length_seq |]. split.
  - apply Forall_map. apply Forall_forall. intros i Hi. apply in_seq in Hi.
    unfold slice. rewrite length_firstn, length_skipn, E. nia.
  - apply Forall_map. apply Forall_forall. intros i _. unfold slice.
    apply Forall_firstn_skipn. apply Forall_firstn_skipn.
    now apply Forall_concat_rows.
Qed.

Section StoredResult.

Context {F : Fitfuncs}.

Lemma ensures_store_result (self : Impvfits) (P : float64 -> Prop)
  (d : matrix) :
  Forall (Forall P) d ->
  ensures (store_result (naxis self =? 3)%Z self d) (stored_result self P).
Proof.
  intros HP st st' a H _. rewrite store_result_eq in H.
  destruct (reshape _ _ _ d) as [arr |] eqn:Hre; [| discriminate].
  inversion H; subst. clear H.
  destruct (reshape_cells _ _ _ _ _ P Hre HP) as (rows & -> & Hl & Hu & Hc).
  exists (length (heap st)), rows. cbn [data_deconv heap].
  split; [reflexivity |]. split; [| now split].
  rewrite nth_error_app2 by lia. now rewrite Nat.sub_diag.
Qed.

Lemma magnitude_not_negative (z : cplx) : (Cplx.abs z <? f0)%f64 = false.
Proof.
  destruct z as [x y]. unfold Cplx.abs, f0. cbn [fst snd].
  destruct x as [a | | |], y as [b | | |]; cbn; try reflexivity.
  apply Rltb_false. apply sqrt_pos.
Qed.

Lemma magnitude_of_ifft_not_negative (d : list (list cplx)) :
  Forall (Forall (fun x => (x <? f0)%f64 = false)) (magnitude_of_ifft d).
Proof.
  unfold magnitude_of_ifft. apply Forall_map. apply Forall_forall.
  intros row _. apply Forall_map. apply Forall_forall. intros z _.
  apply magnitude_not_negative.
Qed.

Lemma ensures_numerical_solution (self : Impvfits)
  (highfcut : option float64) (solmode : string) (xfull : vec)
  (data_v : matrix) (sigma : bval) :
  ensures
    (numerical_solution (naxis self =? 3)%Z self highfcut solmode xfull
       data_v sigma)
    (stored_result self (fun x => (x <? f0)%f64 = false)).
Proof.
  unfold numerical_solution.
  destruct (beam_array self xfull) as [rbeam |].
  2: { intros st st' a H. cbn in H. inversion H; subst.
       intros E. discriminate. }
  apply ensures_bind. intros beam_v. apply ensures_bind. intros d0.
  assert (Hfin : forall d,
             ensures (store_result (naxis self =? 3)%Z self
                        (magnitude_of_ifft d))
               (stored_result self (fun x => (x <? f0)%f64 = false))).
  { intros d. apply ensures_store_result.
    apply magnitude_of_ifft_not_negative. }
  destruct (solmode =? "nullcut")%string.
  { apply ensures_bind. intros d. apply Hfin. }
  destruct (solmode =? "highfcut")%string.
  { destruct highfcut; [| apply ensures_code].
    apply ensures_bind. intros d. apply Hfin. }
  destruct (solmode =? "gauss-fc")%string.
  { apply ensures_bind. intros d. apply Hfin. }
  destruct (solmode =? "taper")%string.
  { destruct highfcut; [| apply ensures_code].
    apply ensures_bind. intros d. apply Hfin. }
  apply ensures_code.
Qed.

Lemma ensures_after_prefix (self : Impvfits)
  (sigmacut highfcut : option float64) (solmode : string)
  (fit_xlim fit_vlim : list float64) (P : float64 -> Prop) :
  (forall xaxis_v xfull data_v res_off_v,
     ensures
       (if (solmode =? "gauss")%string then
          d_deconv <~ lift (gauss_solution self sigmacut xaxis_v xfull data_v
                              res_off_v (sigma_beam_fft_of res_off_v)) ;;
          store_result (naxis self =? 3)%Z self d_deconv
        else
          numerical_solution (naxis self =? 3)%Z self highfcut solmode xfull
            data_v (sigma_beam_fft_of res_off_v))
       (stored_result self P)) ->
  ensures
    (beam_deconvolution self sigmacut highfcut solmode fit_xlim fit_vlim)
    (stored_result self P).
Proof.
  intros Htail. unfold beam_deconvolution.
  destruct ((naxis self =? 2) || (naxis self =? 3))%Z; [| apply ensures_code].
  apply ensures_bind. intros d_loc.
  apply ensures_bind. intros x_loc.
  apply ensures_bind. intros x_arr.
  apply ensures_bind. intros [w xaxis_v].
  apply ensures_bind. intros _.
  apply ensures_bind. intros d_arr.
  apply ensures_bind. intros xfull_arr.
  apply ensures_bind. intros r.
  apply ensures_bind. intros res_off_v.
  apply Htail.
Qed.

Lemma ensures_weaken (self : Impvfits) (P Q : float64 -> Prop)
  (m : M retval) :
  (forall x, P x -> Q x) ->
  ensures m (stored_result self P) -> ensures m (stored_result self Q).
Proof.
  intros HPQ H st st' a Hm Ha.
  destruct (H st st' a Hm Ha) as (l & rows & H1 & H2 & H3 & H4 & H5).
  exists l, rows. repeat (split; [assumption |]).
  eapply Forall_impl; [| exact H5]. intros row Hrow.
  eapply Forall_impl; [| exact Hrow]. exact HPQ.
Qed.



End StoredResult.



(** ** A mode that is not handled *)

Lemma unhandled_mode (solmode : string) :
  ~ In solmode handled_modes ->
  (solmode =? "gauss")%string = false
  /\ (solmode =? "nullcut")%string = false
  /\ (solmode =? "highfcut")%string = false
  /\ (solmode =? "gauss-fc")%string = false
  /\ (solmode =? "taper")%string = false.
Proof.
  intros H. unfold handled_modes in H. cbn [In] in H.
  repeat split; apply String.eqb_neq; intros ->; apply H; auto 6.
Qed.

Section UnhandledMode.

Context {F : Fitfuncs}.

Lemma no_result_unhandled_mode (self : Impvfits)
  (sigmacut highfcut : option float64) (solmode : string)
  (fit_xlim fit_vlim : list float64) :
  ~ In solmode handled_modes ->
  no_result
    (beam_deconvolution self sigmacut highfcut solmode fit_xlim fit_vlim).
Proof.
  intros Hmode. destruct (unhandled_mode solmode Hmode) as (E1 & E2 & E3 & E4 & E5).
  apply no_result_after_prefix.
  intros xaxis_v xfull data_v res_off_v. rewrite E1.
  unfold numerical_solution.
  destruct (beam_array self xfull) as [rbeam |].
  2: { intros st. cbn. split; [reflexivity | discriminate]. }
  apply no_result_bind; [apply keeps_attr_lift |]. intros beam_v.
  apply no_result_bind; [apply keeps_attr_lift |]. intros d_deconv_fft.
  rewrite E2, E3, E4, E5. apply no_result_print.
Qed.


End UnhandledMode.


(** ** An image without resolution *)

Lemma prints_bind {A B} (P : string -> Prop) (m : M A) (k : A -> M B) :
  prints P m -> (forall a, prints P (k a)) -> prints P (bind m k).
Proof.
  intros Hm Hk st. unfold bind. destruct (Hm st) as (o1 & H1 & HP1).
  destruct (m st) as [st1 [a | e]]; cbn [fst] in *.
  - destruct (Hk a st1) as (o2 & H2 & HP2).
    exists (o1 ++ o2). rewrite H2, H1, app_assoc.
    split; [reflexivity | now apply Forall_app].
  - now exists o1.
Qed.

Lemma prints_silent {A} (P : string -> Prop) (m : M A) :
  (forall st, stdout (fst (m st)) = stdout st) -> prints P m.
Proof.
  intros H st. exists []. rewrite H, app_nil_r. now split.
Qed.

Lemma prints_lift {A} (P : string -> Prop) (r : res A) : prints P (lift r).
Proof. now apply prints_silent. Qed.

Lemma prints_ret {A} (P : string -> Prop) (a : A) : prints P (ret a).
Proof. now apply prints_silent. Qed.

Lemma prints_load (P : string -> Prop) (l : loc) : prints P (load l).
Proof. now apply prints_silent. Qed.

Lemma prints_alloc (P : string -> Prop) (a : ndarray) : prints P (alloc a).
Proof. now apply prints_silent. Qed.

Lemma prints_store (P : string -> Prop) (l : loc) (a : ndarray) :
  prints P (store l a).
Proof. now apply prints_silent. Qed.

Lemma prints_set_data_deconv (P : string -> Prop) (l : loc) :
  prints P (set_data_deconv l).
Proof. now apply prints_silent. Qed.

Lemma prints_np_copy (P : string -> Prop) (l : loc) : prints P (np_copy l).
Proof.
  apply prints_bind; [apply prints_load | intros; apply prints_alloc].
Qed.

Lemma prints_print (P : string -> Prop) (s : string) :
  P s -> prints P (print s).
Proof.
  intros H st. exists [s]. split; [reflexivity | now constructor].
Qed.

Lemma prints_code (P : string -> Prop) (s : string) (z : Z) :
  P s -> prints P (bind (print s) (fun _ => ret (RInt z))).
Proof.
  intros H. apply prints_bind; [now apply prints_print |].
  intros. apply prints_ret.
Qed.

Section MissingResolution.

Context {F : Fitfuncs}.

Lemma prints_store_result (P : string -> Prop) (three_axes : bool)
  (self : Impvfits) (d : matrix) :
  prints P (store_result three_axes self d).
Proof.
  unfold store_result.
  apply prints_bind; [apply prints_lift |]. intros arr.
  apply prints_bind; [apply prints_alloc |]. intros l.
  apply prints_bind; [apply prints_set_data_deconv |]. intros _.
  apply prints_ret.
Qed.

Lemma prints_numerical_solution (three_axes : bool) (self : Impvfits)
  (highfcut : option float64) (solmode : string) (xfull : vec)
  (data_v : matrix) (sigma : bval) :
  beam_array self xfull <> None ->
  prints (fun s => s <> msg_resolution)
    (numerical_solution three_axes self highfcut solmode xfull data_v sigma).
Proof.
  intros Hb. unfold numerical_solution.
  destruct (beam_array self xfull) as [rbeam |]; [| congruence].
  apply prints_bind; [apply prints_lift |]. intros beam_v.
  apply prints_bind; [apply prints_lift |]. intros d0.
  destruct (solmode =? "nullcut")%string.
  { apply prints_bind; [apply prints_lift |]. intros d.
    apply prints_store_result. }
  destruct (solmode =? "highfcut")%string.
  { destruct highfcut; [| apply prints_code; discriminate].
    apply prints_bind; [apply prints_lift |]. intros d.
    apply prints_store_result. }
  destruct (solmode =? "gauss-fc")%string.
  { apply prints_bind; [apply prints_lift |]. intros d.
    apply prints_store_result. }
  destruct (solmode =? "taper")%string.
  { destruct highfcut; [| apply prints_code; discriminate].
    apply prints_bind; [apply prints_lift |]. intros d.
    apply prints_store_result. }
  apply prints_code. discriminate.
Qed.

Lemma prints_raise {A B} (P : string -> Prop) (e : exn) (k : A -> M B) :
  prints P (bind (lift (Raise e)) k).
Proof. now apply prints_silent. Qed.

Lemma prints_ok {A B} (P : string -> Prop) (a : A) (k : A -> M B) :
  prints P (k a) -> prints P (bind (lift (Ok a)) k).
Proof. intros H st. apply H. Qed.

Lemma beam_array_of_resolution (self : Impvfits) (b : bval) (xfull : vec) :
  get_res_off self = Ok (Some b) -> beam_array self xfull <> None.
Proof.
  unfold get_res_off, beam_array.
  destruct (multibeam self); [discriminate |].
  destruct (res_off self); [discriminate | discriminate].
Qed.



End MissingResolution.


(** ** The window on the offset axis *)

Lemma select_map_filter {A} (p : A -> bool) (v : list A) :
  select (map p v) v = filter p v.
Proof.
  induction v as [| a v IH]; cbn; [reflexivity |].
  destruct (p a); now rewrite IH.
Qed.

Lemma select_seq_spec (mask : list bool) (s : nat) :
  let indx := select mask (seq s (length mask)) in
  Forall (fun i => (s <= i < s + length mask)%nat
                   /\ nth (i - s) mask false = true) indx
  /\ StronglySorted lt indx
  /\ length indx = length (filter (fun b => b) mask).
Proof.
  revert s. induction mask as [| b mask IH]; intros s; cbn zeta.
  - cbn. repeat split; constructor.
  - cbn [length seq select filter].
    destruct (IH (S s)) as (Hall & Hsorted & Hlen).
    assert (Hall' : Forall (fun i => (s <= i < s + S (length mask))%nat
                                     /\ nth (i - s) (b :: mask) false = true)
                      (select mask (seq (S s) (length mask)))).
    { eapply Forall_impl; [| exact Hall]. cbn beta. intros i [Hi Hn].
      split; [lia |].
      replace (i - s)%nat with (S (i - S s)) by lia. exact Hn. }
    destruct b.
    + split; [| split].
      * constructor; [| exact Hall'].
        split; [lia |]. now rewrite Nat.sub_diag.
      * constructor; [exact Hsorted |].
        eapply Forall_impl; [| exact Hall]. cbn beta. intros i [Hi _]. lia.
      * cbn [length]. now rewrite Hlen.
    + split; [exact Hall' | split; assumption].
Qed.

Lemma last_cons {A} (l : list A) (a b : A) : last (b :: l) a = last l b.
Proof.
  revert a b. induction l as [| c l IH]; intros a b; [reflexivity |].
  change (last (b :: c :: l) a) with (last (c :: l) a).
  now rewrite (IH a c), (IH b c).
Qed.

Lemma last_in {A} (l : list A) (a : A) : In (last l a) (a :: l).
Proof.
  revert a. induction l as [| b l IH]; intros a; [now left |].
  right. rewrite last_cons. apply IH.
Qed.

Lemma sorted_span (l : list nat) (a : nat) :
  StronglySorted lt (a :: l) ->
  (a + length l <= last l a)%nat.
Proof.
  revert a. induction l as [| b l IH]; intros a H; [cbn; lia |].
  inversion H as [| ? ? Hs Hall]; subst.
  inversion Hall as [| ? ? Hab _]; subst.
  specialize (IH b Hs). cbn [length]. rewrite last_cons. lia.
Qed.

Lemma nth_error_last {A} (l : list A) (a : A) :
  nth_error (a :: l) (length (a :: l) - 1) = Some (last l a).
Proof.
  revert a. induction l as [| b l IH]; intros a; [reflexivity |].
  cbn [length]. replace (S (S (length l)) - 1)%nat with (S (length l)) by lia.
  cbn [nth_error]. specialize (IH b). cbn [length] in IH.
  replace (S (length l) - 1)%nat with (length l) in IH by lia.
  rewrite IH. now rewrite last_cons.
Qed.

Lemma filter_nil_forallb {A} (p : A -> bool) (v : list A) :
  filter p v = [] <-> forallb (fun x => negb (p x)) v = true.
Proof.
  induction v as [| a v IH]; cbn; [tauto |].
  destruct (p a); cbn; [split; discriminate | exact IH].
Qed.

Lemma fit_window_outside (xaxis_v : vec) (x_lo x_hi : float64) :
  forallb (fun x => negb (in_window x_lo x_hi x)) xaxis_v = true ->
  fit_window xaxis_v [x_lo; x_hi] = Raise IndexError.
Proof.
  intros Hnone. unfold fit_window, nonzero. fold (in_window x_lo x_hi).
  cbn zeta.
  destruct (select_seq_spec (map (in_window x_lo x_hi) xaxis_v) 0)
    as (_ & _ & Hlen).
  cbn zeta in Hlen.
  apply filter_nil_forallb in Hnone.
  assert (Hz : length (filter (fun b => b)
                         (map (in_window x_lo x_hi) xaxis_v)) = 0%nat).
  { clear Hlen. revert Hnone.
    induction xaxis_v as [| a v IH]; cbn; [reflexivity |].
    destruct (in_window x_lo x_hi a); [discriminate | exact IH]. }
  rewrite Hz in Hlen. apply length_zero_iff_nil in Hlen.
  rewrite Hlen. reflexivity.
Qed.

Lemma fit_window_inside (xaxis_v : vec) (x_lo x_hi : float64) :
  forallb (fun x => negb (in_window x_lo x_hi x)) xaxis_v = false ->
  exists i_min i_max,
    fit_window xaxis_v [x_lo; x_hi]
    = Ok (Some (i_min, i_max + 1)%nat,
          filter (in_window x_lo x_hi) xaxis_v)
    /\ (i_min <= i_max < length xaxis_v)%nat
    /\ option_map (in_window x_lo x_hi) (nth_error xaxis_v i_min)
       = Some true
    /\ option_map (in_window x_lo x_hi) (nth_error xaxis_v i_max)
       = Some true
    /\ (length (filter (in_window x_lo x_hi) xaxis_v)
        <= i_max + 1 - i_min)%nat.
Proof.
  intros Hsome. unfold fit_window, nonzero. fold (in_window x_lo x_hi).
  cbn zeta.
  destruct (select_seq_spec (map (in_window x_lo x_hi) xaxis_v) 0)
    as (Hall & Hsorted & Hlen).
  cbn zeta in Hall, Hsorted, Hlen.
  rewrite select_map_filter.
  assert (Hcount : length (filter (fun b => b)
                             (map (in_window x_lo x_hi) xaxis_v))
                   = length (filter (in_window x_lo x_hi) xaxis_v)).
  { clear. induction xaxis_v as [| a v IH]; cbn; [reflexivity |].
    destruct (in_window x_lo x_hi a); cbn; now rewrite IH. }
  rewrite Hcount in Hlen.
  destruct (select (map (in_window x_lo x_hi) xaxis_v)
              (seq 0 (length (map (in_window x_lo x_hi) xaxis_v))))
    as [| a l] eqn:Hsel.
  { cbn in Hlen. symmetry in Hlen. apply length_zero_iff_nil in Hlen.
    apply filter_nil_forallb in Hlen. congruence. }
  unfold py_index. cbn [nth_error rbind].
  rewrite (nth_error_last l a). cbn [rbind].
  exists a, (last l a). split; [reflexivity |].
  pose proof (sorted_span l a Hsorted) as Hspan.
  pose proof (last_in l a) as Hlast.
  rewrite Forall_forall in Hall.
  destruct (Hall a ltac:(now left)) as [Ha Hma].
  destruct (Hall (last l a) Hlast) as [Hb Hmb].
  rewrite length_map in Ha, Hb. rewrite Nat.sub_0_r in Hma, Hmb.
  assert (Hnth : forall i, (i < length xaxis_v)%nat ->
             nth i (map (in_window x_lo x_hi) xaxis_v) false = true ->
             option_map (in_window x_lo x_hi) (nth_error xaxis_v i)
             = Some true).
  { intros i Hi Hm.
    destruct (nth_error xaxis_v i) as [y |] eqn:Hy.
    - cbn. f_equal. rewrite <- Hm.
      erewrite nth_indep by (rewrite length_map; lia).
      rewrite (map_nth (in_window x_lo x_hi)) with (d := y).
      f_equal. symmetry. now apply nth_error_nth.
    - apply nth_error_None in Hy. lia. }
  split; [lia |]. split; [apply Hnth; [lia | assumption] |].
  split; [apply Hnth; [lia | assumption] |].
  rewrite <- Hlen. cbn [length]. lia.
Qed.

Lemma fit_window_bounds (xaxis_v : vec) (fit_xlim : list float64)
  (lo hi : nat) (xs : vec) :
  fit_window xaxis_v fit_xlim = Ok (Some (lo, hi), xs) ->
  (lo < hi <= length xaxis_v)%nat.
Proof.
  destruct fit_xlim as [| x_lo [| x_hi [| c l]]]; try discriminate.
  destruct (forallb (fun x => negb (in_window x_lo x_hi x)) xaxis_v) eqn:E.
  - rewrite fit_window_outside by assumption. discriminate.
  - destruct (fit_window_inside xaxis_v x_lo x_hi E)
      as (i_min & i_max & Hfw & Hb & _).
    rewrite Hfw. intros H. inversion H; subst. lia.
Qed.


(** ** A window in the numerical modes *)

Lemma length_slice {A} (lo hi : nat) (v : list A) :
  length (slice lo hi v) = Nat.min (hi - lo) (length v - lo).
Proof. unfold slice. now rewrite length_firstn, length_skipn. Qed.

Lemma bc2_mismatch {A B C} (f : A -> B -> C) (xs : list A) (ys : list B) :
  length xs <> length ys -> length xs <> 1%nat -> length ys <> 1%nat ->
  bc2 f xs ys = Raise ValueError.
Proof.
  intros Hne Hx Hy. unfold bc2. apply Nat.eqb_neq in Hne. rewrite Hne.
  destruct xs as [| x [| x' xs]], ys as [| y [| y' ys]]; cbn in *;
    try reflexivity; lia.
Qed.

Lemma bc2d_mismatch {A B C} (f : A -> B -> C) (k n : nat)
  (m1 : list (list A)) (m2 : list (list B)) :
  length m1 = length m2 -> m1 <> [] ->
  rows_of_length k m1 -> rows_of_length n m2 ->
  k <> n -> k <> 1%nat -> n <> 1%nat ->
  bc2d f m1 m2 = Raise ValueError.
Proof.
  intros Hlen Hne H1 H2 Hkn Hk Hn. unfold bc2d.
  rewrite Hlen, Nat.eqb_refl.
  destruct m1 as [| r1 m1]; [congruence |].
  destruct m2 as [| r2 m2]; [discriminate |].
  inversion H1; subst. inversion H2; subst.
  cbn [combine mapM fst snd]. rewrite bc2_mismatch by assumption.
  reflexivity.
Qed.

Section WindowedNumerical.

Context {F : Fitfuncs}.


End WindowedNumerical.


(** ** The highfcut mode on a well-formed single-beam image *)

Lemma map2_repeat_l {A B C} (g : A -> B -> C) (t : A) (m : list B) (n : nat) :
  length m = n -> map2 g (repeat t n) m = map (fun r => g t r) m.
Proof.
  intros <-. unfold map2. induction m as [| r m IH]; cbn; [reflexivity |].
  now rewrite IH.
Qed.

Lemma map2_map_l {A A' B C} (g : A' -> B -> C) (h : A -> A') (xs : list A)
  (ys : list B) :
  map2 g (map h xs) ys = map2 (fun x y => g (h x) y) xs ys.
Proof.
  unfold map2. revert ys. induction xs as [| x xs IH]; intros [| y ys]; cbn;
    try reflexivity.
  now rewrite IH.
Qed.

Section HighfcutMode.

Context {F : Fitfuncs}.

Lemma highfcut_filter_rows (self : Impvfits) (rho hf : float64) (xfull : vec)
  (data_v : matrix) :
  length xfull = nx self -> length data_v = nv self ->
  uniform (nx self) data_v ->
  exists d,
    highfcut_filter
      (repeat (kx_of self)
         (length (fftshift (fftfreq (nv self) (delv self)))))
      (sigma_beam_fft_of (Scalar rho)) hf
      (map2 (map2 Cplx.div) (fft_rows data_v)
         (fft_rows (repeat (single_beam xfull rho) (nv self))))
    = Ok d
    /\ magnitude_of_ifft d
       = map (lowpass_output (single_beam xfull rho) (kx_of self)
                (cutoff_of rho hf))
           data_v.
Proof.
  intros Hx Hlen Hu.
  unfold highfcut_filter. cbn [sigma_beam_fft_of bmap bcv].
  fold (cutoff_of rho hf).
  rewrite length_fftshift, length_fftfreq.
  assert (Hbu : uniform (nx self) (repeat (single_beam xfull rho) (nv self))).
  { apply rows_of_length_repeat. now rewrite length_single_beam. }
  destruct (fft_rows_shape _ _ Hu) as [Hdl Hdu].
  destruct (fft_rows_shape _ _ Hbu) as [Hbl Hbu'].
  assert (Hkl : length (kx_of self) = nx self).
  { unfold kx_of. now rewrite length_fftshift, length_fftfreq. }
  rewrite (mapM_pure _
             (map (fun k => (F64.abs k >? cutoff_of rho hf)%f64)))
    by reflexivity.
  cbn [rbind]. rewrite map_repeat.
  rewrite repeat_length, length_map2, Hdl, Hbl, repeat_length, Hlen,
    Nat.min_id, Nat.eqb_refl.
  rewrite (mapM_pure _
             (fun p => map2 (fun (b : bool) z => if b then Cplx.zero else z)
                         (fst p) (snd p))).
  - eexists. split; [reflexivity |].
    change (map (fun p => map2 (fun (b : bool) z => if b then Cplx.zero else z)
                            (fst p) (snd p)) (combine ?m ?d))
      with (map2 (map2 (fun (b : bool) z => if b then Cplx.zero else z)) m d).
    unfold fft_rows at 2. rewrite map_repeat.
    rewrite map2_repeat_r
      by (rewrite ?length_map2, ?length_map, ?Hdl, ?repeat_length; lia).
    rewrite map2_repeat_l by now rewrite length_map, Hdl.
    unfold magnitude_of_ifft, fft_rows. rewrite !map_map.
    apply map_ext. intros row.
    unfold lowpass_output, back_to_offsets, apply_cut, shifted_spectrum.
    now rewrite map2_map_l.
  - intros [mrow row] Hin. cbn [fst snd]. unfold zero_where.
    assert (Hm : length mrow = nx self).
    { apply in_combine_l in Hin. apply repeat_spec in Hin. subst mrow.
      now rewrite length_map. }
    assert (Hr : length row = nx self).
    { apply in_combine_r in Hin.
      assert (Hall : rows_of_length (nx self)
                       (map2 (map2 Cplx.div) (fft_rows data_v)
                          (fft_rows (repeat (single_beam xfull rho) (nv self)))))
        by now apply rows_of_length_map2.
      unfold rows_of_length in Hall. rewrite Forall_forall in Hall.
      now apply Hall. }
    now rewrite Hm, Hr, Nat.eqb_refl.
Qed.

(** The highfcut mode on a well-formed single-beam image: the state the
    call ends in. *)
Lemma highfcut_call (self : Impvfits) (rho hf : float64)
  (sigmacut : option float64) (fit_vlim : list float64) (st : pystate) :
  well_formed self st -> multibeam self = false -> res_off self = Some rho ->
  let rows :=
    map (lowpass_output
           (single_beam (as_vec (nth (xaxis self) (heap st) (A1 []))) rho)
           (kx_of self) (cutoff_of rho hf))
        (rows_read self sigmacut st) in
  beam_deconvolution self sigmacut (Some hf) "highfcut" [] fit_vlim st
  = ({| heap :=
          (heap st
           ++ [clipped_copy (nth (data self) (heap st) (A1 [])) sigmacut None;
               nth (xaxis self) (heap st) (A1 [])])
          ++ [if (naxis self =? 3)%Z then A3 rows else A2 rows];
        stdout := stdout st;
        data_deconv := Some (length (heap st) + 2) |}, Ok RNone).
Proof.
  intros Hwf Hmb Hres rows.
  destruct (well_formed_prepared self st sigmacut Hwf) as [Hplen Hpu].
  destruct Hwf as (Hn & Hd & Hx & Hnv & Hnx & Hlen & Hu & Hxl).
  rewrite beam_deconvolution_steps by assumption.
  cbn [fit_window]. cbn zeta.
  unfold get_res_off. rewrite Hmb, Hres.
  cbn [option_map rbind require_number String.eqb Ascii.eqb Bool.eqb].
  fold (rows_read self sigmacut st) in *.
  set (xfull := as_vec (nth (xaxis self) (heap st) (A1 []))) in *.
  rewrite (numerical_solution_start _ _ _ _ _ _ _ rho); try assumption.
  2: { now rewrite Hxl. }
  cbn [String.eqb Ascii.eqb Bool.eqb].
  destruct (highfcut_filter_rows self rho hf xfull (rows_read self sigmacut st)
              Hxl Hplen Hpu) as (d & Hd_eq & Hmag).
  unfold bind at 1. unfold lift at 1.
  match goal with
  | |- context [highfcut_filter ?kkx ?sg ?h ?dd] =>
      replace (highfcut_filter kkx sg h dd) with (Ok (A := list (list cplx)) d)
        by (symmetry; exact Hd_eq)
  end.
  rewrite store_result_eq, Hmag.
  rewrite reshape_uniform.
  - unfold with_heap. cbn [heap stdout data_deconv].
    rewrite length_app. cbn [length]. reflexivity.
  - apply Forall_map. eapply Forall_impl; [| exact Hpu].
    cbn beta. intros row Hrow.
    unfold lowpass_output, back_to_offsets, apply_cut, shifted_spectrum.
    rewrite length_map, length_fftshift, length_ifft_row, !length_map2.
    unfold kx_of.
    rewrite !length_fftshift, !length_fft_row, !length_map, length_fftfreq,
      length_single_beam, Hrow, Hxl.
    lia.
  - now rewrite length_map.
Qed.


End HighfcutMode.


(** ** The nullcut mode on a multi-beam image *)

Lemma bval_item_vector (f : float64 -> float64) (ss : vec) :
  (2 <= length ss)%nat -> bval_item (bmap f (Vector ss)) = Raise ValueError.
Proof.
  destruct ss as [| a [| b ss]]; cbn; intros H; try lia. reflexivity.
Qed.

Lemma fold_left_raise {A B} (f : A -> B -> res A) (l : list B) (e : exn) :
  fold_left (fun acc i => d <- acc ;; f d i) l (Raise e) = Raise e.
Proof. induction l as [| b l IH]; cbn; [reflexivity | exact IH]. Qed.

Section NullcutMultibeam.

Context {F : Fitfuncs}.

Lemma nullcut_step_vector (self : Impvfits) (kx : vec) (kkx : matrix)
  (data_fft : list (list cplx)) (ss : vec) (hf : float64)
  (d : list (list cplx)) (i : nat) :
  (2 <= length ss)%nat ->
  exists e,
    nullcut_step self kx kkx data_fft (Vector ss) (Some hf) d i = Raise e.
Proof.
  intros Hs. unfold nullcut_step.
  destruct (py_index data_fft i) as [row_fft | e]; [| now exists e].
  cbn [rbind].
  match goal with
  | |- context [rbind ?m _] => destruct m as [fx_null | e]; [| now exists e]
  end.
  cbn [rbind].
  match goal with
  | |- context [rbind ?m _] => destruct m as [mask | e]; [| now exists e]
  end.
  cbn [rbind].
  destruct (py_index d i) as [row | e]; [| now exists e]. cbn [rbind].
  destruct (zero_where mask row) as [row' | e]; [| now exists e].
  cbn [rbind].
  destruct (update_row i row' d) as [d1 | e]; [| now exists e].
  cbn [rbind]. rewrite bval_item_vector by assumption.
  now exists ValueError.
Qed.

Lemma nullcut_filter_vector (self : Impvfits) (kx : vec) (kkx : matrix)
  (data_fft : list (list cplx)) (ss : vec) (hf : float64)
  (d : list (list cplx)) :
  (2 <= length ss)%nat -> (0 < nv self)%nat ->
  exists e,
    nullcut_filter self kx kkx data_fft (Vector ss) (Some hf) d = Raise e.
Proof.
  intros Hs Hnv. unfold nullcut_filter.
  destruct (nv self) as [| n]; [lia |]. cbn [seq fold_left rbind].
  destruct (nullcut_step_vector self kx kkx data_fft ss hf d 0 Hs) as [e He].
  rewrite He. exists e. apply fold_left_raise.
Qed.


End NullcutMultibeam.


(** ** The change of units on a square multi-beam image *)

Lemma to_flux_per_pixel_square (self : Impvfits) (rs : vec) (d : matrix) :
  multibeam self = true -> length rs = nv self -> length d = nv self ->
  uniform (nv self) d ->
  to_flux_per_pixel self (Vector rs) d
  = Ok (map (fun row =>
               map2 F64.div row (map (beam_area_in_pixels self) rs)) d).
Proof.
  intros Hmb Hrs Hd Hu. unfold to_flux_per_pixel. rewrite Hmb.
  cbn [beam_area_of bmap np_tile]. rewrite map_repeat, map_map.
  fold (beam_area_in_pixels self).
  rewrite (ibc2d_same_shape F64.div (nv self)).
  - f_equal. apply map2_repeat_r. exact Hd.
  - now rewrite repeat_length.
  - exact Hu.
  - apply rows_of_length_repeat. now rewrite length_map.
Qed.



(** ** Division with a zero denominator *)

Lemma not_negative_is_nonnegative (a : float64) :
  F64.isnan a = false -> (a <? f0)%f64 = false -> (a >=? f0)%f64 = true.
Proof.
  unfold F64.geb, F64.leb, f0.
  destruct a as [r | | |]; cbn; intros Hn Hlt; try discriminate;
    try reflexivity.
  apply Rltb_false_inv in Hlt.
  destruct (Req_dec_T 0 r) as [<- | Hne].
  - rewrite Reqb_refl. apply orb_true_r.
  - rewrite Rltb_true by lra. reflexivity.
Qed.

Lemma negative_is_not_nonnegative (a : float64) :
  (a <? f0)%f64 = true -> (a >=? f0)%f64 = false.
Proof.
  unfold F64.geb, F64.leb, f0.
  destruct a as [r | | |]; cbn; intros Hlt; try discriminate;
    try reflexivity.
  unfold F64.Rltb in Hlt. destruct (Rlt_dec r 0); [| discriminate].
  rewrite Rltb_false by lra. rewrite Reqb_false by lra. reflexivity.
Qed.


(** ** Reading the beam and the position angle *)

Lemma nanargmax_nonempty (v : vec) (i : nat) :
  nanargmax v = Returned i -> v <> [].
Proof. destruct v; [discriminate | discriminate]. Qed.



Lemma ltb_irrefl (a : float64) : (a <? a)%f64 = false.
Proof. destruct a; cbn; try reflexivity. apply Rltb_irrefl. Qed.

Lemma ltb_nan_r (a : float64) : (a <? NaN)%f64 = false.
Proof. now destruct a. Qed.

Lemma ltb_chain (a w z : float64) :
  (a <? w)%f64 = true -> (a <? z)%f64 = false -> (w <? z)%f64 = false.
Proof.
  destruct a as [ra | | |], w as [rw | | |], z as [rz | | |]; cbn;
    intros H1 H2; try discriminate; try reflexivity.
  unfold F64.Rltb in *.
  destruct (Rlt_dec ra rw), (Rlt_dec ra rz), (Rlt_dec rw rz);
    try discriminate; try reflexivity; lra.
Qed.

Lemma fmax_in (a b : float64) : fmax a b = a \/ fmax a b = b.
Proof.
  unfold fmax. destruct (F64.isnan a); [now right |].
  destruct (F64.isnan b); [now left |].
  destruct (a <? b)%f64; [now right | now left].
Qed.

Lemma fold_fmax_bound (v seen : vec) (acc : float64) :
  Forall (fun z => (acc <? z)%f64 = false) seen ->
  (F64.isnan acc = true -> Forall (fun z => F64.isnan z = true) seen) ->
  Forall (fun z => (fold_left fmax v acc <? z)%f64 = false) (seen ++ v)
  /\ In (fold_left fmax v acc) (acc :: v).
Proof.
  revert seen acc. induction v as [| w v IH]; intros seen acc Hb Hn.
  - cbn. rewrite app_nil_r. split; [assumption | now left].
  - cbn [fold_left].
    replace (seen ++ w :: v) with ((seen ++ [w]) ++ v)
      by now rewrite <- app_assoc.
    destruct (IH (seen ++ [w]) (fmax acc w)) as [H1 H2].
    + apply Forall_app. split.
      * unfold fmax. destruct (F64.isnan acc) eqn:Ea.
        -- specialize (Hn eq_refl). eapply Forall_impl; [| exact Hn].
           cbn beta. intros z Hz. destruct z; try discriminate.
           apply ltb_nan_r.
        -- destruct (F64.isnan w) eqn:Ew; [assumption |].
           destruct (acc <? w)%f64 eqn:E; [| assumption].
           eapply Forall_impl; [| exact Hb]. cbn beta. intros z Hz.
           now apply ltb_chain with (a := acc).
      * constructor; [| constructor].
        unfold fmax. destruct (F64.isnan acc) eqn:Ea; [apply ltb_irrefl |].
        destruct (F64.isnan w) eqn:Ew.
        -- destruct w; try discriminate. apply ltb_nan_r.
        -- destruct (acc <? w)%f64 eqn:E; [apply ltb_irrefl | exact E].
    + intros Hnan. unfold fmax in Hnan.
      destruct (F64.isnan acc) eqn:Ea.
      * apply Forall_app. split; [now apply Hn |].
        constructor; [exact Hnan | constructor].
      * destruct (F64.isnan w) eqn:Ew; [congruence |].
        destruct (acc <? w)%f64; congruence.
    + split; [exact H1 |].
      destruct H2 as [H2 | H2].
      * destruct (fmax_in acc w) as [E | E].
        -- left. congruence.
        -- right. left. congruence.
      * right. right. exact H2.
Qed.

Lemma nanmax_is_largest (v : vec) (m : float64) :
  nanmax v = Ok m ->
  Forall (fun z => (m <? z)%f64 = false) v /\ In m v.
Proof.
  destruct v as [| x v]; [discriminate |]. cbn [nanmax]. intros H.
  inversion H; subst. clear H.
  destruct (fold_fmax_bound v [x] x) as [H1 H2].
  - constructor; [apply ltb_irrefl | constructor].
  - intros Hn. constructor; [exact Hn | constructor].
  - split; assumption.
Qed.

Lemma omapM_pure {A B} (f : A -> outcome B) (g : A -> B) (l : list A) :
  (forall a, f a = Returned (g a)) -> omapM f l = Returned (map g l).
Proof.
  intros H. induction l as [| a l IH]; cbn; [reflexivity |].
  now rewrite H, IH.
Qed.


